(** * The word-learning game of [src/App.tsx]: a shallow embedding

    The adaptive practice loop of the application: parsing of the learning
    content, the performance ledger, weighted target selection, distractor
    selection, mastery, the daily goal and streak, and backup export/import.

    Conventions of the embedding.
    - A JavaScript string is the list of its UTF-16 code units.
    - [localStorage] is a finite map from keys to strings.
    - A JavaScript number that holds a counter is an integer or [NaN]; the
      integers stand for the doubles of at most 2^53 in magnitude.
    - [Math.random], the random comparator of [sort], the clock and the JSON
      codec are inputs of the functions that use them.
    - A handler is given together with the render that follows it, in which
      React runs the updaters the handler gave to the state setters. What the
      handler itself reads is the state of the render it was made in.
    - A timer started by a handler is a function of its own, run after the
      handler. Where it calls a function of the render that started it, the
      state which that function holds is an argument. *)

From Stdlib Require Import ZArith NArith QArith Qround Lia Lqa String Ascii.
From Stdlib Require Import Floats.
From stdpp Require Import gmap strings list.

Set Warnings "-register-all,-clear-no-such-hyp,-inexact-float".

Close Scope Q_scope.
Close Scope float_scope.
Open Scope Z_scope.
Open Scope nat_scope.

(** ** JavaScript strings *)

Module JS.

(** A string is a sequence of UTF-16 code units. The characters of the
    separator class and the whitespace of [trim] are single code units. *)
Abbreviation jstring := (list N).

(** An ASCII literal of the source as a string. *)
Definition str (s : string) : jstring :=
  map N_of_ascii (list_ascii_of_string s).

#[global] Arguments str : simpl never.

Definition is_newline (c : N) : bool := (c =? 10)%N.

(** The character class of the regular expression in [parseInputData] and
    [handleMastery], as the file stores it: the colon U+003A and the three
    characters U+00EF, U+00BC and U+0161. The comment beside it says "both
    English and Chinese colons"; the three characters are what the UTF-8
    bytes of the full-width colon U+FF1A give when they are read as
    Windows-1252, and U+FF1A itself is not in the class. *)
Definition is_colon (c : N) : bool :=
  ((c =? 58) || (c =? 239) || (c =? 188) || (c =? 353))%N.

(** [String.prototype.split] for a separator that matches exactly one code
    unit. The result is never empty: a string without separator is its own
    single part. *)
Fixpoint split (sep : N → bool) (s : jstring) : list jstring :=
  match s with
  | [] => [[]]
  | c :: s' =>
      if sep c then [] :: split sep s'
      else match split sep s' with
           | [] => [[c]]
           | p :: ps => (c :: p) :: ps
           end
  end.

(** [Array.prototype.join] with a one-unit separator. *)
Fixpoint join (sep : N) (parts : list jstring) : jstring :=
  match parts with
  | [] => []
  | [p] => p
  | p :: ps => p ++ sep :: join sep ps
  end.

(** WhiteSpace and LineTerminator of ECMAScript, as removed by [trim] and
    skipped by [parseInt]. *)
Definition is_space (c : N) : bool :=
  ((9 <=? c) && (c <=? 13) || (c =? 32) || (c =? 160) || (c =? 5760)
   || (8192 <=? c) && (c <=? 8202) || (c =? 8232) || (c =? 8233)
   || (c =? 8239) || (c =? 8287) || (c =? 12288) || (c =? 65279))%N.

Fixpoint trimStart (s : jstring) : jstring :=
  match s with
  | c :: s' => if is_space c then trimStart s' else s
  | [] => []
  end.

Definition trimEnd (s : jstring) : jstring := rev (trimStart (rev s)).

Definition trim (s : jstring) : jstring := trimEnd (trimStart s).

(** Decimal digits of a natural number, as [Number.prototype.toString]
    prints a non-negative integer. *)
Definition digit (d : N) : N := (48 + d)%N.

Fixpoint digits_fuel (fuel : nat) (n : N) (acc : jstring) : jstring :=
  match fuel with
  | O => acc
  | S fuel' =>
      let acc' := digit (n mod 10) :: acc in
      if (n <? 10)%N then acc' else digits_fuel fuel' (n / 10) acc'
  end.

Definition N_toString (n : N) : jstring :=
  digits_fuel (S (N.to_nat (N.log2 n))) n [].

(** *** Numbers

    A counter of the application is an integer-valued number or [NaN]
    (what [parseInt] gives for a string without leading digits). The integers
    stand for the doubles of at most 2^53 in magnitude: there the addition
    is exact, [toString] prints the decimal digits and [parseInt] reads
    them back. Beyond, a double is rounded, and from 10^21 it is printed
    with an exponent; the statements that convert a counter to or from its
    text are for integers within that bound. *)
Inductive number := NaN | Num (z : Z).

#[global] Instance number_eq_dec : EqDecision number.
Proof. solve_decision. Defined.

Definition nadd (a b : number) : number :=
  match a, b with Num x, Num y => Num (x + y) | _, _ => NaN end.

Definition nsub (a b : number) : number :=
  match a, b with Num x, Num y => Num (x - y) | _, _ => NaN end.

(** [Math.abs]. *)
Definition nabs (a : number) : number :=
  match a with Num x => Num (Z.abs x) | NaN => NaN end.

(** [Math.ceil(a / d)] for a positive integer constant [d]. *)
Definition nceildiv (a : number) (d : Z) : number :=
  match a with Num x => Num (- ((- x) / d)) | NaN => NaN end.

(** [a >= b] and [a > b]: a comparison with [NaN] is false. *)
Definition nge (a b : number) : bool :=
  match a, b with Num x, Num y => (y <=? x)%Z | _, _ => false end.

Definition ngt (a b : number) : bool :=
  match a, b with Num x, Num y => (y <? x)%Z | _, _ => false end.

(** [Number.prototype.toString]. *)
Definition number_toString (n : number) : jstring :=
  match n with
  | NaN => str "NaN"
  | Num z => if (z <? 0)%Z then str "-" ++ N_toString (Z.to_N (- z))
             else N_toString (Z.to_N z)
  end.

Definition is_digit (c : N) : bool := ((48 <=? c) && (c <=? 57))%N.

(** The value of the longest prefix of decimal digits, [None] when the
    string does not start with a digit. *)
Fixpoint digitsValue (s : jstring) (acc : option N) : option N :=
  match s with
  | c :: s' =>
      if is_digit c then digitsValue s' (Some (10 * default 0 acc + (c - 48)))%N
      else acc
  | [] => acc
  end.

(** [parseInt(s, 10)]: leading whitespace is skipped, one sign is accepted,
    the digits that follow are read, the rest is ignored. *)
Definition parseInt (s : jstring) : number :=
  let s1 := trimStart s in
  let '(negative, s2) :=
    match s1 with
    | c :: r => if (c =? 45)%N then (true, r)
                else if (c =? 43)%N then (false, r) else (false, s1)
    | [] => (false, [])
    end in
  match digitsValue s2 None with
  | None => NaN
  | Some n => Num (if negative then - Z.of_N n else Z.of_N n)
  end.

(** *** Values

    The values [JSON.parse] returns, and [undefined] for a missing property. *)
Inductive value :=
  | VUndefined
  | VNull
  | VBool (b : bool)
  | VNum (n : number)
  | VStr (s : jstring)
  | VArr (items : list value)
  | VObj (props : list (jstring * value)).

(** Property lookup in an object literal: the last entry of a name wins. *)
Fixpoint getProp (name : jstring) (props : list (jstring * value)) : value :=
  match props with
  | [] => VUndefined
  | (k, v) :: rest =>
      match getProp name rest with
      | VUndefined => if decide (k = name) then v else VUndefined
      | found => found
      end
  end.

Definition hasProp (name : jstring) (props : list (jstring * value)) : bool :=
  bool_decide (name ∈ props.*1).

(** [v.name]: [None] is the TypeError of reading a property of [null] or
    [undefined]; a primitive or an array has no property of the names used. *)
Definition member (v : value) (name : jstring) : option value :=
  match v with
  | VUndefined | VNull => None
  | VObj props => Some (getProp name props)
  | _ => Some VUndefined
  end.

(** [d.name] for a [d] that is neither [null] nor [undefined]. *)
Definition prop (d : value) (name : string) : value :=
  default VUndefined (member d (str name)).

(** ToBoolean. *)
Definition truthy (v : value) : bool :=
  match v with
  | VUndefined | VNull => false
  | VBool b => b
  | VNum NaN => false
  | VNum (Num z) => negb (z =? 0)%Z
  | VStr s => bool_decide (s ≠ [])
  | VArr _ | VObj _ => true
  end.

(** ToString of a value: [None] is a TypeError (an object whose own
    [toString] property hides the inherited method with a non-function). *)
Fixpoint String_ (v : value) : option jstring :=
  match v with
  | VUndefined => Some (str "undefined")
  | VNull => Some (str "null")
  | VBool b => Some (str (if b then "true" else "false"))
  | VNum n => Some (number_toString n)
  | VStr s => Some s
  | VArr items =>
      join 44 <$>
        (fix elements (l : list value) : option (list jstring) :=
           match l with
           | [] => Some []
           | x :: l' =>
               match (match x with
                      | VUndefined | VNull => Some []
                      | _ => String_ x
                      end), elements l' with
               | Some s, Some ss => Some (s :: ss)
               | _, _ => None
               end
           end) items
  | VObj props =>
      if hasProp (str "toString") props then None
      else Some (str "[object Object]")
  end.

(** The method call [v.toString()]: a TypeError on [null] and [undefined]. *)
Definition toString (v : value) : option jstring :=
  match v with
  | VUndefined | VNull => None
  | _ => String_ v
  end.

(** The value read back from [JSON.stringify(v)]: [NaN] is written as
    [null], a property whose value is [undefined] is left out, and an
    [undefined] array element is written as [null]. *)
Fixpoint jsonImage (v : value) : value :=
  match v with
  | VUndefined => VUndefined
  | VNum NaN => VNull
  | VArr items =>
      VArr ((fix elements (l : list value) : list value :=
               match l with
               | [] => []
               | x :: l' =>
                   (match jsonImage x with VUndefined => VNull | y => y end)
                   :: elements l'
               end) items)
  | VObj props =>
      VObj ((fix entries (l : list (jstring * value)) : list (jstring * value) :=
               match l with
               | [] => []
               | (k, x) :: l' =>
                   match jsonImage x with
                   | VUndefined => entries l'
                   | y => (k, y) :: entries l'
                   end
               end) props)
  | _ => v
  end.

(** The global [JSON] object, for the texts kept in [localStorage]:
    [JSON_parse] is [None] on a SyntaxError. *)
Class JSON := {
  JSON_parse : jstring → option value;
  JSON_stringify : value → jstring
}.

End JS.

Import JS.


(** ** Learning content *)

(** [WordPair] of [./types]: one line of the learning content. *)
Record WordPair := { id : jstring; char : jstring; word : jstring }.

#[global] Instance WordPair_eq_dec : EqDecision WordPair.
Proof. solve_decision. Defined.

(** The callback of [map] in [parseInputData]: a line with at least two parts
    gives an item, any other line gives [null]. *)
Definition parseLine (index : nat) (line : jstring) : option WordPair :=
  let parts := split is_colon line in
  if decide (2 ≤ length parts) then
    Some {| id := str "word-" ++ trim (nth 0 parts []) ++ str "-"
                    ++ N_toString (N.of_nat index);
            char := trim (nth 0 parts []);
            word := trim (nth 1 parts []) |}
  else None.

(** The predicate of [filter] in [parseInputData]:
    [item !== null && item.char.length > 0]. *)
Definition isItem (item : option WordPair) : bool :=
  match item with
  | Some w => bool_decide (0 < length (char w))
  | None => false
  end.

Definition parseInputData (text : jstring) : list WordPair :=
  match text with
  | [] => []
  | _ => omap (λ item, item) (List.filter isItem (imap parseLine (split is_newline text)))
  end.

(** ** Storage keys *)

Definition STORAGE_KEY_GOAL : string := "wordWizard_dailyGoal".
Definition STORAGE_KEY_PROGRESS : string := "wordWizard_progress".
Definition STORAGE_KEY_STREAK : string := "wordWizard_streak".
Definition STORAGE_KEY_LAST_DATE : string := "wordWizard_lastDate".
Definition STORAGE_KEY_GOAL_MET : string := "wordWizard_goalMet".
Definition STORAGE_KEY_STATS : string := "wordWizard_stats".
Definition STORAGE_KEY_INPUT : string := "wordWizard_input".
Definition STORAGE_KEY_LEARNED : string := "wordWizard_learned".
Definition STORAGE_KEY_TOTAL_SCORE : string := "wordWizard_totalScore".

Definition MASTERY_THRESHOLD : N := 20.

(** [DEFAULT_DATA] of [./constants]. *)
Class Constants := { DEFAULT_DATA : jstring }.

(** [localStorage.getItem(key) || fallback]: an absent key and the empty
    string both give the fallback. *)
Definition orElse (saved : option jstring) (fallback : jstring) : jstring :=
  match saved with
  | Some (c :: s) => c :: s
  | _ => fallback
  end.

(** ** The performance ledger *)

(** One entry of [WordStats] of [./types]. *)
Record WordStat := { correct : N; incorrect : N; consecutiveCorrect : N }.

#[global] Instance WordStat_eq_dec : EqDecision WordStat.
Proof. solve_decision. Defined.

(** [prev[char] || { correct: 0, incorrect: 0, consecutiveCorrect: 0 }] on a
    ledger of records, for a [char] that has an entry or that is not the
    name of a member every object inherits: the entry, or the zero record.
    For the other names see [readProperty] below. *)
Definition statOf (stats : gmap jstring WordStat) (c : jstring) : WordStat :=
  default {| correct := 0; incorrect := 0; consecutiveCorrect := 0 |} (stats !! c).

(** The updater given to [setWordStats] on a correct answer. *)
Definition statsOnCorrect (c : jstring) (prev : gmap jstring WordStat)
  : gmap jstring WordStat :=
  let currentStat := statOf prev c in
  let newConsecutive := (consecutiveCorrect currentStat + 1)%N in
  <[c := {| correct := (correct currentStat + 1)%N;
            incorrect := incorrect currentStat;
            consecutiveCorrect := newConsecutive |}]> prev.

(** The updater given to [setWordStats] on an incorrect answer. *)
Definition statsOnIncorrect (c : jstring) (prev : gmap jstring WordStat)
  : gmap jstring WordStat :=
  let currentStat := statOf prev c in
  <[c := {| correct := correct currentStat;
            incorrect := (incorrect currentStat + 1)%N;
            consecutiveCorrect := 0 |}]> prev.

(** The ledger as the object given to [JSON.stringify], and the ledger of
    records that [JSON.parse] returns for it. [loadStats] keeps what
    [JSON.parse] returns as it is; the view is that value for the texts the
    application prints for a ledger of records. A count that is not a
    non-negative integer has no record and reads as 0. *)
Definition statValue (s : WordStat) : value :=
  VObj [(str "correct", VNum (Num (Z.of_N (correct s))));
        (str "incorrect", VNum (Num (Z.of_N (incorrect s))));
        (str "consecutiveCorrect", VNum (Num (Z.of_N (consecutiveCorrect s))))].

Definition statsValue (stats : gmap jstring WordStat) : value :=
  VObj (prod_map (λ c, c) statValue <$> map_to_list stats).

Definition asCount (v : value) : N :=
  match v with VNum (Num z) => Z.to_N z | _ => 0%N end.

Definition asWordStat (v : value) : option WordStat :=
  match v with
  | VObj fields =>
      Some {| correct := asCount (getProp (str "correct") fields);
              incorrect := asCount (getProp (str "incorrect") fields);
              consecutiveCorrect := asCount (getProp (str "consecutiveCorrect") fields) |}
  | _ => None
  end.

Definition asWordStats (v : value) : gmap jstring WordStat :=
  match v with
  | VObj props =>
      list_to_map (omap (λ kv, pair kv.1 <$> asWordStat kv.2) (reverse props))
  | _ => ∅
  end.

(** ** The ledger as the object it is

    [wordStats] is a plain object, and [prev[char]] reads it as one: the own
    property of that name if there is one, and else the member every object
    inherits from [Object.prototype] under that name, if there is one. The
    two updaters are given here on the properties of the object, for every
    value [JSON.parse] can have put there. [statOf], [statsOnCorrect] and
    [statsOnIncorrect] are what they come to for entries that are records of
    counts and a name that has an entry or that no object inherits. *)

(** The names of the members of [Object.prototype]. *)
Definition inheritedNames : list jstring :=
  str <$> ["constructor"; "hasOwnProperty"; "isPrototypeOf";
           "propertyIsEnumerable"; "toLocaleString"; "toString"; "valueOf";
           "__proto__"; "__defineGetter__"; "__defineSetter__";
           "__lookupGetter__"; "__lookupSetter__"].

Definition ledgerName (c : jstring) : Prop := c ∉ inheritedNames.

(** [prev[char]]. An inherited member is a function (for [__proto__], the
    prototype itself). The updaters read three fields of it, which it does
    not have, and spread it, which gives no property: it is given as the
    object without properties. *)
Definition readProperty (prev : list (jstring * value)) (c : jstring) : value :=
  if hasProp c prev then getProp c prev
  else if bool_decide (c ∈ inheritedNames) then VObj []
  else VUndefined.

(** [a || b] *)
Definition orValue (a b : value) : value := if truthy a then a else b.

(** [v + 1]: a number is added to, a string, an array or an object is
    converted to a string and the digit is appended; [None] is the TypeError
    of that conversion. *)
Definition plusOne (v : value) : option value :=
  match v with
  | VUndefined => Some (VNum NaN)
  | VNull => Some (VNum (Num 1))
  | VBool b => Some (VNum (Num (if b then 2 else 1)))
  | VNum n => Some (VNum (nadd n (Num 1)))
  | VStr _ | VArr _ | VObj _ => (λ s, VStr (s ++ str "1")) <$> String_ v
  end.

(** The properties [{ ...v }] copies: those of an object, the elements of
    an array and the code units of a string under their indices, none of
    any other value. *)
Definition spread (v : value) : list (jstring * value) :=
  match v with
  | VObj props => props
  | VArr items => imap (λ i x, (N_toString (N.of_nat i), x)) items
  | VStr s => imap (λ i c, (N_toString (N.of_nat i), VStr [c])) s
  | _ => []
  end.

Definition zeroStat : value :=
  VObj [(str "correct", VNum (Num 0));
        (str "incorrect", VNum (Num 0));
        (str "consecutiveCorrect", VNum (Num 0))].

(** The updater given to [setWordStats] on a correct answer. *)
Definition objectOnCorrect (c : jstring) (prev : list (jstring * value))
  : option (list (jstring * value)) :=
  let currentStat := orValue (readProperty prev c) zeroStat in
  newConsecutive ←
    plusOne (orValue (prop currentStat "consecutiveCorrect") (VNum (Num 0)));
  newCorrect ← plusOne (prop currentStat "correct");
  Some (prev ++ [(c, VObj (spread currentStat
                            ++ [(str "correct", newCorrect);
                                (str "consecutiveCorrect", newConsecutive)]))]).

(** The updater given to [setWordStats] on an incorrect answer. *)
Definition objectOnIncorrect (c : jstring) (prev : list (jstring * value))
  : option (list (jstring * value)) :=
  let currentStat := orValue (readProperty prev c) zeroStat in
  newIncorrect ← plusOne (prop currentStat "incorrect");
  Some (prev ++ [(c, VObj (spread currentStat
                            ++ [(str "incorrect", newIncorrect);
                                (str "consecutiveCorrect", VNum (Num 0))]))]).

(** The properties of the object of a ledger of records. *)
Definition ledgerEntries (stats : gmap jstring WordStat)
  : list (jstring * value) :=
  prod_map (λ c, c) statValue <$> map_to_list stats.

(** ** Arithmetic of the selection weights

    The weights are doubles in the program. The selection is written over an
    interface of the operations it uses, with two instances: exact rationals
    and IEEE 754 binary64. *)
Class Arith (R : Type) := {
  ofN : N → R;
  half : R;
  radd : R → R → R;
  rsub : R → R → R;
  rmul : R → R → R;
  rdiv : R → R → R;
  rle0 : R → bool;
  floorIndex : R → option nat
}.

(** [x <= 0] is [rle0 x]; [floorIndex x] is [Math.floor(x)] when it is a
    valid array index, and [None] otherwise (an element read there is
    [undefined]). *)

#[global] Instance Q_Arith : Arith Q := {
  ofN n := inject_Z (Z.of_N n);
  half := (1 # 2)%Q;
  radd := Qplus;
  rsub := Qminus;
  rmul := Qmult;
  rdiv := Qdiv;
  rle0 x := Qle_bool x 0;
  floorIndex x := if (Qfloor x <? 0)%Z then None else Some (Z.to_nat (Qfloor x))
}.

Definition float_floorIndex (x : float) : option nat :=
  match Prim2SF x with
  | S754_zero _ => Some 0
  | S754_finite false m e =>
      Some (Z.to_nat (if (0 <=? e)%Z then Z.pos m * 2 ^ e
                      else Z.pos m / 2 ^ (- e)))
  | _ => None
  end.

#[global] Instance float_Arith : Arith float := {
  ofN n := PrimFloat.of_uint63 (Uint63.of_Z (Z.of_N n));
  half := 0.5%float;
  radd := PrimFloat.add;
  rsub := PrimFloat.sub;
  rmul := PrimFloat.mul;
  rdiv := PrimFloat.div;
  rle0 x := PrimFloat.leb x 0%float;
  floorIndex := float_floorIndex
}.

(** ** Application state *)

Inductive Feedback := FeedbackNone | FeedbackCorrect | FeedbackIncorrect.

#[global] Instance Feedback_eq_dec : EqDecision Feedback.
Proof. solve_decision. Defined.

(** The [useState] cells of [App] that the game logic reads or writes, and
    [localStorage]. [masteryNotification] holds the mastered character (the
    text around it is presentation). *)
Record App := {
  inputText : jstring;
  learnedText : jstring;
  wordList : list WordPair;
  wordStats : gmap jstring WordStat;
  score : number;
  currentOptions : list WordPair;
  targetWord : option WordPair;
  isPlayingAudio : bool;
  feedback : Feedback;
  masteryNotification : option jstring;
  showCelebration : bool;
  dailyGoal : number;
  dailyProgress : number;
  streak : number;
  goalMetToday : bool;
  localStorage : gmap string jstring
}.

Definition setInputText (v : jstring) (st : App) : App :=
  {| inputText := v;
     learnedText := learnedText st;
     wordList := wordList st;
     wordStats := wordStats st;
     score := score st;
     currentOptions := currentOptions st;
     targetWord := targetWord st;
     isPlayingAudio := isPlayingAudio st;
     feedback := feedback st;
     masteryNotification := masteryNotification st;
     showCelebration := showCelebration st;
     dailyGoal := dailyGoal st;
     dailyProgress := dailyProgress st;
     streak := streak st;
     goalMetToday := goalMetToday st;
     localStorage := localStorage st |}.

Definition setLearnedText (v : jstring) (st : App) : App :=
  {| inputText := inputText st;
     learnedText := v;
     wordList := wordList st;
     wordStats := wordStats st;
     score := score st;
     currentOptions := currentOptions st;
     targetWord := targetWord st;
     isPlayingAudio := isPlayingAudio st;
     feedback := feedback st;
     masteryNotification := masteryNotification st;
     showCelebration := showCelebration st;
     dailyGoal := dailyGoal st;
     dailyProgress := dailyProgress st;
     streak := streak st;
     goalMetToday := goalMetToday st;
     localStorage := localStorage st |}.

Definition setWordList (v : list WordPair) (st : App) : App :=
  {| inputText := inputText st;
     learnedText := learnedText st;
     wordList := v;
     wordStats := wordStats st;
     score := score st;
     currentOptions := currentOptions st;
     targetWord := targetWord st;
     isPlayingAudio := isPlayingAudio st;
     feedback := feedback st;
     masteryNotification := masteryNotification st;
     showCelebration := showCelebration st;
     dailyGoal := dailyGoal st;
     dailyProgress := dailyProgress st;
     streak := streak st;
     goalMetToday := goalMetToday st;
     localStorage := localStorage st |}.

Definition setWordStats (v : gmap jstring WordStat) (st : App) : App :=
  {| inputText := inputText st;
     learnedText := learnedText st;
     wordList := wordList st;
     wordStats := v;
     score := score st;
     currentOptions := currentOptions st;
     targetWord := targetWord st;
     isPlayingAudio := isPlayingAudio st;
     feedback := feedback st;
     masteryNotification := masteryNotification st;
     showCelebration := showCelebration st;
     dailyGoal := dailyGoal st;
     dailyProgress := dailyProgress st;
     streak := streak st;
     goalMetToday := goalMetToday st;
     localStorage := localStorage st |}.

Definition setScore (v : number) (st : App) : App :=
  {| inputText := inputText st;
     learnedText := learnedText st;
     wordList := wordList st;
     wordStats := wordStats st;
     score := v;
     currentOptions := currentOptions st;
     targetWord := targetWord st;
     isPlayingAudio := isPlayingAudio st;
     feedback := feedback st;
     masteryNotification := masteryNotification st;
     showCelebration := showCelebration st;
     dailyGoal := dailyGoal st;
     dailyProgress := dailyProgress st;
     streak := streak st;
     goalMetToday := goalMetToday st;
     localStorage := localStorage st |}.

Definition setCurrentOptions (v : list WordPair) (st : App) : App :=
  {| inputText := inputText st;
     learnedText := learnedText st;
     wordList := wordList st;
     wordStats := wordStats st;
     score := score st;
     currentOptions := v;
     targetWord := targetWord st;
     isPlayingAudio := isPlayingAudio st;
     feedback := feedback st;
     masteryNotification := masteryNotification st;
     showCelebration := showCelebration st;
     dailyGoal := dailyGoal st;
     dailyProgress := dailyProgress st;
     streak := streak st;
     goalMetToday := goalMetToday st;
     localStorage := localStorage st |}.

Definition setTargetWord (v : option WordPair) (st : App) : App :=
  {| inputText := inputText st;
     learnedText := learnedText st;
     wordList := wordList st;
     wordStats := wordStats st;
     score := score st;
     currentOptions := currentOptions st;
     targetWord := v;
     isPlayingAudio := isPlayingAudio st;
     feedback := feedback st;
     masteryNotification := masteryNotification st;
     showCelebration := showCelebration st;
     dailyGoal := dailyGoal st;
     dailyProgress := dailyProgress st;
     streak := streak st;
     goalMetToday := goalMetToday st;
     localStorage := localStorage st |}.

Definition setIsPlayingAudio (v : bool) (st : App) : App :=
  {| inputText := inputText st;
     learnedText := learnedText st;
     wordList := wordList st;
     wordStats := wordStats st;
     score := score st;
     currentOptions := currentOptions st;
     targetWord := targetWord st;
     isPlayingAudio := v;
     feedback := feedback st;
     masteryNotification := masteryNotification st;
     showCelebration := showCelebration st;
     dailyGoal := dailyGoal st;
     dailyProgress := dailyProgress st;
     streak := streak st;
     goalMetToday := goalMetToday st;
     localStorage := localStorage st |}.

Definition setFeedback (v : Feedback) (st : App) : App :=
  {| inputText := inputText st;
     learnedText := learnedText st;
     wordList := wordList st;
     wordStats := wordStats st;
     score := score st;
     currentOptions := currentOptions st;
     targetWord := targetWord st;
     isPlayingAudio := isPlayingAudio st;
     feedback := v;
     masteryNotification := masteryNotification st;
     showCelebration := showCelebration st;
     dailyGoal := dailyGoal st;
     dailyProgress := dailyProgress st;
     streak := streak st;
     goalMetToday := goalMetToday st;
     localStorage := localStorage st |}.

Definition setMasteryNotification (v : option jstring) (st : App) : App :=
  {| inputText := inputText st;
     learnedText := learnedText st;
     wordList := wordList st;
     wordStats := wordStats st;
     score := score st;
     currentOptions := currentOptions st;
     targetWord := targetWord st;
     isPlayingAudio := isPlayingAudio st;
     feedback := feedback st;
     masteryNotification := v;
     showCelebration := showCelebration st;
     dailyGoal := dailyGoal st;
     dailyProgress := dailyProgress st;
     streak := streak st;
     goalMetToday := goalMetToday st;
     localStorage := localStorage st |}.

Definition setShowCelebration (v : bool) (st : App) : App :=
  {| inputText := inputText st;
     learnedText := learnedText st;
     wordList := wordList st;
     wordStats := wordStats st;
     score := score st;
     currentOptions := currentOptions st;
     targetWord := targetWord st;
     isPlayingAudio := isPlayingAudio st;
     feedback := feedback st;
     masteryNotification := masteryNotification st;
     showCelebration := v;
     dailyGoal := dailyGoal st;
     dailyProgress := dailyProgress st;
     streak := streak st;
     goalMetToday := goalMetToday st;
     localStorage := localStorage st |}.

Definition setDailyGoal (v : number) (st : App) : App :=
  {| inputText := inputText st;
     learnedText := learnedText st;
     wordList := wordList st;
     wordStats := wordStats st;
     score := score st;
     currentOptions := currentOptions st;
     targetWord := targetWord st;
     isPlayingAudio := isPlayingAudio st;
     feedback := feedback st;
     masteryNotification := masteryNotification st;
     showCelebration := showCelebration st;
     dailyGoal := v;
     dailyProgress := dailyProgress st;
     streak := streak st;
     goalMetToday := goalMetToday st;
     localStorage := localStorage st |}.

Definition setDailyProgress (v : number) (st : App) : App :=
  {| inputText := inputText st;
     learnedText := learnedText st;
     wordList := wordList st;
     wordStats := wordStats st;
     score := score st;
     currentOptions := currentOptions st;
     targetWord := targetWord st;
     isPlayingAudio := isPlayingAudio st;
     feedback := feedback st;
     masteryNotification := masteryNotification st;
     showCelebration := showCelebration st;
     dailyGoal := dailyGoal st;
     dailyProgress := v;
     streak := streak st;
     goalMetToday := goalMetToday st;
     localStorage := localStorage st |}.

Definition setStreak (v : number) (st : App) : App :=
  {| inputText := inputText st;
     learnedText := learnedText st;
     wordList := wordList st;
     wordStats := wordStats st;
     score := score st;
     currentOptions := currentOptions st;
     targetWord := targetWord st;
     isPlayingAudio := isPlayingAudio st;
     feedback := feedback st;
     masteryNotification := masteryNotification st;
     showCelebration := showCelebration st;
     dailyGoal := dailyGoal st;
     dailyProgress := dailyProgress st;
     streak := v;
     goalMetToday := goalMetToday st;
     localStorage := localStorage st |}.

Definition setGoalMetToday (v : bool) (st : App) : App :=
  {| inputText := inputText st;
     learnedText := learnedText st;
     wordList := wordList st;
     wordStats := wordStats st;
     score := score st;
     currentOptions := currentOptions st;
     targetWord := targetWord st;
     isPlayingAudio := isPlayingAudio st;
     feedback := feedback st;
     masteryNotification := masteryNotification st;
     showCelebration := showCelebration st;
     dailyGoal := dailyGoal st;
     dailyProgress := dailyProgress st;
     streak := streak st;
     goalMetToday := v;
     localStorage := localStorage st |}.

Definition setLocalStorage (v : gmap string jstring) (st : App) : App :=
  {| inputText := inputText st;
     learnedText := learnedText st;
     wordList := wordList st;
     wordStats := wordStats st;
     score := score st;
     currentOptions := currentOptions st;
     targetWord := targetWord st;
     isPlayingAudio := isPlayingAudio st;
     feedback := feedback st;
     masteryNotification := masteryNotification st;
     showCelebration := showCelebration st;
     dailyGoal := dailyGoal st;
     dailyProgress := dailyProgress st;
     streak := streak st;
     goalMetToday := goalMetToday st;
     localStorage := v |}.

Definition setItem (key : string) (v : jstring) (st : App) : App :=
  setLocalStorage (<[key := v]> (localStorage st)) st.

(** The component before its first effect runs: the initial values of the
    [useState] cells over a given [localStorage]. *)
Definition initialApp `{Constants} (ls : gmap string jstring) : App :=
  {| inputText := DEFAULT_DATA; learnedText := []; wordList := [];
     wordStats := ∅; score := Num 0; currentOptions := []; targetWord := None;
     isPlayingAudio := false; feedback := FeedbackNone;
     masteryNotification := None; showCelebration := false;
     dailyGoal := Num 10; dailyProgress := Num 0; streak := Num 0;
     goalMetToday := false; localStorage := ls |}.

(** The readings of [new Date()] a call makes: [toDateString()], [getTime()],
    [toISOString()], and [new Date(s).getTime()] for a stored date string
    ([NaN] for an invalid date). *)
Record Clock := {
  toDateString : jstring;
  getTime : Z;
  toISOString : jstring;
  dateTime : jstring → number
}.

(** ** Loading persisted state *)

Definition loadContent `{Constants} (st : App) : App :=
  let savedInput := localStorage st !! STORAGE_KEY_INPUT in
  let savedLearned := localStorage st !! STORAGE_KEY_LEARNED in
  let currentInput :=
    match savedInput with Some s => s | None => DEFAULT_DATA end in
  let st := setInputText currentInput st in
  let st := setWordList (parseInputData currentInput) st in
  match savedLearned with
  | Some (c :: s) => setLearnedText (c :: s) st
  | _ => st
  end.

Definition loadStats `{JSON} (st : App) : App :=
  match localStorage st !! STORAGE_KEY_STATS with
  | Some (c :: s) =>
      match JSON_parse (c :: s) with
      | Some parsed => setWordStats (asWordStats parsed) st
      | None => st
      end
  | _ => st
  end.

Definition MS_PER_DAY : Z := 1000 * 60 * 60 * 24.

Definition loadProgress (clock : Clock) (st : App) : App :=
  let ls := localStorage st in
  let st :=
    match ls !! STORAGE_KEY_GOAL with
    | Some (c :: s) => setDailyGoal (parseInt (c :: s)) st
    | _ => st
    end in
  let savedScore := parseInt (orElse (ls !! STORAGE_KEY_TOTAL_SCORE) (str "0")) in
  let st := setScore savedScore st in
  let lastDate := ls !! STORAGE_KEY_LAST_DATE in
  let today := toDateString clock in
  let savedStreak := parseInt (orElse (ls !! STORAGE_KEY_STREAK) (str "0")) in
  let savedProgress := parseInt (orElse (ls !! STORAGE_KEY_PROGRESS) (str "0")) in
  let savedGoalMet := bool_decide (ls !! STORAGE_KEY_GOAL_MET = Some (str "true")) in
  if decide (lastDate = Some today) then
    setGoalMetToday savedGoalMet (setStreak savedStreak (setDailyProgress savedProgress st))
  else
    let st := setDailyProgress (Num 0) st in
    let st := setGoalMetToday false st in
    let st := setItem STORAGE_KEY_PROGRESS (str "0") st in
    let st := setItem STORAGE_KEY_GOAL_MET (str "false") st in
    let st := setItem STORAGE_KEY_LAST_DATE today st in
    match lastDate with
    | Some (c :: s) =>
        let diffTime := nabs (nsub (Num (getTime clock)) (dateTime clock (c :: s))) in
        let diffDays := nceildiv diffTime MS_PER_DAY in
        if ngt diffDays (Num 1) && negb savedGoalMet then
          setItem STORAGE_KEY_STREAK (str "0") (setStreak (Num 0) st)
        else setStreak savedStreak st
    | _ => setStreak (Num 0) st
    end.

(** The effect run once when the component mounts. *)
Definition mount `{Constants} `{JSON} (clock : Clock) (st : App) : App :=
  loadContent (loadStats (loadProgress clock st)).

(** ** Daily goal and streak *)

Definition triggerCelebration (st : App) : App := setShowCelebration true st.

Definition updateProgress (clock : Clock) (st : App) : App :=
  let newProgress := nadd (dailyProgress st) (Num 1) in
  let goalReached := nge newProgress (dailyGoal st) && negb (goalMetToday st) in
  let newStreak := nadd (streak st) (Num 1) in
  let st := setDailyProgress newProgress st in
  let st := setItem STORAGE_KEY_PROGRESS (number_toString newProgress) st in
  let st := setItem STORAGE_KEY_LAST_DATE (toDateString clock) st in
  if goalReached then
    let st := setStreak newStreak st in
    let st := setGoalMetToday true st in
    let st := setItem STORAGE_KEY_STREAK (number_toString newStreak) st in
    let st := setItem STORAGE_KEY_GOAL_MET (str "true") st in
    triggerCelebration st
  else st.

Definition saveGoalSetting (val : number) (st : App) : App :=
  setItem STORAGE_KEY_GOAL (number_toString val) (setDailyGoal val st).

Definition saveContentSettings (newInput newLearned : jstring) (st : App) : App :=
  let st := setInputText newInput st in
  let st := setLearnedText newLearned st in
  let st := setItem STORAGE_KEY_INPUT newInput st in
  setItem STORAGE_KEY_LEARNED newLearned st.

(** ** Backup export and import *)

Definition storedValue (saved : option jstring) : value :=
  match saved with Some s => VStr s | None => VNull end.

(** The [data] object of [dataToExport], for the ledger [stats] read from
    the store. *)
Definition exportedData `{Constants} (ls : gmap string jstring) (stats : value)
  : value :=
  VObj
    [(str "input", VStr (orElse (ls !! STORAGE_KEY_INPUT) DEFAULT_DATA));
     (str "learned", VStr (orElse (ls !! STORAGE_KEY_LEARNED) []));
     (str "stats", stats);
     (str "totalScore",
       VNum (parseInt (orElse (ls !! STORAGE_KEY_TOTAL_SCORE) (str "0"))));
     (str "streak",
       VNum (parseInt (orElse (ls !! STORAGE_KEY_STREAK) (str "0"))));
     (str "dailyGoal",
       VNum (parseInt (orElse (ls !! STORAGE_KEY_GOAL) (str "10"))));
     (str "dailyProgress",
       VNum (parseInt (orElse (ls !! STORAGE_KEY_PROGRESS) (str "0"))));
     (str "lastDate", storedValue (ls !! STORAGE_KEY_LAST_DATE));
     (str "goalMet", storedValue (ls !! STORAGE_KEY_GOAL_MET))].

(** [dataToExport] of [handleExportData]; [None] when [JSON.parse] of the
    stored ledger throws (the handler has no [try], no file is made). *)
Definition handleExportData `{Constants} `{JSON} (clock : Clock) (st : App)
  : option value :=
  let ls := localStorage st in
  stats ← JSON_parse (orElse (ls !! STORAGE_KEY_STATS) (str "{}"));
  Some (VObj
    [(str "version", VNum (Num 1));
     (str "timestamp", VStr (toISOString clock));
     (str "data", exportedData ls stats)]).

(** What [JSON.parse] reads back from the downloaded file. *)
Definition backupDocument `{Constants} `{JSON} (clock : Clock) (st : App)
  : option value :=
  jsonImage <$> handleExportData clock st.

(** Writes to [localStorage] that can throw part-way: the store built so far
    is kept, and [None] tells the exception. *)
Definition Eff (A : Type) : Type :=
  gmap string jstring → gmap string jstring * option A.

Definition eret {A} (a : A) : Eff A := λ ls, (ls, Some a).

Definition ethrow {A} : Eff A := λ ls, (ls, None).

Definition ebind {A B} (m : Eff A) (k : A → Eff B) : Eff B :=
  λ ls, match m ls with
        | (ls', Some a) => k a ls'
        | (ls', None) => (ls', None)
        end.

Notation "m ;;; k" := (ebind m (λ _, k))
  (at level 90, right associativity).

(** [localStorage.setItem(key, text)], where evaluating [text] can throw. *)
Definition storeItem (key : string) (text : option jstring) : Eff unit :=
  match text with
  | Some s => λ ls, (<[key := s]> ls, Some tt)
  | None => ethrow
  end.

(** [if (field !== undefined) localStorage.setItem(key, text(field))] *)
Definition restoreField (key : string) (field : value)
    (text : value → option jstring) : Eff unit :=
  match field with
  | VUndefined => eret tt
  | _ => storeItem key (text field)
  end.

(** The block "Restore to LocalStorage" of [handleFileChange]: nine guarded
    writes, in this order, each with the key, the field of [d] and the text
    written for it. *)
Definition restoreTable `{JSON} (d : value)
  : list (string * value * (value → option jstring)) :=
  [(STORAGE_KEY_INPUT, prop d "input", String_);
   (STORAGE_KEY_LEARNED, prop d "learned", String_);
   (STORAGE_KEY_STATS, prop d "stats", λ v, Some (JSON_stringify v));
   (STORAGE_KEY_TOTAL_SCORE, prop d "totalScore", toString);
   (STORAGE_KEY_STREAK, prop d "streak", toString);
   (STORAGE_KEY_GOAL, prop d "dailyGoal", toString);
   (STORAGE_KEY_PROGRESS, prop d "dailyProgress", toString);
   (STORAGE_KEY_LAST_DATE, prop d "lastDate", String_);
   (STORAGE_KEY_GOAL_MET, prop d "goalMet", String_)].

Definition restoreAll
    (table : list (string * value * (value → option jstring))) : Eff unit :=
  foldr (λ entry rest, restoreField entry.1.1 entry.1.2 entry.2 ;;; rest)
        (eret tt) table.

Definition restore `{JSON} (d : value) : Eff unit :=
  restoreAll (restoreTable d).

(** [reader.onload] of [handleFileChange]. [parsed] is [JSON.parse(content)],
    [None] when it throws. Every exception ends in the [catch] block, which
    changes no state. *)
Definition handleFileChange `{Constants} `{JSON} (clock : Clock)
    (parsed : option value) (st : App) : App :=
  match parsed ≫= (λ p, member p (str "data")) with
  | Some d =>
      if truthy d then
        match restore d (localStorage st) with
        | (ls, Some _) =>
            loadStats (loadProgress clock (loadContent (setLocalStorage ls st)))
        | (ls, None) => setLocalStorage ls st
        end
      else st
  | None => st
  end.

(** ** Round selection *)

(** The random choices of one call of [setupRound]: the two [Math.random()]
    of the target selection, the orders the two [sort] calls with a random
    comparator leave, and the draws of the fill loop. *)
Record Random (R : Type) := {
  targetDraw : R;
  fallbackDraw : R;
  distractorOrder : list WordPair → list WordPair;
  fillDraws : list R;
  optionOrder : list WordPair → list WordPair
}.

Arguments targetDraw {R}.
Arguments fallbackDraw {R}.
Arguments distractorOrder {R}.
Arguments fillDraws {R}.
Arguments optionOrder {R}.

(** How a call ends: with a result, with an uncaught TypeError, or still in
    its loop when the supplied draws are used up. *)
Inductive outcome (A : Type) :=
  | Done (a : A)
  | Throws
  | Spinning.

Arguments Done {A}.
Arguments Throws {A}.
Arguments Spinning {A}.

Section Selection.
Context {R : Type} `{Arith R}.

(** [10 * (1 + s.incorrect * 3) / (1 + s.correct * 0.5)] *)
Definition weight (s : WordStat) : R :=
  rdiv (rmul (ofN 10) (radd (ofN 1) (rmul (ofN (incorrect s)) (ofN 3))))
       (radd (ofN 1) (rmul (ofN (correct s)) half)).

Definition itemsWithWeights (stats : gmap jstring WordStat)
    (currentList : list WordPair) : list (WordPair * R) :=
  map (λ item, (item, weight (statOf stats (char item)))) currentList.

Definition totalWeight (entries : list (WordPair * R)) : R :=
  foldl (λ sum x, radd sum x.2) (ofN 0) entries.

(** The [for] loop over [itemsWithWeights]: [target] keeps its value when
    no entry brings [randomVal] to zero or below. *)
Fixpoint walk (randomVal : R) (entries : list (WordPair * R))
    (target : option WordPair) : option WordPair :=
  match entries with
  | [] => target
  | entry :: rest =>
      let randomVal := rsub randomVal entry.2 in
      if rle0 randomVal then Some entry.1 else walk randomVal rest target
  end.

(** [currentList[Math.floor(draw * currentList.length)]] *)
Definition randomItem (draw : R) (currentList : list WordPair)
  : option WordPair :=
  floorIndex (rmul draw (ofN (N.of_nat (length currentList))))
    ≫= (λ i, currentList !! i).

(** The target of a round: [None] is [undefined]. *)
Definition selectTarget (rnd : Random R) (stats : gmap jstring WordStat)
    (currentList : list WordPair) : option WordPair :=
  let entries := itemsWithWeights stats currentList in
  let randomVal := rmul (targetDraw rnd) (totalWeight entries) in
  let target := walk randomVal entries (head currentList) in
  match target with
  | Some t => Some t
  | None => randomItem (fallbackDraw rnd) currentList
  end.

(** The [for] loop over [shuffledDistractors]. *)
Fixpoint pickDistractors (ds : list WordPair) (selected : list WordPair)
    (usedChars : gset jstring) : list WordPair * gset jstring :=
  match ds with
  | [] => (selected, usedChars)
  | d :: ds' =>
      let '(selected, usedChars) :=
        if decide (char d ∈ usedChars) then (selected, usedChars)
        else (selected ++ [d], {[char d]} ∪ usedChars) in
      if decide (2 ≤ length selected) then (selected, usedChars)
      else pickDistractors ds' selected usedChars
  end.

(** The [while] loop that fills up the distractors, one draw per turn. *)
Fixpoint fillDistractors (draws : list R) (currentList : list WordPair)
    (target : WordPair) (selected : list WordPair)
    (usedChars : gset jstring) : outcome (list WordPair) :=
  if decide (length selected < 2 ∧ 3 ≤ length currentList) then
    match draws with
    | [] => Spinning
    | draw :: draws' =>
        match randomItem draw currentList with
        | None => Throws
        | Some r =>
            let '(selected, usedChars) :=
              if decide (char r ≠ char target ∧ char r ∉ usedChars)
              then (selected ++ [r], {[char r]} ∪ usedChars)
              else (selected, usedChars) in
            if decide (2 ≤ length selected) then Done selected
            else fillDistractors draws' currentList target selected usedChars
        end
    end
  else Done selected.

(** The body of [setupRound]. [useCallback] makes the function anew for each
    ledger: a [setupRound] holds the ledger [stats] of the render it was
    made in. The pool is read through [wordListRef], which holds the list of
    the latest render. *)
Definition setupRoundWith (rnd : Random R) (stats : gmap jstring WordStat)
    (st : App) : outcome App :=
  let currentList := wordList st in
  match currentList with
  | [] => Done (setTargetWord None st)
  | _ :: _ =>
      match selectTarget rnd stats currentList with
      | None => Throws
      | Some target =>
          let st := setTargetWord (Some target) st in
          let potentialDistractors :=
            filter (λ w, char w ≠ char target) currentList in
          let shuffledDistractors :=
            distractorOrder rnd potentialDistractors in
          let '(selectedDistractors, usedChars) :=
            pickDistractors shuffledDistractors [] ∅ in
          match fillDistractors (fillDraws rnd) currentList target
                  selectedDistractors usedChars with
          | Done selectedDistractors =>
              let options := optionOrder rnd (target :: selectedDistractors) in
              Done (setFeedback FeedbackNone (setCurrentOptions options st))
          | Throws => Throws
          | Spinning => Spinning
          end
      end
  end.

(** The [setupRound] of the current render. *)
Definition setupRound (rnd : Random R) (st : App) : outcome App :=
  setupRoundWith rnd (wordStats st) st.
End Selection.

(** ** Answering *)

(** The part of a line before its first colon, trimmed: what
    [handleMastery] compares with the character of the mastered item. *)
Definition lineChar (line : jstring) : jstring :=
  trim (nth 0 (split is_colon line) []).

Definition handleMastery (w : WordPair) (st : App) : App :=
  let st := setMasteryNotification (Some (char w)) st in
  let lines := split is_newline (inputText st) in
  match list_find (λ l, lineChar l = char w) lines with
  | Some (lineIndex, line) =>
      let newLines := delete lineIndex lines in
      let newInput := join 10 newLines in
      let newLearned :=
        match learnedText st with
        | [] => []
        | c :: s => (c :: s) ++ [10%N]
        end ++ line in
      setWordList (parseInputData newInput)
        (saveContentSettings newInput newLearned st)
  | None => st
  end.

(** The updater given to [setWordStats] on a correct answer also assigns
    the local [isMastered] of the handler: this is the value it gives it. *)
Definition masteredOnCorrect (c : jstring) (prev : gmap jstring WordStat) : bool :=
  bool_decide (MASTERY_THRESHOLD ≤ consecutiveCorrect (statOf prev c) + 1)%N.

(** [handleOptionClick], with the render that follows the call. The handler
    gives [setScore] and [setWordStats] an updater each. React queues an
    updater and runs it when it renders the component next, after the
    handler has returned (it runs one at the call only when no update of the
    component is pending, and [setFeedback] has queued one before). The
    state after the render is the one below. The local [isMastered] is
    tested right after [setWordStats] has queued the updater that assigns
    it, so the test reads the [false] the variable was declared with; the
    assignment comes with the render, when nothing reads the variable any
    more. The flag returned tells whether the call has scheduled
    [handleMastery] for the target. *)
Definition handleOptionClick `{JSON} (clock : Clock) (selected : WordPair)
    (st : App) : App * bool :=
  match targetWord st with
  | None => (st, false)
  | Some target =>
      if isPlayingAudio st || bool_decide (feedback st = FeedbackCorrect)
      then (st, false)
      else
        let c := char target in
        if decide (id selected = id target) then
          let isMastered := false in
          let st := setFeedback FeedbackCorrect st in
          let newScore := nadd (score st) (Num 1) in
          let st := setItem STORAGE_KEY_TOTAL_SCORE (number_toString newScore)
                      (setScore newScore st) in
          let st := updateProgress clock st in
          let scheduled := isMastered in
          let isMastered := masteredOnCorrect c (wordStats st) || isMastered in
          let newStats := statsOnCorrect c (wordStats st) in
          let st := setItem STORAGE_KEY_STATS (JSON_stringify (statsValue newStats))
                      (setWordStats newStats st) in
          (st, scheduled)
        else
          let st := setFeedback FeedbackIncorrect st in
          let newStats := statsOnIncorrect c (wordStats st) in
          let st := setItem STORAGE_KEY_STATS (JSON_stringify (statsValue newStats))
                      (setWordStats newStats st) in
          (st, false)
  end.

(** The timer of a correct answer that sets up the next round, after the
    praise. It calls the [setupRound] of the render in which the answer was
    given, [clicked]: the weights are taken from the ledger of that render,
    in which the answer is not recorded yet. *)
Definition afterCorrect {R : Type} `{Arith R} (rnd : Random R)
    (clicked st : App) : outcome App :=
  setupRoundWith rnd (wordStats clicked) st.

(** ** The kept lines, in the words of the specification

    A line is kept when it contains a separator and the text before its
    first separator is not blank; the character is that text and the word is
    the text between the first separator and the next one, both trimmed. *)

Fixpoint before (sep : N → bool) (s : jstring) : jstring :=
  match s with
  | [] => []
  | c :: s' => if sep c then [] else c :: before sep s'
  end.

Fixpoint behind (sep : N → bool) (s : jstring) : jstring :=
  match s with
  | [] => []
  | c :: s' => if sep c then s' else behind sep s'
  end.

Definition hasSeparator (line : jstring) : bool := existsb is_colon line.

Definition firstPart (line : jstring) : jstring := before is_colon line.

Definition secondPart (line : jstring) : jstring :=
  before is_colon (behind is_colon line).

Definition keptItem (index : nat) (line : jstring) : option WordPair :=
  if hasSeparator line && bool_decide (trim (firstPart line) ≠ []) then
    Some {| id := str "word-" ++ trim (firstPart line) ++ str "-"
                    ++ N_toString (N.of_nat index);
            char := trim (firstPart line);
            word := trim (secondPart line) |}
  else None.

Definition keptItems (lines : list jstring) : list WordPair :=
  omap (λ item, item) (imap keptItem lines).

(** ** Notions used in the statements *)

(** The number a run of digits denotes after the digits read so far. *)
Definition valueOf (l : jstring) (a : N) : N :=
  foldl (λ a c, 10 * a + (c - 48))%N a l.

(** A text that starts with neither a digit, a sign nor a space. *)
Definition startsNonNumeric (s : jstring) : bool :=
  match s with
  | c :: _ => negb (is_digit c || is_space c || (c =? 45)%N || (c =? 43)%N)
  | [] => false
  end.

(** How a counter is read from its stored text: an absent or empty text as
    0, the decimal text of an integer of at most 2^53 in magnitude as that
    integer, a text that is not numeric as [NaN]. *)
Definition readsCounter (saved : option jstring) (n : number) : Prop :=
  (saved = None ∨ saved = Some [] → n = Num 0)
  ∧ (∀ z, (Z.abs z ≤ 2 ^ 53)%Z → saved = Some (number_toString (Num z)) →
       n = Num z)
  ∧ (∀ s, saved = Some s → startsNonNumeric s = true → n = NaN).

(** One answer for the item [a.1]: correct when [a.2]. *)
Definition recordAnswer (stats : gmap jstring WordStat) (a : jstring * bool)
  : gmap jstring WordStat :=
  if a.2 then statsOnCorrect a.1 stats else statsOnIncorrect a.1 stats.

Definition recordAnswers (stats : gmap jstring WordStat)
    (answers : list (jstring * bool)) : gmap jstring WordStat :=
  foldl recordAnswer stats answers.

(** The answers of a sequence that are for the item [c]. *)
Definition answersFor (c : jstring) (answers : list (jstring * bool))
  : list (jstring * bool) :=
  filter (λ a, a.1 = c) answers.

(** Calls of [updateProgress] on one day, each with its own clock reading. *)
Definition advances (clocks : list Clock) (st : App) : App :=
  foldl (λ st clock, updateProgress clock st) st clocks.

Definition absentOrEmpty (saved : option jstring) : Prop :=
  saved = None ∨ saved = Some [].

(** The [data] member of a backup that the import goes on with: [None] when
    the text is not JSON, when reading [data] throws, or when it is falsy. *)
Definition payloadData (parsed : option value) : option value :=
  match parsed ≫= (λ p, member p (str "data")) with
  | Some d => if truthy d then Some d else None
  | None => None
  end.

(** A key after the restore block: the text of its field when the field is
    present, its old value when the field is [undefined]. *)
Definition restoredFrom (old new : gmap string jstring)
    (entry : string * value * (value → option jstring)) : Prop :=
  new !! entry.1.1
  = match entry.1.2 with
    | VUndefined => old !! entry.1.1
    | field => entry.2 field
    end.

(** Every persisted key holds the text of a field present in the payload. *)
Definition fullyRestored `{JSON} (d : value) (new : gmap string jstring) : Prop :=
  Forall (λ entry, entry.1.2 ≠ VUndefined ∧ new !! entry.1.1 = entry.2 entry.1.2)
         (restoreTable d).

(** The properties of an object as written to a file and read back. *)
Definition jsonEntries (props : list (jstring * value)) : list (jstring * value) :=
  match jsonImage (VObj props) with
  | VObj entries => entries
  | _ => []
  end.

(** A store as the application writes it: every key present, the content
    not empty, the counters in decimal and of at most 2^53 in magnitude (the
    integers a double holds exactly), the ledger a text that the codec reads
    and prints back. *)
Record canonicalStore `{JSON} (ls : gmap string jstring) : Prop := {
  canonical_input : ∃ c s, ls !! STORAGE_KEY_INPUT = Some (c :: s);
  canonical_learned : is_Some (ls !! STORAGE_KEY_LEARNED);
  canonical_stats : ∃ c s v, ls !! STORAGE_KEY_STATS = Some (c :: s)
      ∧ JSON_parse (c :: s) = Some v ∧ jsonImage v = v ∧ v ≠ VUndefined
      ∧ JSON_stringify v = c :: s;
  canonical_score : ∃ z, (Z.abs z ≤ 2 ^ 53)%Z
      ∧ ls !! STORAGE_KEY_TOTAL_SCORE = Some (number_toString (Num z));
  canonical_streak : ∃ z, (Z.abs z ≤ 2 ^ 53)%Z
      ∧ ls !! STORAGE_KEY_STREAK = Some (number_toString (Num z));
  canonical_goal : ∃ z, (Z.abs z ≤ 2 ^ 53)%Z
      ∧ ls !! STORAGE_KEY_GOAL = Some (number_toString (Num z));
  canonical_progress : ∃ z, (Z.abs z ≤ 2 ^ 53)%Z
      ∧ ls !! STORAGE_KEY_PROGRESS = Some (number_toString (Num z));
  canonical_lastDate : is_Some (ls !! STORAGE_KEY_LAST_DATE);
  canonical_goalMet : is_Some (ls !! STORAGE_KEY_GOAL_MET)
}.

Section Wheel.
Context {R : Type} `{Arith R}.

(** [randomVal] after the weights of the first [k] items were subtracted. *)
Definition remaining (randomVal : R) (weights : list R) (k : nat) : R :=
  foldl rsub randomVal (take k weights).

(** The walk reaches the draw at item [k]: the remainder is zero or below
    once the weight of item [k] is subtracted. *)
Definition reached (randomVal : R) (weights : list R) (k : nat) : bool :=
  rle0 (remaining randomVal weights (S k)).

Definition weightsOf (stats : gmap jstring WordStat)
    (currentList : list WordPair) : list R :=
  (λ item, weight (statOf stats (char item))) <$> currentList.

End Wheel.

(** The sum of a list of weights. *)
Definition sumQ (l : list Q) : Q := foldr Qplus 0%Q l.

(** The accumulated weight of the items up to item [k]. *)
Definition cumulative (weights : list Q) (k : nat) : Q :=
  sumQ (take (S k) weights).

(** The pool has at least three items with pairwise distinct characters. *)
Definition threeDistinctChars (pool : list WordPair) : Prop :=
  ∃ a b c, a ∈ pool ∧ b ∈ pool ∧ c ∈ pool
    ∧ char a ≠ char b ∧ char a ≠ char c ∧ char b ≠ char c.

(** ** Sample inputs *)

Definition text (lines : list string) : jstring := join 10 (str <$> lines).

Definition sampleConstants : Constants :=
  {| DEFAULT_DATA := text ["a: apple"; "b: bee"; "c: cat"] |}.

(** A codec for the empty ledger, for stores that hold no other one. *)
Definition emptyLedgerJSON : JSON :=
  {| JSON_parse s := if decide (s = str "{}") then Some (VObj []) else None;
     JSON_stringify v := match v with VObj [] => str "{}" | _ => str "{...}" end |}.

(** Monday 2 November 2026, 10:00, in a zone without offset; the day before
    is the only stored date it is asked to read. *)
Definition mondayAtTen : Clock :=
  {| toDateString := str "Mon Nov 02 2026";
     getTime := 1793577600000 + 36000000;
     toISOString := str "2026-11-02T10:00:00.000Z";
     dateTime s := if decide (s = str "Sun Nov 01 2026")
                   then Num 1793491200000 else NaN |}.

Definition sampleApp (ls : gmap string jstring) : App :=
  @initialApp sampleConstants ls.

(** The item of the line [a:x] at index 1 of the content. *)
Definition itemA : WordPair :=
  {| id := str "word-a-1"; char := str "a"; word := str "x" |}.

(** The content has a bare line [a] above the line [a:x]; the item [a] has
    19 consecutive correct answers and is the target of the round. *)
Definition beforeMastery : App :=
  setTargetWord (Some itemA)
    (setWordStats
       {[ str "a" := {| correct := 19; incorrect := 0; consecutiveCorrect := 19 |} ]}
       (@loadContent sampleConstants
          (sampleApp {[ STORAGE_KEY_INPUT := text ["a"; "a:x"; "b:y"; "c:z"] ]}))).

(** The item of the first line of the content [a:x], [b:y], [c:z]; it has
    19 consecutive correct answers and is the target of the round. *)
Definition firstItem : WordPair :=
  {| id := str "word-a-0"; char := str "a"; word := str "x" |}.

Definition beforeTwentieth : App :=
  setTargetWord (Some firstItem)
    (setWordStats
       {[ str "a" := {| correct := 19; incorrect := 0; consecutiveCorrect := 19 |} ]}
       (@loadContent sampleConstants
          (sampleApp {[ STORAGE_KEY_INPUT := text ["a:x"; "b:y"; "c:z"] ]}))).

Definition firstItemDraw : Random float :=
  {| targetDraw := 0%float; fallbackDraw := 0%float;
     distractorOrder := λ l, l; fillDraws := []; optionOrder := λ l, l |}.

(** * The rest of the component *)

(** ** The screens *)

(** [GameState] of [./types], with the two members the component uses. *)
Inductive GameState := SETUP | PLAYING.

#[global] Instance GameState_eq_dec : EqDecision GameState.
Proof. solve_decision. Defined.

(** The component with the two cells the screens add to the game state. *)
Record Screen := {
  game : App;
  gameState : GameState;
  errorMessage : option jstring
}.

(** The component before its first effect runs. *)
Definition initialScreen `{Constants} (ls : gmap string jstring) : Screen :=
  {| game := initialApp ls; gameState := PLAYING; errorMessage := None |}.

(** [startGame], once [initializeAudio] has returned. The flag tells that
    the alert was shown. *)
Definition startGame (v : Screen) : Screen * bool :=
  let parsed := parseInputData (inputText (game v)) in
  if decide (length parsed < 3) then (v, true)
  else
    ({| game := setTargetWord None (setWordList parsed (game v));
        gameState := PLAYING;
        errorMessage := None |}, false).

(** The effect "Initial setup trigger". *)
Definition roundEffect {R : Type} `{Arith R} (rnd : Random R) (v : Screen)
  : outcome Screen :=
  if decide (gameState v = PLAYING ∧ 0 < length (wordList (game v))
             ∧ targetWord (game v) = None) then
    match setupRound rnd (game v) with
    | Done st => Done {| game := st; gameState := gameState v;
                         errorMessage := errorMessage v |}
    | Throws => Throws
    | Spinning => Spinning
    end
  else Done v.

(** Every item of the pool carries one of two characters. *)
Definition atMostTwoChars (pool : list WordPair) : Prop :=
  ∃ c1 c2, Forall (λ w, char w = c1 ∨ char w = c2) pool.

(** ** The Setup screen *)

(** The value of a hexadecimal digit. *)
Definition hexDigit (c : N) : option N :=
  if is_digit c then Some (c - 48)%N
  else if ((97 <=? c) && (c <=? 102))%N then Some (c - 87)%N
  else if ((65 <=? c) && (c <=? 70))%N then Some (c - 55)%N
  else None.

(** The value of the longest prefix of hexadecimal digits. *)
Fixpoint hexValue (s : jstring) (acc : option N) : option N :=
  match s with
  | c :: s' =>
      match hexDigit c with
      | Some d => hexValue s' (Some (16 * default 0 acc + d))%N
      | None => acc
      end
  | [] => acc
  end.

(** [parseInt(s)] without a radix: as [parseInt(s, 10)], except that [0x]
    or [0X] after the sign selects the radix 16. *)
Definition parseIntAuto (s : jstring) : number :=
  let s1 := trimStart s in
  let '(negative, s2) :=
    match s1 with
    | c :: r => if (c =? 45)%N then (true, r)
                else if (c =? 43)%N then (false, r) else (false, s1)
    | [] => (false, [])
    end in
  let digits :=
    match s2 with
    | zero :: x :: s3 =>
        if ((zero =? 48) && ((x =? 120) || (x =? 88)))%N then hexValue s3 None
        else digitsValue s2 None
    | _ => digitsValue s2 None
    end in
  match digits with
  | None => NaN
  | Some n => Num (if negative then - Z.of_N n else Z.of_N n)
  end.

(** [a || b] on numbers: [NaN] and zero are falsy. *)
Definition orNumber (a b : number) : number :=
  if truthy (VNum a) then a else b.

(** [Math.max] *)
Definition nmax (a b : number) : number :=
  match a, b with Num x, Num y => Num (Z.max x y) | _, _ => NaN end.

(** The handler of the daily-goal input:
    [saveGoalSetting(Math.max(1, parseInt(e.target.value) || 1))]. *)
Definition goalOfInput (value : jstring) : number :=
  nmax (Num 1) (orNumber (parseIntAuto value) (Num 1)).

Definition onGoalChange (value : jstring) (st : App) : App :=
  saveGoalSetting (goalOfInput value) st.

(** The handlers of the two text areas. *)
Definition onInputChange (val : jstring) (st : App) : App :=
  saveContentSettings val (learnedText st) st.

Definition onLearnedChange (val : jstring) (st : App) : App :=
  saveContentSettings (inputText st) val st.

(** ** Callbacks of the game screen *)

Definition onGame (f : App → App) (v : Screen) : Screen :=
  {| game := f (game v); gameState := gameState v;
     errorMessage := errorMessage v |}.

(** [playTargetAudio(word)] up to its [await], for a [word] that is set.
    The function reads the [isPlayingAudio] of the render it was made in,
    [playing]. *)
Definition playTargetAudioWith (playing : bool) (v : Screen) : Screen :=
  if playing then v
  else {| game := setIsPlayingAudio true (game v); gameState := gameState v;
          errorMessage := None |}.

(** The [playTargetAudio] of the current render. *)
Definition playTargetAudio (v : Screen) : Screen :=
  playTargetAudioWith (isPlayingAudio (game v)) v.

(** [playTargetAudio] after its [await]: the playback has ended, or it has
    failed and the message is shown (the text is presentation). *)
Definition audioEnded (failed : bool) (v : Screen) : Screen :=
  {| game := setIsPlayingAudio false (game v); gameState := gameState v;
     errorMessage := if failed then Some (str "Audio playback failed")
                     else errorMessage v |}.

(** The timer of an incorrect answer, 800 ms after it: the feedback is
    cleared and the target is read out again. The timer holds the
    [playTargetAudio] of the render in which the answer was given, where no
    audio was playing, so the playback starts whatever plays now. *)
Definition afterIncorrect (v : Screen) : Screen :=
  {| game := setIsPlayingAudio true (setFeedback FeedbackNone (game v));
     gameState := gameState v; errorMessage := None |}.

(** The component after its mount effect. *)
Definition mounted `{Constants} `{JSON} (clock : Clock)
    (ls : gmap string jstring) : Screen :=
  onGame (mount clock) (initialScreen ls).

(** ** The callbacks that keep the store *)

(** One callback of the running component: an answer, the timers it
    starts, a round set up by the [setupRound] of any render (with the
    ledger that render had), the audio started by the [playTargetAudio] of
    any render, and the handlers of the Setup screen. [handleMastery] is
    among them although no answer schedules it. The import is not among
    them. *)
Inductive step `{Constants} `{JSON} : Screen → Screen → Prop :=
  | step_answer clock selected v :
      step v (onGame (λ st, (handleOptionClick clock selected st).1) v)
  | step_mastery w v :
      step v (onGame (handleMastery w) v)
  | step_round {R : Type} {arith : Arith R} (rnd : Random R) stats v st' :
      setupRoundWith rnd stats (game v) = Done st' →
      step v (onGame (λ _, st') v)
  | step_retry v :
      step v (afterIncorrect v)
  | step_listen playing v :
      step v (playTargetAudioWith playing v)
  | step_audioEnded failed v :
      step v (audioEnded failed v)
  | step_celebrated v :
      step v (onGame (setShowCelebration false) v)
  | step_notified v :
      step v (onGame (setMasteryNotification None) v)
  | step_goal value v :
      step v (onGame (onGoalChange value) v)
  | step_input val v :
      step v (onGame (onInputChange val) v)
  | step_learned val v :
      step v (onGame (onLearnedChange val) v)
  | step_start v :
      step v (startGame v).1
  | step_setup v :
      step v {| game := game v; gameState := SETUP;
                errorMessage := errorMessage v |}.

(** The ledger a mount reads from the stored text. *)
Definition storedLedger `{JSON} (saved : option jstring)
  : gmap jstring WordStat :=
  match saved with
  | Some (c :: s) =>
      match JSON_parse (c :: s) with
      | Some parsed => asWordStats parsed
      | None => ∅
      end
  | _ => ∅
  end.

(** The cells whose values are kept in the store, and the store. *)
Definition persistent (st : App) :=
  (inputText st, learnedText st, wordStats st, score st, dailyGoal st,
   dailyProgress st, streak st, goalMetToday st, localStorage st).

(** The state in memory is what a mount reads from the store. *)
Record synced `{Constants} `{JSON} (st : App) : Prop := {
  synced_input :
    inputText st = default DEFAULT_DATA (localStorage st !! STORAGE_KEY_INPUT);
  synced_learned :
    learnedText st = orElse (localStorage st !! STORAGE_KEY_LEARNED) [];
  synced_stats :
    wordStats st = storedLedger (localStorage st !! STORAGE_KEY_STATS);
  synced_score :
    score st
    = parseInt (orElse (localStorage st !! STORAGE_KEY_TOTAL_SCORE) (str "0"));
  synced_goal :
    dailyGoal st
    = match localStorage st !! STORAGE_KEY_GOAL with
      | Some (c :: s) => parseInt (c :: s)
      | _ => Num 10
      end;
  synced_progress :
    dailyProgress st
    = parseInt (orElse (localStorage st !! STORAGE_KEY_PROGRESS) (str "0"));
  synced_streak :
    streak st
    = parseInt (orElse (localStorage st !! STORAGE_KEY_STREAK) (str "0"));
  synced_goalMet :
    goalMetToday st
    = bool_decide (localStorage st !! STORAGE_KEY_GOAL_MET = Some (str "true"))
}.

(** The codec reads back the ledgers the application prints. *)
Definition readsLedgers `{JSON} : Prop :=
  ∀ stats : gmap jstring WordStat,
    ∃ c s, JSON_stringify (statsValue stats) = c :: s
      ∧ JSON_parse (c :: s) = Some (jsonImage (statsValue stats)).

(** A store that is fresh or that the application wrote: the ledger text,
    if any, is a printed ledger, and a streak comes with the date of the
    last activity. *)
Definition writtenByApp `{JSON} (ls : gmap string jstring) : Prop :=
  (ls !! STORAGE_KEY_STATS = None
   ∨ ∃ stats, ls !! STORAGE_KEY_STATS = Some (JSON_stringify (statsValue stats)))
  ∧ ((∃ c s, ls !! STORAGE_KEY_LAST_DATE = Some (c :: s))
     ∨ parseInt (orElse (ls !! STORAGE_KEY_STREAK) (str "0")) = Num 0).

(** ** The numbers and names of the embedding *)

(** An integer that a double holds exactly, or [NaN]: the numbers for which
    [nadd], [number_toString] and [parseInt] are the addition, the printing
    and the reading of the program. *)
Definition exactNumber (n : number) : Prop :=
  match n with NaN => True | Num z => (Z.abs z ≤ 2 ^ 53)%Z end.

Definition exactCount (n : N) : Prop := (n ≤ 2 ^ 53)%N.

(** A state within these numbers, with a target that the ledger is read
    for by a name that no object inherits. *)
Record withinRange (st : App) : Prop := {
  range_score : exactNumber (score st);
  range_goal : exactNumber (dailyGoal st);
  range_progress : exactNumber (dailyProgress st);
  range_streak : exactNumber (streak st);
  range_ledger :
    map_Forall (λ _ s, exactCount (correct s) ∧ exactCount (incorrect s)
                       ∧ exactCount (consecutiveCorrect s)) (wordStats st);
  range_target :
    ∀ target, targetWord st = Some target → ledgerName (char target)
}.

(** A callback that ends within them. *)
Definition stepWithin `{Constants} `{JSON} (v v' : Screen) : Prop :=
  step v v' ∧ withinRange (game v').

(** ** A codec for ledgers *)

#[global] Instance WordStat_countable : Countable WordStat.
Proof.
  refine (inj_countable'
            (λ s, (correct s, incorrect s, consecutiveCorrect s))
            (λ t, {| correct := t.1.1; incorrect := t.1.2;
                     consecutiveCorrect := t.2 |}) _).
  by intros [].
Defined.

(** A codec for stores that hold printed ledgers only: a ledger is printed
    as the one-unit text of its number in an enumeration of the ledgers. *)
Definition ledgerCodec : JSON :=
  {| JSON_parse s :=
       match s with
       | [Npos p] => statsValue <$> (decode p : option (gmap jstring WordStat))
       | _ => None
       end;
     JSON_stringify v := [Npos (encode (asWordStats v))] |}.

(** ** Items of the content *)

(** A text without white space at either end. *)
Definition trimmed (s : jstring) : Prop :=
  (∀ c, head s = Some c → is_space c = false)
  ∧ (∀ c, last s = Some c → is_space c = false).

(** A text without a colon and without a newline. *)
Definition plain (s : jstring) : Prop :=
  existsb is_colon s = false ∧ existsb is_newline s = false.

(** ** Sequences of answers *)

(** Answers given one after the other, with no other callback between
    them. *)
Definition clicks `{JSON} (answers : list (Clock * WordPair)) (st : App) : App :=
  foldl (λ st answer, (handleOptionClick answer.1 answer.2 st).1) st answers.

(** * Properties *)

(** ** Splitting and parsing *)

Section Split.
Variable sep : N → bool.

Lemma split_nonempty s : split sep s ≠ [].
Proof.
  destruct s as [|c s]; simpl; [done|].
  destruct (sep c); [done|]. by destruct (split sep s).
Qed.

Lemma split_before_behind s :
  split sep s =
    before sep s :: (if existsb sep s then split sep (behind sep s) else []).
Proof.
  induction s as [|c s IH]; simpl; [done|].
  destruct (sep c) eqn:Hc; simpl; [done|].
  by rewrite IH.
Qed.

Lemma before_no_sep s : existsb sep (before sep s) = false.
Proof.
  induction s as [|c s IH]; simpl; [done|].
  destruct (sep c) eqn:Hc; simpl; [done|]. by rewrite Hc.
Qed.

Lemma before_behind s :
  existsb sep s = true →
  ∃ c, sep c = true ∧ s = before sep s ++ c :: behind sep s.
Proof.
  induction s as [|c s IH]; simpl; [done|].
  destruct (sep c) eqn:Hc; simpl.
  - intros _. by exists c.
  - intros Hs. destruct (IH Hs) as (c' & Hc' & Heq).
    exists c'. split; [done|]. by rewrite <- Heq.
Qed.

Lemma before_all s : existsb sep s = false → before sep s = s.
Proof.
  induction s as [|c s IH]; simpl; [done|].
  destruct (sep c); simpl; [done|]. intros Hs. by rewrite IH.
Qed.

Lemma split_parts_no_sep s :
  Forall (λ part, existsb sep part = false) (split sep s).
Proof.
  induction s as [|c s IH]; simpl; [by repeat constructor|].
  destruct (sep c) eqn:Hc; [by constructor|].
  destruct (split sep s) as [|p ps]; [by repeat constructor; simpl; rewrite Hc|].
  inversion IH; subst. constructor; [|done]. simpl. by rewrite Hc.
Qed.
End Split.

Lemma join_split (sep : N) s : join sep (split (λ c, (c =? sep)%N) s) = s.
Proof.
  induction s as [|c s IH]; [done|]. cbn [split].
  pose proof (split_nonempty (λ c, (c =? sep)%N) s) as Hne.
  destruct (N.eqb_spec c sep) as [->|Hc].
  - destruct (split _ s) as [|p ps]; [done|]. cbn [join] in *. by rewrite IH.
  - destruct (split _ s) as [|p ps]; [done|].
    destruct ps as [|q ps]; cbn [join] in *; by rewrite <- IH.
Qed.

Lemma split_no_sep sep s : existsb sep s = false → split sep s = [s].
Proof.
  intros Hs. rewrite split_before_behind, Hs. by rewrite before_all.
Qed.

Lemma split_app_sep sep p c s :
  existsb sep p = false → sep c = true →
  split sep (p ++ c :: s) = p :: split sep s.
Proof.
  intros Hp Hc. induction p as [|x p IH]; cbn [app split].
  - by rewrite Hc.
  - cbn [existsb] in Hp. apply orb_false_iff in Hp as [Hx Hp].
    rewrite Hx, IH by done. done.
Qed.

Lemma split_join (lines : list jstring) :
  lines ≠ [] →
  Forall (λ line, existsb is_newline line = false) lines →
  split is_newline (join 10 lines) = lines.
Proof.
  induction lines as [|p lines IH]; [done|]. intros _ Hall.
  inversion Hall as [|? ? Hp Hrest]; subst.
  destruct lines as [|q lines].
  - cbn [join]. by apply split_no_sep.
  - change (join 10 (p :: q :: lines)) with (p ++ 10%N :: join 10 (q :: lines)).
    rewrite split_app_sep by done. by rewrite IH.
Qed.

Lemma parseLine_keptItem index line :
  (if isItem (parseLine index line) then parseLine index line else None)
  = keptItem index line.
Proof.
  unfold parseLine, keptItem, hasSeparator, firstPart, secondPart.
  rewrite (split_before_behind is_colon line).
  destruct (existsb is_colon line) eqn:Hsep; cbn [length nth].
  - rewrite (split_before_behind is_colon (behind is_colon line)).
    cbn [length nth andb].
    destruct (decide (2 ≤ _)) as [_|Hn]; [|cbn in Hn; lia].
    cbn [isItem char].
    destruct (trim (before is_colon line)) as [|c s] eqn:Ht; cbn [length];
      repeat case_bool_decide; try done; lia.
  - destruct (decide (2 ≤ _)) as [Hn|_]; [cbn in Hn; lia|]. done.
Qed.

Lemma filter_items {A} (f : nat → A → option WordPair) (l : list A) :
  omap (λ item, item) (List.filter isItem (imap f l))
  = omap (λ item, item) (imap (λ i x, if isItem (f i x) then f i x else None) l).
Proof.
  revert f. induction l as [|x l IH]; intros f; [done|].
  specialize (IH (f ∘ S)). cbn [imap List.filter].
  destruct (isItem (f 0 x)) eqn:Hx.
  - destruct (f 0 x) as [w|]; [|done]. cbn in *. by rewrite IH.
  - cbn in *. exact IH.
Qed.

Lemma parseInputData_keptItems text :
  parseInputData text = keptItems (split is_newline text).
Proof.
  unfold parseInputData, keptItems. destruct text as [|c s]; [done|].
  rewrite filter_items. f_equal.
  apply imap_ext. intros i line _. apply parseLine_keptItem.
Qed.

Lemma existsb_false (P : N → bool) s :
  existsb P s = false ↔ Forall (λ c, P c = false) s.
Proof.
  induction s as [|c s IH]; cbn [existsb]; [by split; [constructor|]|].
  rewrite orb_false_iff, IH, Forall_cons. done.
Qed.

Lemma split_parts_units (sep : N → bool) s :
  Forall (λ part, ∀ c, c ∈ part → c ∈ s) (split sep s).
Proof.
  induction s as [|c s IH]; cbn [split].
  - by apply Forall_singleton.
  - destruct (sep c).
    + apply Forall_cons. split; [by intros c' ?%elem_of_nil|].
      eapply Forall_impl; [exact IH|]. intros part Hpart c' Hc'.
      right. by apply Hpart.
    + pose proof (split_nonempty sep s) as Hne.
      destruct (split sep s) as [|part parts]; [done|].
      apply Forall_cons in IH as [Hpart Hparts].
      apply Forall_cons. split.
      * intros c' [->|Hc']%elem_of_cons; [by left|]. right. by apply Hpart.
      * eapply Forall_impl; [exact Hparts|]. intros part' Hpart' c' Hc'.
        right. by apply Hpart'.
Qed.

Lemma omap_imap_none {A B} (f : nat → A → option B) (l : list A) :
  (∀ i x, x ∈ l → f i x = None) → omap (λ item, item) (imap f l) = [].
Proof.
  revert f. induction l as [|x l IH]; intros f Hnone; [done|].
  cbn [imap omap]. rewrite (Hnone 0 x) by by left.
  apply IH. intros i y Hy. apply Hnone. by right.
Qed.

(** C10, where the code departs from it. The separator class of the parser
    holds the colon and the characters U+00EF, U+00BC and U+0161; the
    full-width colon U+FF1A is not in it. A content without a character of
    the class gives no item, however many full-width colons separate its
    characters from their words: every line of it is dropped. *)
Theorem fullwidth_colon_is_no_separator (text : jstring) :
  Forall (λ c, c ≠ 58 ∧ c ≠ 239 ∧ c ≠ 188 ∧ c ≠ 353)%N text →
  is_colon 65306 = false
  ∧ Forall (λ line, split is_colon line = [line]) (split is_newline text)
  ∧ parseInputData text = [].
Proof.
  intros Hplain.
  assert (∀ line, line ∈ split is_newline text → existsb is_colon line = false)
    as Hlines.
  { intros line Hline. apply existsb_false, Forall_forall. intros c Hc.
    pose proof (split_parts_units is_newline text) as Hparts.
    rewrite Forall_forall in Hparts.
    pose proof (proj1 (Forall_forall _ _) Hplain c (Hparts line Hline c Hc))
      as (H1 & H2 & H3 & H4).
    unfold is_colon. by rewrite !(proj2 (N.eqb_neq _ _)). }
  split_and!.
  - reflexivity.
  - apply Forall_forall. intros line Hline. apply split_no_sep. by apply Hlines.
  - rewrite parseInputData_keptItems. unfold keptItems.
    apply omap_imap_none. intros i line Hline.
    unfold keptItem, hasSeparator. by rewrite Hlines.
Qed.

(** Three lines written with the full-width colon give no item; the letter
    U+00EF of the class cuts a word in two. *)
Lemma fullwidth_colon_is_no_separator_witness :
  let content : jstring :=
    join 10 [[29483; 65306] ++ str "cat"; [29399; 65306] ++ str "dog";
             [40479; 65306] ++ str "bird"]%N in
  parseInputData content = []
  ∧ (λ w, (char w, word w)) <$> parseInputData (str "na" ++ [239%N] ++ str "ve: x")
    = [(str "na", str "ve")].
Proof.
  cbn zeta. split.
  - apply fullwidth_colon_is_no_separator.
    repeat (apply Forall_cons; split;
            [repeat split; vm_compute; discriminate|]).
    apply Forall_nil_2.
  - vm_compute. reflexivity.
Defined.

Lemma lineChar_firstPart line : lineChar line = trim (firstPart line).
Proof. unfold lineChar, firstPart. by rewrite split_before_behind. Qed.

Lemma keptItem_char index line w :
  keptItem index line = Some w → lineChar line = char w.
Proof.
  unfold keptItem. rewrite lineChar_firstPart.
  destruct (_ && _); [|done]. by intros [= <-].
Qed.

Lemma omap_imap_source {A} (f : nat → A → option WordPair) (l : list A) item :
  item ∈ omap (λ x, x) (imap f l) → ∃ i x, l !! i = Some x ∧ f i x = Some item.
Proof.
  revert f. induction l as [|x l IH]; intros f Hin.
  - by apply elem_of_nil in Hin.
  - cbn [imap omap list_omap] in Hin.
    assert (item ∈ omap (λ x, x) (imap (f ∘ S) l) →
            ∃ i y, (x :: l) !! i = Some y ∧ f i y = Some item) as Hrest.
    { intros Hin'. destruct (IH _ Hin') as (i & y & Hy & Hf).
      by exists (S i), y. }
    destruct (f 0 x) as [w|] eqn:Hw; [|by apply Hrest].
    apply elem_of_cons in Hin as [->|Hin]; [|by apply Hrest].
    by exists 0, x.
Qed.

Lemma keptItems_chars (lines : list jstring) item :
  item ∈ keptItems lines →
  ∃ i line, lines !! i = Some line ∧ lineChar line = char item.
Proof.
  intros Hin. destruct (omap_imap_source _ _ _ Hin) as (i & line & Hline & Hkept).
  exists i, line. split; [done|]. by eapply keptItem_char.
Qed.

(** ** Decimal texts *)

Lemma digits_fuel_value fuel : ∀ n acc,
  (n < 2 ^ N.of_nat fuel)%N →
  valueOf (digits_fuel fuel n acc) 0 = valueOf acc n.
Proof.
  induction fuel as [|fuel IH]; intros n acc Hn.
  - cbn in Hn. by replace n with 0%N by lia.
  - cbn [digits_fuel]. destruct (N.ltb_spec n 10) as [Hlt|Hge].
    + unfold valueOf, digit. cbn [foldl]. f_equal.
      rewrite N.mod_small by done. lia.
    + rewrite IH.
      * unfold valueOf, digit. cbn [foldl]. f_equal.
        pose proof (N.div_mod n 10 ltac:(done)) as Hdm.
        revert Hdm. generalize (n / 10)%N (n mod 10)%N. lia.
      * rewrite Nat2N.inj_succ, N.pow_succ_r' in Hn.
        apply N.Div0.div_lt_upper_bound. lia.
Qed.

Lemma digits_fuel_digits fuel : ∀ n acc,
  Forall (λ c, is_digit c = true) acc →
  Forall (λ c, is_digit c = true) (digits_fuel fuel n acc).
Proof.
  induction fuel as [|fuel IH]; intros n acc Hacc; [done|].
  cbn [digits_fuel].
  assert (Forall (λ c, is_digit c = true) (digit (n mod 10) :: acc)) as Hacc'.
  { constructor; [|done]. unfold is_digit, digit.
    pose proof (N.mod_upper_bound n 10 ltac:(done)) as Hm.
    revert Hm. generalize (n mod 10)%N. intros d Hd.
    apply andb_true_iff. split; apply N.leb_le; lia. }
  destruct (n <? 10)%N; [done|]. by apply IH.
Qed.

Lemma digits_fuel_nonempty fuel n acc : digits_fuel (S fuel) n acc ≠ [].
Proof.
  revert n acc. induction fuel as [|fuel IH]; intros n acc; cbn [digits_fuel].
  - by destruct (n <? 10)%N.
  - destruct (n <? 10)%N; [done|]. apply IH.
Qed.

Lemma digitsValue_digits l a :
  Forall (λ c, is_digit c = true) l →
  digitsValue l (Some a) = Some (valueOf l a).
Proof.
  revert a. induction l as [|c l IH]; intros a Hl; [done|].
  inversion Hl as [|? ? Hc Hl']; subst. cbn [digitsValue]. rewrite Hc.
  cbn [default]. by rewrite IH.
Qed.

Lemma digitsValue_N_toString n :
  digitsValue (N_toString n) None = Some n
  ∧ ∃ c s, N_toString n = c :: s ∧ is_digit c = true.
Proof.
  unfold N_toString.
  pose proof (digits_fuel_digits (S (N.to_nat (N.log2 n))) n [] ltac:(done)) as Hd.
  pose proof (digits_fuel_nonempty (N.to_nat (N.log2 n)) n []) as Hne.
  assert (n < 2 ^ N.of_nat (S (N.to_nat (N.log2 n))))%N as Hn.
  { rewrite Nat2N.inj_succ, N2Nat.id.
    destruct (N.eq_dec n 0%N) as [->|Hpos]; [done|].
    apply N.log2_spec. lia. }
  pose proof (digits_fuel_value _ _ [] Hn) as Hv.
  destruct (digits_fuel _ n []) as [|c s]; [done|].
  inversion Hd as [|? ? Hc Hs]; subst. split; [|by exists c, s].
  cbn [digitsValue]. rewrite Hc. cbn [default].
  rewrite digitsValue_digits by done.
  f_equal. exact Hv.
Qed.

Lemma digit_not_space c : is_digit c = true → is_space c = false.
Proof.
  unfold is_digit, is_space. intros [H1 H2]%andb_true_iff.
  apply N.leb_le in H1, H2.
  repeat (apply orb_false_iff; split);
    try apply andb_false_iff; try (apply N.eqb_neq; lia).
  - right. apply N.leb_gt. lia.
  - left. apply N.leb_gt. lia.
Qed.

(** [parseInt] reads back what [toString] prints for an integer. *)
Lemma parseInt_number_toString z : parseInt (number_toString (Num z)) = Num z.
Proof.
  unfold number_toString. destruct (Z.ltb_spec z 0) as [Hneg|Hpos].
  - destruct (digitsValue_N_toString (Z.to_N (- z))) as [Hv _].
    unfold parseInt. change (str "-" ++ ?s) with (45%N :: s).
    cbn [trimStart]. change (is_space 45) with false. cbv iota.
    rewrite N.eqb_refl, Hv. f_equal. lia.
  - destruct (digitsValue_N_toString (Z.to_N z)) as [Hv (c & s & Hs & Hc)].
    unfold parseInt. rewrite Hs in *. cbn [trimStart].
    rewrite (digit_not_space c Hc).
    assert ((c =? 45)%N = false ∧ (c =? 43)%N = false) as [-> ->].
    { unfold is_digit in Hc. apply andb_true_iff in Hc as [H1 _].
      apply N.leb_le in H1. split; apply N.eqb_neq; lia. }
    rewrite Hv. f_equal. lia.
Qed.

Lemma parseInt_nonNumeric s : startsNonNumeric s = true → parseInt s = NaN.
Proof.
  destruct s as [|c s]; [done|]. cbn [startsNonNumeric].
  intros Hc%negb_true_iff.
  repeat apply orb_false_iff in Hc as [Hc ?].
  unfold parseInt. cbn [trimStart]. rewrite H1, H0, H. cbn [digitsValue].
  by rewrite Hc.
Qed.

(** ** The performance ledger *)

Lemma statOf_correct c stats :
  statOf (statsOnCorrect c stats) c
  = {| correct := correct (statOf stats c) + 1;
       incorrect := incorrect (statOf stats c);
       consecutiveCorrect := consecutiveCorrect (statOf stats c) + 1 |}.
Proof. unfold statOf at 1, statsOnCorrect. by rewrite lookup_insert_eq. Qed.

Lemma statOf_incorrect c stats :
  statOf (statsOnIncorrect c stats) c
  = {| correct := correct (statOf stats c);
       incorrect := incorrect (statOf stats c) + 1;
       consecutiveCorrect := 0 |}.
Proof. unfold statOf at 1, statsOnIncorrect. by rewrite lookup_insert_eq. Qed.

Lemma recordAnswer_other stats a c :
  a.1 ≠ c → recordAnswer stats a !! c = stats !! c.
Proof.
  intros Hne. unfold recordAnswer, statsOnCorrect, statsOnIncorrect.
  destruct a.2; by rewrite lookup_insert_ne.
Qed.

Lemma statOf_other stats a c :
  a.1 ≠ c → statOf (recordAnswer stats a) c = statOf stats c.
Proof. intros Hne. unfold statOf. by rewrite recordAnswer_other. Qed.

(** A run of answers without a wrong answer for [c] adds its answers for
    [c] to the consecutive count. *)
Lemma consecutive_run c answers : ∀ stats,
  Forall (λ a, a.1 = c → a.2 = true) answers →
  consecutiveCorrect (statOf (recordAnswers stats answers) c)
  = (consecutiveCorrect (statOf stats c)
     + N.of_nat (length (answersFor c answers)))%N.
Proof.
  unfold recordAnswers, answersFor.
  induction answers as [|a answers IH]; intros stats Hall; cbn [foldl].
  - cbn. lia.
  - inversion Hall as [|? ? Ha Hall']; subst. rewrite IH by done.
    destruct (decide (a.1 = c)) as [Heq|Hne].
    + rewrite filter_cons_True by done. cbn [length].
      unfold recordAnswer. rewrite (Ha Heq), Heq, statOf_correct. cbn. lia.
    + rewrite filter_cons_False by done. by rewrite statOf_other.
Qed.

(** The last property of a name is the one a read finds. *)
Lemma getProp_snoc name v props :
  v ≠ VUndefined → getProp name (props ++ [(name, v)]) = v.
Proof.
  intros Hv. induction props as [|[k x] props IH].
  - cbn [app getProp]. rewrite decide_True by done. by destruct v.
  - cbn [app getProp]. rewrite IH. by destruct v.
Qed.

Lemma hasProp_snoc name v props : hasProp name (props ++ [(name, v)]) = true.
Proof.
  unfold hasProp. apply bool_decide_eq_true_2.
  rewrite fmap_app. apply elem_of_app. right. by left.
Qed.

(** C3, where the code departs from it. The ledger is read with
    [prev[char]]. For a character that is the name of a member of
    [Object.prototype] (a line [constructor: ...] of the content) and has no
    entry yet, the read gives that member, so the zero record is not used:
    the first correct answer leaves a record whose correct count is [NaN],
    with the consecutive count 1 and no incorrect count, and the first
    incorrect answer leaves the incorrect count [NaN]. A second correct
    answer leaves the correct count [NaN] again, where the claim has the
    counts 1 and 2, as they are for every other character. *)
Theorem inherited_name_breaks_counts (c : jstring)
    (prev : list (jstring * value)) :
  c ∈ inheritedNames → hasProp c prev = false →
  let once :=
    prev ++ [(c, VObj [(str "correct", VNum NaN);
                       (str "consecutiveCorrect", VNum (Num 1))])] in
  objectOnCorrect c prev = Some once
  ∧ objectOnIncorrect c prev
    = Some (prev ++ [(c, VObj [(str "incorrect", VNum NaN);
                               (str "consecutiveCorrect", VNum (Num 0))])])
  ∧ (∃ twice, objectOnCorrect c once = Some twice
       ∧ prop (readProperty twice c) "correct" = VNum NaN
       ∧ prop (readProperty twice c) "incorrect" = VUndefined
       ∧ prop (readProperty twice c) "consecutiveCorrect" = VNum (Num 2)).
Proof.
  intros Hin Hnew. cbn zeta.
  assert (readProperty prev c = VObj []) as Hread.
  { unfold readProperty. rewrite Hnew. by rewrite bool_decide_eq_true_2. }
  split_and!.
  - unfold objectOnCorrect. by rewrite Hread.
  - unfold objectOnIncorrect. by rewrite Hread.
  - assert (∀ props entry, entry ≠ VUndefined →
              readProperty (props ++ [(c, entry)]) c = entry) as Hown.
    { intros props entry Hentry. unfold readProperty.
      by rewrite hasProp_snoc, getProp_snoc. }
    eexists. split.
    + unfold objectOnCorrect. rewrite Hown by done. reflexivity.
    + rewrite Hown by done. vm_compute. split_and!; reflexivity.
Qed.

Lemma inherited_name_breaks_counts_witness :
  objectOnCorrect (str "constructor") []
  = Some [(str "constructor",
           VObj [(str "correct", VNum NaN);
                 (str "consecutiveCorrect", VNum (Num 1))])]
  ∧ jsonImage (VObj [(str "correct", VNum NaN);
                     (str "consecutiveCorrect", VNum (Num 1))])
    = VObj [(str "correct", VNull); (str "consecutiveCorrect", VNum (Num 1))].
Proof.
  split; [|reflexivity].
  apply (inherited_name_breaks_counts (str "constructor") []).
  - apply (bool_decide_unpack _). vm_compute. exact I.
  - reflexivity.
Defined.

(** ** Daily goal and streak *)

Lemma updateProgress_fields clock st :
  dailyGoal (updateProgress clock st) = dailyGoal st
  ∧ dailyProgress (updateProgress clock st) = nadd (dailyProgress st) (Num 1)
  ∧ goalMetToday (updateProgress clock st)
    = goalMetToday st
      || nge (nadd (dailyProgress st) (Num 1)) (dailyGoal st)
  ∧ streak (updateProgress clock st)
    = (if nge (nadd (dailyProgress st) (Num 1)) (dailyGoal st)
          && negb (goalMetToday st)
       then nadd (streak st) (Num 1) else streak st)
  ∧ showCelebration (updateProgress clock st)
    = (nge (nadd (dailyProgress st) (Num 1)) (dailyGoal st)
       && negb (goalMetToday st)
       || showCelebration st).
Proof.
  unfold updateProgress.
  destruct (nge _ _) eqn:Hge, (goalMetToday st) eqn:Hmet; cbn; by rewrite ?Hmet.
Qed.

Lemma advances_streak clocks : ∀ st p g s,
  dailyProgress st = Num p → dailyGoal st = Num g → streak st = Num s →
  dailyProgress (advances clocks st) = Num (p + Z.of_nat (length clocks))
  ∧ (goalMetToday st = true →
       streak (advances clocks st) = Num s
       ∧ goalMetToday (advances clocks st) = true)
  ∧ (streak (advances clocks st) = Num s
     ∨ streak (advances clocks st) = Num (s + 1)
       ∧ goalMetToday (advances clocks st) = true).
Proof.
  unfold advances.
  induction clocks as [|clock clocks IH]; intros st p g s Hp Hg Hs; cbn [foldl].
  - rewrite Hp. cbn [length]. split_and!; [f_equal; lia| |]; auto.
  - destruct (updateProgress_fields clock st) as (Hg' & Hp' & Hm' & Hs' & _).
    rewrite Hp, Hg in *. cbn [nadd nge] in *. rewrite Hs in Hs'. cbn [nadd] in Hs'.
    destruct (goalMetToday st) eqn:Hmet.
    + rewrite andb_false_r in Hs'. cbn [orb] in Hm'.
      destruct (IH _ _ _ _ Hp' Hg' Hs') as (IHp & IHm & IHs).
      split_and!; [rewrite IHp; f_equal; cbn [length]; lia|auto|auto].
    + rewrite andb_true_r in Hs'. cbn [orb] in Hm'.
      destruct (g <=? p + 1)%Z eqn:Hreach.
      * destruct (IH _ _ _ _ Hp' Hg' Hs') as (IHp & IHm & IHs).
        split_and!; [rewrite IHp; f_equal; cbn [length]; lia|done|].
        right. by apply IHm.
      * destruct (IH _ _ _ _ Hp' Hg' Hs') as (IHp & IHm & IHs).
        split_and!; [rewrite IHp; f_equal; cbn [length]; lia|done|done].
Qed.

(** C4. A call of [updateProgress] (one per correct answer) adds exactly 1
    to the daily progress. When the new progress reaches the goal and the
    goal was not met today, the streak grows by 1, the goal-met flag is set
    and the celebration is shown. When the goal was already met, the
    progress still grows and the streak stays. So over any number of calls
    on one day the streak grows at most once. *)
Theorem updateProgress_advance (clock : Clock) (st : App) (p g s : Z) :
  dailyProgress st = Num p → dailyGoal st = Num g → streak st = Num s →
  dailyProgress (updateProgress clock st) = Num (p + 1)
  ∧ ((g ≤ p + 1)%Z → goalMetToday st = false →
       streak (updateProgress clock st) = Num (s + 1)
       ∧ goalMetToday (updateProgress clock st) = true
       ∧ showCelebration (updateProgress clock st) = true)
  ∧ (goalMetToday st = true →
       streak (updateProgress clock st) = Num s
       ∧ goalMetToday (updateProgress clock st) = true
       ∧ showCelebration (updateProgress clock st) = showCelebration st)
  ∧ ((p + 1 < g)%Z →
       streak (updateProgress clock st) = Num s
       ∧ goalMetToday (updateProgress clock st) = goalMetToday st)
  ∧ (∀ clocks,
       dailyProgress (advances clocks st) = Num (p + Z.of_nat (length clocks))
       ∧ (streak (advances clocks st) = Num s
          ∨ streak (advances clocks st) = Num (s + 1))
       ∧ (goalMetToday st = true → streak (advances clocks st) = Num s)).
Proof.
  intros Hp Hg Hs.
  destruct (updateProgress_fields clock st) as (_ & Hp' & Hm' & Hs' & Hc').
  rewrite Hp, Hg in *. rewrite Hs in Hs'. cbn [nadd nge] in *.
  split_and!.
  - done.
  - intros Hreach Hmet. apply Z.leb_le in Hreach.
    rewrite Hs', Hm', Hc', Hreach, Hmet. done.
  - intros Hmet. rewrite Hs', Hm', Hc', Hmet.
    by rewrite andb_false_r.
  - intros Hlt. apply Z.leb_gt in Hlt. rewrite Hs', Hm', Hlt.
    by rewrite orb_false_r.
  - intros clocks.
    destruct (advances_streak clocks st p g s Hp Hg Hs) as (Ha & Hb & Hc).
    split_and!; [done| |by intros Hmet; apply Hb].
    destruct Hc as [Hc|[Hc _]]; auto.
Qed.

Lemma updateProgress_advance_witness :
  let st := setDailyProgress (Num 9) (sampleApp ∅) in
  dailyGoal st = Num 10 ∧ goalMetToday st = false
  ∧ dailyProgress (updateProgress mondayAtTen st) = Num 10
  ∧ streak (updateProgress mondayAtTen st) = Num 1
  ∧ goalMetToday (updateProgress mondayAtTen st) = true
  ∧ dailyProgress (advances [mondayAtTen; mondayAtTen] st) = Num 11
  ∧ streak (advances [mondayAtTen; mondayAtTen] st) = Num 1.
Proof.
  cbn zeta.
  destruct (updateProgress_advance mondayAtTen
              (setDailyProgress (Num 9) (sampleApp ∅)) 9 10 0
              eq_refl eq_refl eq_refl)
    as (Hprogress & Hreach & _ & _ & Hday).
  destruct (Hreach ltac:(lia) eq_refl) as (Hstreak & Hmet & _).
  destruct (Hday [mondayAtTen; mondayAtTen]) as (Hprogress2 & _ & _).
  split_and!; [reflexivity|reflexivity|exact Hprogress|exact Hstreak|exact Hmet|
               exact Hprogress2|].
  vm_compute. reflexivity.
Defined.

(** ** The outcome of an answer *)

(** X5. An answer given while a round is open, for a target whose character
    is not the name of an inherited member. A correct answer (the identifier
    of the selected option is the target's) marks the round correct, adds 1
    to the score and to the daily progress and records the answer in the
    ledger. Any other answer marks the round incorrect and records the
    error; score, progress and streak stay. An answer given when the round
    is already marked correct changes nothing. In no case is
    [handleMastery] scheduled, whatever the consecutive count has become:
    the handler tests [isMastered] before the updater that assigns it has
    run. *)
Theorem handleOptionClick_outcome `{JSON} (clock : Clock)
    (selected target : WordPair) (st : App) :
  targetWord st = Some target → isPlayingAudio st = false →
  ledgerName (char target) →
  let st' := (handleOptionClick clock selected st).1 in
  let scheduled := (handleOptionClick clock selected st).2 in
  scheduled = false
  ∧ (feedback st = FeedbackCorrect → st' = st)
  ∧ (feedback st ≠ FeedbackCorrect → id selected = id target →
       feedback st' = FeedbackCorrect
       ∧ score st' = nadd (score st) (Num 1)
       ∧ dailyProgress st' = nadd (dailyProgress st) (Num 1)
       ∧ wordStats st' = statsOnCorrect (char target) (wordStats st)
       ∧ consecutiveCorrect (statOf (wordStats st') (char target))
         = (consecutiveCorrect (statOf (wordStats st) (char target)) + 1)%N)
  ∧ (feedback st ≠ FeedbackCorrect → id selected ≠ id target →
       feedback st' = FeedbackIncorrect
       ∧ score st' = score st
       ∧ dailyProgress st' = dailyProgress st
       ∧ streak st' = streak st
       ∧ wordStats st' = statsOnIncorrect (char target) (wordStats st)).
Proof.
  intros Htarget Haudio _. cbn zeta. unfold handleOptionClick.
  rewrite Htarget, Haudio. cbn [orb]. split_and!.
  - destruct (bool_decide _); [done|]. by destruct (decide _).
  - intros Hf. by rewrite bool_decide_eq_true_2 by done.
  - intros Hf Hid. rewrite bool_decide_eq_false_2 by done.
    rewrite decide_True by done. cbn [fst snd].
    destruct (updateProgress_fields clock
                (setItem STORAGE_KEY_TOTAL_SCORE
                   (number_toString (nadd (score (setFeedback FeedbackCorrect st)) (Num 1)))
                   (setScore (nadd (score (setFeedback FeedbackCorrect st)) (Num 1))
                      (setFeedback FeedbackCorrect st))))
      as (_ & Hprogress & _).
    assert (wordStats
              (updateProgress clock
                 (setItem STORAGE_KEY_TOTAL_SCORE
                    (number_toString (nadd (score (setFeedback FeedbackCorrect st)) (Num 1)))
                    (setScore (nadd (score (setFeedback FeedbackCorrect st)) (Num 1))
                       (setFeedback FeedbackCorrect st))))
            = wordStats st) as Hstats
      by (unfold updateProgress; by destruct (_ && _)).
    split_and!.
    + unfold updateProgress. by destruct (_ && _).
    + unfold updateProgress. by destruct (_ && _).
    + cbn [dailyProgress setItem setWordStats setLocalStorage].
      rewrite Hprogress. done.
    + cbn [wordStats setItem setWordStats setLocalStorage]. by rewrite Hstats.
    + cbn [wordStats setItem setWordStats setLocalStorage].
      by rewrite Hstats, statOf_correct.
  - intros Hf Hid. rewrite bool_decide_eq_false_2 by done.
    by rewrite decide_False by done.
Qed.

Lemma handleOptionClick_outcome_witness :
  targetWord beforeMastery = Some itemA
  ∧ consecutiveCorrect
      (statOf (wordStats
                 (@handleOptionClick emptyLedgerJSON mondayAtTen itemA beforeMastery).1)
              (char itemA)) = 20%N
  ∧ (@handleOptionClick emptyLedgerJSON mondayAtTen itemA beforeMastery).2 = false
  ∧ dailyProgress
      (@handleOptionClick emptyLedgerJSON mondayAtTen itemA beforeMastery).1
    = Num 1.
Proof.
  assert (targetWord beforeMastery = Some itemA) as Htarget by reflexivity.
  assert (isPlayingAudio beforeMastery = false) as Haudio by reflexivity.
  assert (ledgerName (char itemA)) as Hname.
  { apply (bool_decide_unpack _). vm_compute. exact I. }
  destruct (@handleOptionClick_outcome emptyLedgerJSON mondayAtTen itemA itemA
              beforeMastery Htarget Haudio Hname) as (Hflag & _ & Hcorrect & _).
  destruct (Hcorrect ltac:(discriminate) eq_refl)
    as (_ & _ & Hprogress & _ & Hrun).
  split_and!; [exact Htarget| |exact Hflag|exact Hprogress].
  rewrite Hrun. vm_compute. reflexivity.
Defined.

(** ** Loading the counters *)

Lemma orElse_absent saved fallback :
  absentOrEmpty saved → orElse saved fallback = fallback.
Proof. by intros [-> | ->]. Qed.

Lemma orElse_present s fallback : s ≠ [] → orElse (Some s) fallback = s.
Proof. by destruct s. Qed.

Lemma number_toString_nonempty z : number_toString (Num z) ≠ [].
Proof.
  unfold number_toString. destruct (z <? 0)%Z; [done|].
  destruct (digitsValue_N_toString (Z.to_N z)) as [_ (c & s & -> & _)]. done.
Qed.

Lemma startsNonNumeric_nonempty s : startsNonNumeric s = true → s ≠ [].
Proof. by destruct s. Qed.

Lemma orElse_number saved z fallback :
  saved = Some (number_toString (Num z)) →
  parseInt (orElse saved fallback) = Num z.
Proof.
  intros ->. rewrite orElse_present by apply number_toString_nonempty.
  apply parseInt_number_toString.
Qed.

(** What [parseInt(saved || fallback, 10)] gives. *)
Lemma read_counter saved :
  (absentOrEmpty saved → parseInt (orElse saved (str "0")) = Num 0)
  ∧ (∀ z, saved = Some (number_toString (Num z)) →
       parseInt (orElse saved (str "0")) = Num z)
  ∧ (∀ s, saved = Some s → startsNonNumeric s = true →
       parseInt (orElse saved (str "0")) = NaN).
Proof.
  split_and!.
  - intros Habs. by rewrite orElse_absent.
  - intros z ->. rewrite orElse_present by apply number_toString_nonempty.
    apply parseInt_number_toString.
  - intros s -> Hs. rewrite orElse_present by by apply startsNonNumeric_nonempty.
    by apply parseInt_nonNumeric.
Qed.

Lemma loadProgress_score clock st :
  score (loadProgress clock st)
  = parseInt (orElse (localStorage st !! STORAGE_KEY_TOTAL_SCORE) (str "0")).
Proof.
  unfold loadProgress.
  destruct (localStorage st !! STORAGE_KEY_GOAL) as [[|c s]|];
    (destruct (decide _); [done|]);
    cbn -[parseInt orElse];
    (destruct (localStorage st !! STORAGE_KEY_LAST_DATE) as [[|c' s']|]; [done| |done]);
    by destruct (_ && _).
Qed.

Lemma loadProgress_goal clock st :
  dailyGoal (loadProgress clock st)
  = match localStorage st !! STORAGE_KEY_GOAL with
    | Some (c :: s) => parseInt (c :: s)
    | _ => dailyGoal st
    end.
Proof.
  unfold loadProgress.
  destruct (localStorage st !! STORAGE_KEY_GOAL) as [[|c s]|];
    (destruct (decide _); [done|]);
    cbn -[parseInt orElse];
    (destruct (localStorage st !! STORAGE_KEY_LAST_DATE) as [[|c' s']|]; [done| |done]);
    by destruct (_ && _).
Qed.

Lemma loadProgress_same_day clock st :
  localStorage st !! STORAGE_KEY_LAST_DATE = Some (toDateString clock) →
  streak (loadProgress clock st)
    = parseInt (orElse (localStorage st !! STORAGE_KEY_STREAK) (str "0"))
  ∧ dailyProgress (loadProgress clock st)
    = parseInt (orElse (localStorage st !! STORAGE_KEY_PROGRESS) (str "0"))
  ∧ goalMetToday (loadProgress clock st)
    = bool_decide (localStorage st !! STORAGE_KEY_GOAL_MET = Some (str "true"))
  ∧ localStorage (loadProgress clock st) = localStorage st.
Proof.
  intros Hday. unfold loadProgress.
  rewrite decide_True by done.
  by destruct (localStorage st !! STORAGE_KEY_GOAL) as [[|c s]|].
Qed.

Lemma loadProgress_other_day clock st :
  localStorage st !! STORAGE_KEY_LAST_DATE ≠ Some (toDateString clock) →
  dailyProgress (loadProgress clock st) = Num 0
  ∧ (streak (loadProgress clock st) = Num 0
     ∨ streak (loadProgress clock st)
       = parseInt (orElse (localStorage st !! STORAGE_KEY_STREAK) (str "0"))).
Proof.
  intros Hday. unfold loadProgress. rewrite decide_False by done.
  destruct (localStorage st !! STORAGE_KEY_GOAL) as [[|c s]|];
    (destruct (localStorage st !! STORAGE_KEY_LAST_DATE) as [[|c' s']|];
     [ |destruct (ngt _ _ && negb _)| ]);
    cbn -[parseInt orElse]; auto.
Qed.

Lemma read_counter_exact saved : readsCounter saved (parseInt (orElse saved (str "0"))).
Proof.
  destruct (read_counter saved) as (Habsent & Hnumber & Hother).
  split_and!; [done| |done]. intros z _. apply Hnumber.
Qed.

(** C7, as the code has it. Loading is a total function of the store. For
    each persisted counter, an absent or empty stored text gives the
    default (0 for the score, the streak and the daily progress; for the
    daily goal the value in memory is kept, 10 at the start), the decimal
    text of an integer of at most 2^53 in magnitude gives that integer, and
    a stored text that starts with neither a digit, a sign nor a space gives
    [NaN] in memory. The score and the goal are read so on every load, the
    streak and the progress on a load on the day of the last activity; on
    any other day the progress is 0 and the streak is 0 or is read so. *)
Theorem loadProgress_counters (clock : Clock) (st : App) :
  let ls := localStorage st in
  let st' := loadProgress clock st in
  readsCounter (ls !! STORAGE_KEY_TOTAL_SCORE) (score st')
  ∧ ((absentOrEmpty (ls !! STORAGE_KEY_GOAL) → dailyGoal st' = dailyGoal st)
     ∧ (∀ z, (Z.abs z ≤ 2 ^ 53)%Z →
          ls !! STORAGE_KEY_GOAL = Some (number_toString (Num z)) →
          dailyGoal st' = Num z)
     ∧ (∀ s, ls !! STORAGE_KEY_GOAL = Some s →
          startsNonNumeric s = true → dailyGoal st' = NaN))
  ∧ (ls !! STORAGE_KEY_LAST_DATE = Some (toDateString clock) →
       readsCounter (ls !! STORAGE_KEY_STREAK) (streak st')
       ∧ readsCounter (ls !! STORAGE_KEY_PROGRESS) (dailyProgress st'))
  ∧ (ls !! STORAGE_KEY_LAST_DATE ≠ Some (toDateString clock) →
       dailyProgress st' = Num 0
       ∧ (streak st' = Num 0
          ∨ readsCounter (ls !! STORAGE_KEY_STREAK) (streak st'))).
Proof.
  cbn zeta. split_and!.
  - rewrite loadProgress_score. apply read_counter_exact.
  - rewrite loadProgress_goal. by intros [-> | ->].
  - rewrite loadProgress_goal. intros z _ Hz. rewrite Hz.
    pose proof (number_toString_nonempty z) as Hne.
    pose proof (parseInt_number_toString z) as Hp.
    by destruct (number_toString (Num z)).
  - rewrite loadProgress_goal. intros s -> Hs.
    pose proof (parseInt_nonNumeric s Hs). by destruct s.
  - intros Hday. destruct (loadProgress_same_day clock st Hday) as (-> & -> & _).
    split; apply read_counter_exact.
  - intros Hday. destruct (loadProgress_other_day clock st Hday) as [Hp Hs].
    split; [done|]. destruct Hs as [Hs|Hs]; [by left|right].
    rewrite Hs. apply read_counter_exact.
Qed.

(** C7 fails on a stored score that is not a number: the score in memory
    is [NaN], not the default 0. *)
Lemma loadProgress_nonNumeric_score :
  let st := sampleApp {[ STORAGE_KEY_TOTAL_SCORE := str "abc" ]} in
  score (loadProgress mondayAtTen st) = NaN
  ∧ score (loadProgress mondayAtTen st) ≠ Num 0.
Proof. cbn zeta. rewrite loadProgress_score. by vm_compute. Qed.

(** ** Rollover *)

Lemma diffDays_gt_1 d :
  (0 ≤ d)%Z → ngt (nceildiv (Num d) MS_PER_DAY) (Num 1) = bool_decide (MS_PER_DAY < d)%Z.
Proof.
  intros Hd. cbn [nceildiv ngt]. unfold MS_PER_DAY.
  change (1000 * 60 * 60 * 24)%Z with 86400000%Z.
  pose proof (Z.div_mod (- d) 86400000 ltac:(done)) as Hdm.
  pose proof (Z.mod_pos_bound (- d) 86400000 ltac:(done)) as Hm.
  revert Hdm Hm. generalize ((- d) `div` 86400000)%Z ((- d) `mod` 86400000)%Z.
  intros q r Hdm Hm.
  case_bool_decide; [apply Z.ltb_lt|apply Z.ltb_ge]; lia.
Qed.

Lemma loadProgress_rollover clock st last :
  localStorage st !! STORAGE_KEY_LAST_DATE = Some last →
  last ≠ [] → last ≠ toDateString clock →
  let savedGoalMet :=
    bool_decide (localStorage st !! STORAGE_KEY_GOAL_MET = Some (str "true")) in
  let diffDays :=
    nceildiv (nabs (nsub (Num (getTime clock)) (dateTime clock last))) MS_PER_DAY in
  dailyProgress (loadProgress clock st) = Num 0
  ∧ goalMetToday (loadProgress clock st) = false
  ∧ localStorage (loadProgress clock st) !! STORAGE_KEY_LAST_DATE
    = Some (toDateString clock)
  ∧ streak (loadProgress clock st)
    = (if ngt diffDays (Num 1) && negb savedGoalMet then Num 0
       else parseInt (orElse (localStorage st !! STORAGE_KEY_STREAK) (str "0"))).
Proof.
  intros Hlast Hne Hday. cbn zeta. unfold loadProgress. rewrite Hlast.
  rewrite decide_False by congruence.
  destruct last as [|c s]; [done|].
  destruct (ngt _ _ && negb _) eqn:Hreset;
    destruct (localStorage st !! STORAGE_KEY_GOAL) as [[|c' s']|];
    cbn -[parseInt orElse]; rewrite ?Hreset;
    (split_and!; [done..| |done]);
    repeat (rewrite lookup_insert_ne by done); by rewrite lookup_insert_eq.
Qed.

(** C5, where the code departs from it. The last activity was on the day
    before the clock's day, the clock is past midnight, and the goal of the
    last active day was not met: the gap is exactly one calendar day, and
    [loadProgress] still resets the streak, because [Math.ceil] of the time
    elapsed since the midnight that began the last active day is 2. *)
Theorem rollover_one_day_gap_resets_streak (clock : Clock) (st : App)
    (last : jstring) (lastMidnight sinceMidnight : Z) :
  localStorage st !! STORAGE_KEY_LAST_DATE = Some last →
  last ≠ [] → last ≠ toDateString clock →
  dateTime clock last = Num lastMidnight →
  getTime clock = (lastMidnight + MS_PER_DAY + sinceMidnight)%Z →
  (0 < sinceMidnight < MS_PER_DAY)%Z →
  localStorage st !! STORAGE_KEY_GOAL_MET ≠ Some (str "true") →
  streak (loadProgress clock st) = Num 0
  ∧ dailyProgress (loadProgress clock st) = Num 0
  ∧ goalMetToday (loadProgress clock st) = false
  ∧ localStorage (loadProgress clock st) !! STORAGE_KEY_LAST_DATE
    = Some (toDateString clock).
Proof.
  intros Hlast Hne Hday Hparse Hnow Hsince Hgoal.
  destruct (loadProgress_rollover clock st last Hlast Hne Hday) as (Hp & Hm & Hd & Hs).
  split_and!; [|done..].
  rewrite Hs, Hparse, Hnow. cbn [nsub nabs].
  rewrite diffDays_gt_1 by lia.
  rewrite bool_decide_eq_true_2 by (unfold MS_PER_DAY in *; lia).
  by rewrite (bool_decide_eq_false_2 _ Hgoal).
Qed.

Lemma rollover_one_day_gap_witness :
  let st := sampleApp {[ STORAGE_KEY_LAST_DATE := str "Sun Nov 01 2026";
                         STORAGE_KEY_STREAK := str "5";
                         STORAGE_KEY_GOAL_MET := str "false" ]} in
  parseInt (orElse (localStorage st !! STORAGE_KEY_STREAK) (str "0")) = Num 5
  ∧ streak (loadProgress mondayAtTen st) = Num 0.
Proof.
  cbn zeta. split; [by vm_compute|].
  apply (rollover_one_day_gap_resets_streak mondayAtTen _
           (str "Sun Nov 01 2026") 1793491200000 36000000);
    by vm_compute.
Defined.

(** X3. On a load on another day than the last active one: the progress
    restarts at 0, the goal-met flag is cleared and today is stored as the
    last active date. The streak is reset to 0 when more than 24 hours have
    passed since the midnight that began the last active day and the stored
    flag is not ["true"]; otherwise it is the stored streak. In particular a
    goal met on the last active day keeps the streak whatever the gap. *)
Theorem rollover_streak_rule (clock : Clock) (st : App) (last : jstring)
    (lastTime : Z) :
  localStorage st !! STORAGE_KEY_LAST_DATE = Some last →
  last ≠ [] → last ≠ toDateString clock →
  dateTime clock last = Num lastTime →
  let goalMet :=
    bool_decide (localStorage st !! STORAGE_KEY_GOAL_MET = Some (str "true")) in
  let savedStreak :=
    parseInt (orElse (localStorage st !! STORAGE_KEY_STREAK) (str "0")) in
  dailyProgress (loadProgress clock st) = Num 0
  ∧ goalMetToday (loadProgress clock st) = false
  ∧ localStorage (loadProgress clock st) !! STORAGE_KEY_LAST_DATE
    = Some (toDateString clock)
  ∧ streak (loadProgress clock st)
    = (if bool_decide (MS_PER_DAY < Z.abs (getTime clock - lastTime))%Z
          && negb goalMet
       then Num 0 else savedStreak)
  ∧ (goalMet = true → streak (loadProgress clock st) = savedStreak).
Proof.
  intros Hlast Hne Hday Hparse. cbn zeta.
  destruct (loadProgress_rollover clock st last Hlast Hne Hday)
    as (Hp & Hm & Hd & Hs).
  rewrite Hparse in Hs. cbn [nsub nabs] in Hs.
  rewrite diffDays_gt_1 in Hs by lia.
  split_and!; [done..|].
  intros Hmet. rewrite Hs, Hmet. by rewrite andb_false_r.
Qed.

Lemma rollover_streak_rule_witness :
  let st := sampleApp {[ STORAGE_KEY_LAST_DATE := str "Sun Nov 01 2026";
                         STORAGE_KEY_STREAK := str "5";
                         STORAGE_KEY_GOAL_MET := str "true" ]} in
  streak (loadProgress mondayAtTen st) = Num 5
  ∧ dailyProgress (loadProgress mondayAtTen st) = Num 0.
Proof.
  cbn zeta.
  set (st := sampleApp {[ STORAGE_KEY_LAST_DATE := str "Sun Nov 01 2026";
                          STORAGE_KEY_STREAK := str "5";
                          STORAGE_KEY_GOAL_MET := str "true" ]}).
  assert (localStorage st !! STORAGE_KEY_LAST_DATE = Some (str "Sun Nov 01 2026"))
    as Hlast by (vm_compute; reflexivity).
  assert (str "Sun Nov 01 2026" ≠ []) as Hne by (vm_compute; discriminate).
  assert (str "Sun Nov 01 2026" ≠ toDateString mondayAtTen) as Hday
    by (vm_compute; discriminate).
  assert (dateTime mondayAtTen (str "Sun Nov 01 2026") = Num 1793491200000)
    as Hparse by (vm_compute; reflexivity).
  destruct (rollover_streak_rule mondayAtTen st _ _ Hlast Hne Hday Hparse)
    as (Hprogress & _ & _ & _ & Hkept).
  split; [|exact Hprogress].
  rewrite Hkept; vm_compute; reflexivity.
Defined.

(** ** Target selection *)

Section Roulette.
Context {R : Type} `{Arith R}.

Lemma totalWeight_weights stats currentList :
  totalWeight (itemsWithWeights stats currentList)
  = foldl radd (ofN 0) (weightsOf stats currentList).
Proof.
  unfold totalWeight, itemsWithWeights, weightsOf.
  generalize (ofN 0). induction currentList as [|item l IH]; intros r; [done|].
  cbn. apply IH.
Qed.

Lemma weights_entries stats currentList :
  (itemsWithWeights stats currentList).*2 = weightsOf stats currentList.
Proof.
  unfold itemsWithWeights, weightsOf.
  induction currentList as [|item l IH]; [done|]. cbn. by rewrite <- IH.
Qed.

Lemma walk_first_reached (entries : list (WordPair * R)) : ∀ randomVal target,
  (∃ k e, entries !! k = Some e
     ∧ walk randomVal entries target = Some e.1
     ∧ reached randomVal entries.*2 k = true
     ∧ ∀ j, j < k → reached randomVal entries.*2 j = false)
  ∨ (walk randomVal entries target = target
     ∧ ∀ j, j < length entries → reached randomVal entries.*2 j = false).
Proof.
  induction entries as [|[item w] entries IH]; intros randomVal target.
  - right. split; [done|]. cbn. lia.
  - cbn [walk fst snd]. destruct (rle0 (rsub randomVal w)) eqn:Hle.
    + left. exists 0, (item, w). split_and!; [done..|lia].
    + destruct (IH (rsub randomVal w) target)
        as [(k & e & Hk & Hwalk & Hreach & Hfirst) | [Hwalk Hnone]].
      * left. exists (S k), e. split_and!; [done..|].
        intros [|j] Hj; [exact Hle|]. apply Hfirst. lia.
      * right. split; [done|].
        intros [|j] Hj; [exact Hle|]. apply Hnone. cbn in Hj. lia.
Qed.

(** The walk over the weighted items of a pool: it ends at the first item
    that brings the remainder to zero or below, or it leaves the target as
    it was. *)
Lemma walk_items stats (currentList : list WordPair) randomVal target :
  (∃ k item, currentList !! k = Some item
     ∧ walk randomVal (itemsWithWeights stats currentList) target = Some item
     ∧ reached randomVal (weightsOf stats currentList) k = true
     ∧ ∀ j, j < k → reached randomVal (weightsOf stats currentList) j = false)
  ∨ (walk randomVal (itemsWithWeights stats currentList) target = target
     ∧ ∀ j, j < length currentList →
         reached randomVal (weightsOf stats currentList) j = false).
Proof.
  destruct (walk_first_reached (itemsWithWeights stats currentList)
              randomVal target)
    as [(k & e & Hk & Hwalk & Hreach & Hfirst) | [Hwalk Hnone]];
    rewrite weights_entries in *.
  - left. unfold itemsWithWeights in Hk. rewrite list_lookup_fmap in Hk.
    destruct (currentList !! k) as [item|] eqn:Hitem; [|done].
    injection Hk as <-. by exists k, item.
  - right. split; [done|]. intros j Hj. apply Hnone.
    unfold itemsWithWeights. by rewrite length_map.
Qed.

(** The target of a non-empty pool is set, and it is an item of the pool. *)
Lemma selectTarget_in_pool (rnd : Random R) (stats : gmap jstring WordStat)
    (currentList : list WordPair) :
  currentList ≠ [] →
  ∃ target, selectTarget rnd stats currentList = Some target
    ∧ target ∈ currentList.
Proof.
  intros Hne. unfold selectTarget.
  destruct (walk_items stats currentList
              (rmul (targetDraw rnd)
                 (totalWeight (itemsWithWeights stats currentList)))
              (head currentList))
    as [(k & item & Hk & -> & _) | [-> _]].
  - exists item. split; [done|]. by eapply list_elem_of_lookup_2.
  - destruct currentList as [|first rest]; [done|].
    exists first. split; [done|by left].
Qed.

(** The target of a round is the one selected with the ledger the
    [setupRound] holds. *)
Lemma setupRoundWith_target (rnd : Random R) stats (st st' : App) :
  wordList st ≠ [] → setupRoundWith rnd stats st = Done st' →
  targetWord st' = selectTarget rnd stats (wordList st).
Proof.
  intros Hpool. unfold setupRoundWith.
  destruct (wordList st) as [|first rest]; [done|].
  destruct (selectTarget rnd stats (first :: rest)) as [target|]; [|done].
  destruct (pickDistractors _ _ _) as [sel used].
  destruct (fillDistractors _ _ _ _ _) as [sel'| |]; [|done..].
  by intros [= <-].
Qed.

(** C1, as the code has it. For a non-empty pool whose characters are not
    names of inherited members, the target is selected by a roulette wheel:
    each item weighs [10 * (1 + incorrect * 3) / (1 + correct * 0.5)] by
    its record in the ledger the [setupRound] holds, a draw is scaled by the
    total weight, the weights are subtracted from it in pool order, and the
    first item at which the remainder is zero or below is the target. When
    the walk never reaches the draw the target is the first item of the
    pool, the value it was given before the walk; the random fallback runs
    only for a target that is unset, which does not happen, so the target
    does not depend on the fallback draw. In all cases the target is set,
    and it is an item of the pool. The ledger is the current one for a
    round the component sets up by itself; for the round that follows a
    correct answer it is the ledger of the render in which the answer was
    given. *)
Theorem selectTarget_roulette (rnd : Random R)
    (stats : gmap jstring WordStat) (currentList : list WordPair) :
  currentList ≠ [] →
  Forall (λ item, ledgerName (char item)) currentList →
  let weights := weightsOf stats currentList in
  let randomVal := rmul (targetDraw rnd) (foldl radd (ofN 0) weights) in
  (∃ target,
     selectTarget rnd stats currentList = Some target
     ∧ target ∈ currentList
     ∧ ((∃ k, currentList !! k = Some target
           ∧ reached randomVal weights k = true
           ∧ ∀ j, j < k → reached randomVal weights j = false)
        ∨ ((∀ j, j < length currentList → reached randomVal weights j = false)
           ∧ head currentList = Some target)))
  ∧ (∀ rnd', targetDraw rnd' = targetDraw rnd →
       selectTarget rnd' stats currentList = selectTarget rnd stats currentList)
  ∧ (∀ st st', wordList st = currentList → wordStats st = stats →
       setupRound rnd st = Done st' →
       targetWord st' = selectTarget rnd stats currentList)
  ∧ (∀ clicked st st', wordList st = currentList → wordStats clicked = stats →
       afterCorrect rnd clicked st = Done st' →
       targetWord st' = selectTarget rnd stats currentList).
Proof.
  intros Hne _. cbn zeta. split_and!.
  - unfold selectTarget. rewrite totalWeight_weights.
    destruct (walk_items stats currentList
                (rmul (targetDraw rnd)
                   (foldl radd (ofN 0) (weightsOf stats currentList)))
                (head currentList))
      as [(k & item & Hk & Hwalk & Hreach & Hfirst) | [Hwalk Hnone]];
      rewrite Hwalk.
    + exists item. split_and!; [done| |].
      * by eapply list_elem_of_lookup_2.
      * left. by exists k.
    + destruct currentList as [|first rest]; [done|].
      exists first. split_and!; [done|by left|]. by right.
  - intros rnd' Hdraw. unfold selectTarget. rewrite Hdraw.
    destruct (walk_items stats currentList
                (rmul (targetDraw rnd)
                   (totalWeight (itemsWithWeights stats currentList)))
                (head currentList))
      as [(k & item & _ & -> & _) | [-> _]]; [done|].
    by destruct currentList.
  - intros st st' <- <- Hround. by apply setupRoundWith_target.
  - intros clicked st st' <- <- Hround. by apply setupRoundWith_target.
Qed.
End Roulette.

Lemma selectTarget_roulette_witness :
  let pool := parseInputData (text ["a:x"; "b:y"; "c:z"]) in
  let rnd : Random Q :=
    {| targetDraw := (1 # 2)%Q; fallbackDraw := 0%Q;
       distractorOrder := λ l, l; fillDraws := []; optionOrder := λ l, l |} in
  pool ≠ [] ∧ Forall (λ item, ledgerName (char item)) pool
  ∧ char <$> selectTarget rnd ∅ pool = Some (str "b").
Proof.
  cbn zeta.
  assert (Forall (λ item, ledgerName (char item))
            (parseInputData (text ["a:x"; "b:y"; "c:z"]))) as Hnames.
  { apply (bool_decide_unpack _). vm_compute. exact I. }
  split_and!; [vm_compute; discriminate|exact Hnames|].
  destruct (selectTarget_roulette
              {| targetDraw := (1 # 2)%Q; fallbackDraw := 0%Q;
                 distractorOrder := λ l, l; fillDraws := [];
                 optionOrder := λ l, l |}
              ∅ (parseInputData (text ["a:x"; "b:y"; "c:z"]))
              ltac:(vm_compute; discriminate) Hnames)
    as ((target & Hsel & _) & _).
  rewrite Hsel. vm_compute in Hsel. by injection Hsel as <-.
Defined.

(** C1 fails in its fallback. With binary64 weights 10/3, 10/3, 10 and
    10/1.5 and the draw 1 - 2^-52, the walk ends above zero for every item;
    the target is then the first item, whatever the fallback draw is, and
    not the item the fallback draw points at. *)
Lemma float_walk_misses_draw :
  let pool := parseInputData (text ["a:x"; "b:y"; "c:z"; "d:w"]) in
  let stats : gmap jstring WordStat :=
    {[ str "a" := {| correct := 4; incorrect := 0; consecutiveCorrect := 4 |};
       str "b" := {| correct := 4; incorrect := 0; consecutiveCorrect := 4 |};
       str "d" := {| correct := 1; incorrect := 0; consecutiveCorrect := 1 |} ]} in
  let rnd : Random float :=
    {| targetDraw := 0x1.ffffffffffffep-1%float; fallbackDraw := 0.5%float;
       distractorOrder := λ l, l; fillDraws := []; optionOrder := λ l, l |} in
  let randomVal :=
    rmul (targetDraw rnd) (foldl radd (ofN 0) (weightsOf stats pool)) in
  (∀ j, j < length pool → reached randomVal (weightsOf stats pool) j = false)
  ∧ char <$> randomItem (fallbackDraw rnd) pool = Some (str "c")
  ∧ char <$> selectTarget rnd stats pool = Some (str "a")
  ∧ selectTarget rnd stats pool ≠ randomItem (fallbackDraw rnd) pool.
Proof.
  cbn zeta. split_and!.
  - intros j Hj. change (length _) with 4 in Hj.
    destruct j as [|[|[|[|j]]]]; [by vm_compute..|lia].
  - by vm_compute.
  - by vm_compute.
  - by vm_compute.
Qed.

(** ** The roulette wheel in exact arithmetic *)

Lemma foldl_radd_sumQ (l : list Q) : ∀ a, (foldl radd a l == a + sumQ l)%Q.
Proof.
  induction l as [|w l IH]; intros a; cbn [foldl sumQ foldr].
  - ring.
  - rewrite IH. fold (sumQ l). cbn [radd Q_Arith]. ring.
Qed.

Lemma foldl_rsub_sumQ (l : list Q) : ∀ a, (foldl rsub a l == a - sumQ l)%Q.
Proof.
  induction l as [|w l IH]; intros a; cbn [foldl sumQ foldr].
  - ring.
  - rewrite IH. fold (sumQ l). cbn [rsub Q_Arith]. ring.
Qed.

Lemma reached_cumulative (randomVal : Q) weights k :
  reached randomVal weights k = true ↔ (randomVal <= cumulative weights k)%Q.
Proof.
  unfold reached, remaining, cumulative. cbn [rle0 Q_Arith].
  rewrite Qle_bool_iff, foldl_rsub_sumQ. split; intros Hle; lra.
Qed.

Lemma weight_positive (s : WordStat) : (0 < weight (R := Q) s)%Q.
Proof.
  unfold weight. cbn [ofN half radd rmul rdiv Q_Arith].
  assert (0 <= inject_Z (Z.of_N (incorrect s)))%Q as Hi.
  { change 0%Q with (inject_Z 0). rewrite <- Zle_Qle. lia. }
  assert (0 <= inject_Z (Z.of_N (correct s)))%Q as Hc.
  { change 0%Q with (inject_Z 0). rewrite <- Zle_Qle. lia. }
  apply Qlt_shift_div_l.
  - change (inject_Z (Z.of_N 1)) with 1%Q. lra.
  - change (inject_Z (Z.of_N 1)) with 1%Q.
    change (inject_Z (Z.of_N 10)) with 10%Q.
    change (inject_Z (Z.of_N 3)) with 3%Q. lra.
Qed.

Lemma sumQ_weights_nonneg stats (l : list WordPair) :
  (0 <= sumQ (weightsOf (R := Q) stats l))%Q.
Proof.
  induction l as [|x l IH].
  - unfold weightsOf, sumQ. cbn [fmap list_fmap foldr]. lra.
  - change (sumQ (weightsOf (R := Q) stats (x :: l)))
      with (weight (R := Q) (statOf stats (char x))
            + sumQ (weightsOf (R := Q) stats l))%Q.
    pose proof (weight_positive (statOf stats (char x))). lra.
Qed.

Lemma sumQ_weights_positive stats (l : list WordPair) :
  l ≠ [] → (0 < sumQ (weightsOf (R := Q) stats l))%Q.
Proof.
  destruct l as [|x l]; [done|]. intros _.
  change (sumQ (weightsOf (R := Q) stats (x :: l)))
    with (weight (R := Q) (statOf stats (char x))
          + sumQ (weightsOf (R := Q) stats l))%Q.
  pose proof (weight_positive (statOf stats (char x))).
  pose proof (sumQ_weights_nonneg stats l). lra.
Qed.

Lemma cumulative_last (weights : list Q) :
  cumulative weights (pred (length weights)) = sumQ weights.
Proof.
  unfold cumulative. destruct weights as [|w ws]; [done|].
  by rewrite take_ge by (cbn [length pred]; lia).
Qed.

Lemma randomVal_range stats (rnd : Random Q) (currentList : list WordPair) :
  currentList ≠ [] → (0 <= targetDraw rnd < 1)%Q →
  let weights := weightsOf stats currentList in
  let randomVal := rmul (targetDraw rnd) (foldl radd (ofN 0) weights) in
  (randomVal == targetDraw rnd * sumQ weights)%Q
  ∧ (0 <= randomVal < sumQ weights)%Q.
Proof.
  intros Hne [Hlo Hhi]. cbn zeta.
  pose proof (sumQ_weights_positive stats currentList Hne) as Hpos.
  assert (rmul (targetDraw rnd) (foldl radd (ofN 0) (weightsOf stats currentList))
          == targetDraw rnd * sumQ (weightsOf stats currentList))%Q as Heq.
  { cbn [rmul Q_Arith]. rewrite foldl_radd_sumQ. cbn [ofN Q_Arith].
    change (inject_Z (Z.of_N 0)) with 0%Q. ring. }
  split; [exact Heq|]. rewrite Heq. split; nra.
Qed.

(** X1. In exact arithmetic, with a draw in [0, 1) and a pool whose
    characters are not names of inherited members: every weight is
    positive, the scaled draw lies in [0, totalWeight), the walk always
    reaches it, and the target is the first item of the pool whose
    accumulated weight is at least the scaled draw. *)
Theorem roulette_exact (rnd : Random Q) (stats : gmap jstring WordStat)
    (currentList : list WordPair) :
  currentList ≠ [] → (0 <= targetDraw rnd < 1)%Q →
  Forall (λ item, ledgerName (char item)) currentList →
  let weights := weightsOf stats currentList in
  let randomVal := (targetDraw rnd * sumQ weights)%Q in
  Forall (λ w, (0 < w)%Q) weights
  ∧ (0 <= randomVal < sumQ weights)%Q
  ∧ ∃ k target,
      selectTarget rnd stats currentList = Some target
      ∧ currentList !! k = Some target
      ∧ (randomVal <= cumulative weights k)%Q
      ∧ ∀ j, j < k → (cumulative weights j < randomVal)%Q.
Proof.
  intros Hne Hdraw _. cbn zeta.
  destruct (randomVal_range stats rnd currentList Hne Hdraw) as [Heq Hrange].
  cbn zeta in Heq, Hrange. rewrite Heq in Hrange.
  split_and!.
  - unfold weightsOf. apply Forall_fmap, Forall_forall. intros item _.
    apply weight_positive.
  - apply Hrange.
  - apply Hrange.
  - unfold selectTarget. rewrite totalWeight_weights.
    destruct (walk_items stats currentList
                (rmul (targetDraw rnd)
                   (foldl radd (ofN 0) (weightsOf stats currentList)))
                (head currentList))
      as [(k & item & Hk & -> & Hreach & Hfirst) | [_ Hnone]].
    + exists k, item. split_and!; [done..| |].
      * apply reached_cumulative in Hreach. by rewrite <- Heq.
      * intros j Hj. specialize (Hfirst j Hj).
        apply Qnot_le_lt. intros Hle. rewrite <- Heq in Hle.
        apply reached_cumulative in Hle. congruence.
    + exfalso. specialize (Hnone (pred (length currentList))).
      assert (reached
                (rmul (targetDraw rnd)
                   (foldl radd (ofN 0) (weightsOf stats currentList)))
                (weightsOf stats currentList) (pred (length currentList)) = true)
        as Hlast.
      { apply reached_cumulative. rewrite Heq.
        replace (length currentList)
          with (length (weightsOf (R := Q) stats currentList))
          by (unfold weightsOf; apply length_fmap).
        rewrite cumulative_last. lra. }
      rewrite Hnone in Hlast; [done|].
      destruct currentList; [done|cbn; lia].
Qed.

Lemma roulette_exact_witness :
  let pool := parseInputData (text ["a:x"; "b:y"; "c:z"]) in
  let rnd : Random Q :=
    {| targetDraw := (1 # 2)%Q; fallbackDraw := 0%Q;
       distractorOrder := λ l, l; fillDraws := []; optionOrder := λ l, l |} in
  ∃ k target,
    selectTarget rnd ∅ pool = Some target
    ∧ pool !! k = Some target
    ∧ (targetDraw rnd * sumQ (weightsOf ∅ pool)
       <= cumulative (weightsOf ∅ pool) k)%Q.
Proof.
  cbn zeta.
  assert (parseInputData (text ["a:x"; "b:y"; "c:z"]) ≠ []) as Hne
    by (vm_compute; discriminate).
  assert (0 <= 1 # 2 < 1)%Q as Hdraw by (split; vm_compute; congruence).
  assert (Forall (λ item, ledgerName (char item))
            (parseInputData (text ["a:x"; "b:y"; "c:z"]))) as Hnames.
  { apply (bool_decide_unpack _). vm_compute. exact I. }
  destruct (roulette_exact
              {| targetDraw := (1 # 2)%Q; fallbackDraw := 0%Q;
                 distractorOrder := λ l, l; fillDraws := [];
                 optionOrder := λ l, l |}
              ∅ (parseInputData (text ["a:x"; "b:y"; "c:z"])) Hne Hdraw Hnames)
    as (_ & _ & k & target & Hsel & Hk & Hreach & _).
  exists k, target. split_and!; [exact Hsel|exact Hk|exact Hreach].
Defined.

(** ** Options of a round *)

Lemma NoDup_threeDistinctChars pool :
  NoDup (char <$> pool) → 3 ≤ length pool → threeDistinctChars pool.
Proof.
  destruct pool as [|a [|b [|c pool]]]; cbn [length]; try lia.
  intros Hnd _. cbn in Hnd.
  apply NoDup_cons in Hnd as [Ha Hnd]. apply NoDup_cons in Hnd as [Hb Hnd].
  apply not_elem_of_cons in Ha as [Hab Ha].
  apply not_elem_of_cons in Ha as [Hac _].
  apply not_elem_of_cons in Hb as [Hbc _].
  exists a, b, c. split_and!; try done; set_solver.
Qed.

Lemma pickDistractors_second (ds : list WordPair) : ∀ d1,
  (∃ b, b ∈ ds ∧ char b ≠ char d1) →
  ∃ d2 used,
    pickDistractors ds [d1] ({[char d1]} ∪ ∅) = ([d1; d2], used)
    ∧ d2 ∈ ds ∧ char d2 ≠ char d1.
Proof.
  induction ds as [|d ds IH]; intros d1 (b & Hb & Hne).
  - by apply elem_of_nil in Hb.
  - cbn [pickDistractors].
    destruct (decide (char d ∈ ({[char d1]} ∪ ∅ : gset jstring))) as [Hin|Hout].
    + assert (char d = char d1) as Heq by set_solver.
      destruct (decide (2 ≤ length [d1])) as [Hlen|_]; [cbn in Hlen; lia|].
      destruct (IH d1) as (d2 & used & Hpick & Hd2 & Hne2).
      { exists b. split; [|done]. apply elem_of_cons in Hb as [->|Hb]; [|done].
        congruence. }
      exists d2, used. split_and!; [done| |done]. by right.
    + destruct (decide (2 ≤ length ([d1] ++ [d]))) as [_|Hlen]; [|cbn in Hlen; lia].
      exists d, ({[char d]} ∪ ({[char d1]} ∪ ∅)). split_and!; [done|by left|].
      set_solver.
Qed.

Lemma pickDistractors_two (ds : list WordPair) :
  (∃ a b, a ∈ ds ∧ b ∈ ds ∧ char a ≠ char b) →
  ∃ d1 d2 used,
    pickDistractors ds [] ∅ = ([d1; d2], used)
    ∧ d1 ∈ ds ∧ d2 ∈ ds ∧ char d1 ≠ char d2.
Proof.
  intros (a & b & Ha & Hb & Hab).
  destruct ds as [|d1 ds]; [by apply elem_of_nil in Ha|].
  cbn [pickDistractors].
  destruct (decide (char d1 ∈ (∅ : gset jstring))) as [Hin|_]; [set_solver|].
  destruct (decide (2 ≤ length ([] ++ [d1]))) as [Hlen|_]; [cbn in Hlen; lia|].
  destruct (pickDistractors_second ds d1) as (d2 & used & Hpick & Hd2 & Hne).
  { destruct (decide (char a = char d1)) as [Heq|Hne].
    - exists b. split; [|congruence].
      apply elem_of_cons in Hb as [->|Hb]; [congruence|done].
    - exists a. split; [|done].
      apply elem_of_cons in Ha as [->|Ha]; [congruence|done]. }
  exists d1, d2, used. cbn [app]. split_and!; [done|by left|by right|done].
Qed.

Lemma fillDistractors_full {R : Type} `{Arith R} (draws : list R)
    currentList target selected usedChars :
  length selected = 2 →
  fillDistractors draws currentList target selected usedChars = Done selected.
Proof.
  intros Hlen. destruct draws; cbn [fillDistractors];
    (destruct (decide _) as [[Hlt _]|_]; [lia|done]).
Qed.

(** C6. For a pool with at least three items of pairwise distinct
    characters, every round [setupRound] produces, whatever the random
    choices, has exactly three options, taken from the pool, with the
    target among them and with pairwise distinct characters. *)
Theorem setupRound_options {R : Type} `{Arith R} (rnd : Random R) (st : App) :
  (∀ l, distractorOrder rnd l ≡ₚ l) →
  (∀ l, optionOrder rnd l ≡ₚ l) →
  threeDistinctChars (wordList st) →
  ∃ st' target,
    setupRound rnd st = Done st'
    ∧ targetWord st' = Some target
    ∧ length (currentOptions st') = 3
    ∧ target ∈ currentOptions st'
    ∧ NoDup (char <$> currentOptions st')
    ∧ ∀ w, w ∈ currentOptions st' → w ∈ wordList st.
Proof.
  intros Hshuffle Horder (a & b & c & Ha & Hb & Hc & Hab & Hac & Hbc).
  unfold setupRound, setupRoundWith.
  destruct (wordList st) as [|first rest] eqn:Hpool; [by apply elem_of_nil in Ha|].
  destruct (selectTarget_in_pool rnd (wordStats st) (first :: rest) ltac:(done))
    as (target & -> & Htarget).
  set (potential := filter (λ w, char w ≠ char target) (first :: rest)).
  assert (∃ x y, x ∈ distractorOrder rnd potential
                 ∧ y ∈ distractorOrder rnd potential ∧ char x ≠ char y)
    as Htwo.
  { assert (∀ x, x ∈ first :: rest → char x ≠ char target →
                 x ∈ distractorOrder rnd potential) as Hkeep.
    { intros x Hx Hne. rewrite (Hshuffle potential).
      by apply list_elem_of_filter. }
    destruct (decide (char a = char target)) as [Hat|Hat];
      [|destruct (decide (char b = char target)) as [Hbt|Hbt]].
    - exists b, c. split_and!; [apply Hkeep; congruence..|done].
    - exists a, c. split_and!; [apply Hkeep; congruence..|done].
    - exists a, b. split_and!; [by apply Hkeep..|done]. }
  destruct (pickDistractors_two _ Htwo) as (d1 & d2 & used & -> & Hd1 & Hd2 & Hne).
  rewrite fillDistractors_full by done.
  rewrite (Hshuffle potential) in Hd1, Hd2.
  apply list_elem_of_filter in Hd1 as [Hd1t Hd1], Hd2 as [Hd2t Hd2].
  eexists _, target. split; [done|]. cbn.
  pose proof (Horder [target; d1; d2]) as Hperm.
  split_and!.
  - done.
  - by rewrite Hperm.
  - rewrite Hperm. by left.
  - rewrite Hperm. cbn. repeat constructor; set_solver.
  - intros w Hw. rewrite Hperm in Hw. set_solver.
Qed.

Lemma setupRound_options_witness :
  let st := @loadContent sampleConstants (sampleApp ∅) in
  let rnd : Random Q :=
    {| targetDraw := (1 # 2)%Q; fallbackDraw := 0%Q;
       distractorOrder := reverse; fillDraws := []; optionOrder := reverse |} in
  threeDistinctChars (wordList st)
  ∧ ∃ st', setupRound rnd st = Done st'
      ∧ char <$> currentOptions st' = [str "a"; str "c"; str "b"].
Proof.
  cbn zeta.
  assert (threeDistinctChars (wordList (@loadContent sampleConstants (sampleApp ∅))))
    as Hthree.
  { apply NoDup_threeDistinctChars; [|by vm_compute].
    vm_compute. repeat constructor; set_solver. }
  split; [exact Hthree|].
  destruct (setupRound_options
              ({| targetDraw := (1 # 2)%Q; fallbackDraw := 0%Q;
                  distractorOrder := reverse; fillDraws := [];
                  optionOrder := reverse |} : Random Q)
              (@loadContent sampleConstants (sampleApp ∅))
              reverse_Permutation reverse_Permutation Hthree)
    as (st' & target & Hround & _).
  exists st'. split; [exact Hround|].
  vm_compute in Hround. by injection Hround as <-.
Defined.

Lemma setupRound_target_in_pool {R : Type} `{Arith R} (rnd : Random R)
    (st st' : App) target :
  setupRound rnd st = Done st' → targetWord st' = Some target →
  target ∈ wordList st.
Proof.
  unfold setupRound, setupRoundWith. destruct (wordList st) as [|first rest] eqn:Hpool.
  { intros [= <-]. done. }
  destruct (selectTarget_in_pool rnd (wordStats st) (first :: rest)
              ltac:(done)) as (t & -> & Hin).
  destruct (pickDistractors _ _ _) as [sel used].
  destruct (fillDistractors _ _ _ _ _) as [sel'| |]; [|done..].
  intros [= <-]. cbn. by intros [= <-].
Qed.

(** ** Mastery *)

(** X2. When exactly one line of the content carries the character of the
    mastered item, [handleMastery] removes that line from the content,
    appends it to the learned text, stores both, keeps the ledger, and
    leaves no item of that character in the pool: no later round has it as
    its target. *)
Theorem handleMastery_removes_item (w : WordPair) (st : App) (i : nat)
    (line : jstring) :
  let lines := split is_newline (inputText st) in
  lines !! i = Some line → lineChar line = char w →
  (∀ j l, lines !! j = Some l → lineChar l = char w → j = i) →
  let st' := handleMastery w st in
  inputText st' = join 10 (delete i lines)
  ∧ learnedText st'
    = match learnedText st with [] => [] | c :: s => (c :: s) ++ [10%N] end ++ line
  ∧ localStorage st' !! STORAGE_KEY_INPUT = Some (inputText st')
  ∧ localStorage st' !! STORAGE_KEY_LEARNED = Some (learnedText st')
  ∧ wordStats st' = wordStats st
  ∧ wordList st' = parseInputData (inputText st')
  ∧ (∀ item, item ∈ wordList st' → char item ≠ char w)
  ∧ ∀ (R : Type) (arith : Arith R) (rnd : Random R) st'' target,
      setupRound rnd st' = Done st'' → targetWord st'' = Some target →
      char target ≠ char w.
Proof.
  cbn zeta. intros Hline Hchar Hunique.
  assert (list_find (λ l, lineChar l = char w) (split is_newline (inputText st))
          = Some (i, line)) as Hfind.
  { apply list_find_Some. split_and!; [done..|].
    intros j l Hl Hj Hc. specialize (Hunique j l Hl Hc). lia. }
  assert (∀ item, item ∈ parseInputData (join 10 (delete i (split is_newline (inputText st)))) →
            char item ≠ char w) as Hgone.
  { intros item Hitem Hc. rewrite parseInputData_keptItems in Hitem.
    destruct (delete i (split is_newline (inputText st))) as [|l0 ls0] eqn:Hdel.
    { by apply elem_of_nil in Hitem. }
    rewrite split_join in Hitem; [|done|].
    2:{ rewrite <- Hdel.
        apply Forall_forall. intros l Hl. apply list_elem_of_delete_inv in Hl.
        pose proof (split_parts_no_sep is_newline (inputText st)) as Hall.
        rewrite Forall_forall in Hall. by apply Hall. }
    destruct (keptItems_chars _ _ Hitem) as (j & l & Hl & Hlc).
    rewrite <- Hdel in Hl.
    destruct (decide (j < i)) as [Hlt|Hge].
    - rewrite list_lookup_delete_lt in Hl by done.
      specialize (Hunique j l Hl ltac:(congruence)). lia.
    - rewrite list_lookup_delete_ge in Hl by lia.
      specialize (Hunique (S j) l Hl ltac:(congruence)). lia. }
  assert (handleMastery w st
          = setWordList
              (parseInputData (join 10 (delete i (split is_newline (inputText st)))))
              (saveContentSettings
                 (join 10 (delete i (split is_newline (inputText st))))
                 (match learnedText st with
                  | [] => []
                  | c :: s => (c :: s) ++ [10%N]
                  end ++ line)
                 (setMasteryNotification (Some (char w)) st))) as ->.
  { unfold handleMastery.
    change (inputText (setMasteryNotification _ st)) with (inputText st).
    by rewrite Hfind. }
  split_and!; try done.
  - cbn -[parseInputData join split].
    by rewrite lookup_insert_ne, lookup_insert_eq.
  - cbn -[parseInputData join split]. by rewrite lookup_insert_eq.
  - intros R arith rnd st'' target Hround Htarget.
    apply Hgone.
    exact (setupRound_target_in_pool rnd _ _ _ Hround Htarget).
Qed.

Lemma handleMastery_removes_item_witness :
  let st := @loadContent sampleConstants
              (sampleApp {[ STORAGE_KEY_INPUT := text ["a:x"; "b:y"; "c:z"; "d:w"] ]}) in
  let a := {| id := str "word-a-0"; char := str "a"; word := str "x" |} in
  a ∈ wordList st
  ∧ inputText (handleMastery a st) = text ["b:y"; "c:z"; "d:w"]
  ∧ learnedText (handleMastery a st) = str "a:x"
  ∧ ∀ item, item ∈ wordList (handleMastery a st) → char item ≠ str "a".
Proof.
  cbn zeta.
  set (st := @loadContent sampleConstants
               (sampleApp {[ STORAGE_KEY_INPUT := text ["a:x"; "b:y"; "c:z"; "d:w"] ]})).
  set (a := {| id := str "word-a-0"; char := str "a"; word := str "x" |}).
  assert (split is_newline (inputText st) !! 0 = Some (str "a:x")) as Hline
    by (vm_compute; reflexivity).
  assert (lineChar (str "a:x") = char a) as Hchar by (vm_compute; reflexivity).
  assert (∀ j l, split is_newline (inputText st) !! j = Some l →
                 lineChar l = char a → j = 0) as Hunique.
  { intros j l Hl Hc.
    destruct j as [|[|[|[|j]]]]; [done|exfalso..];
      vm_compute in Hl; try discriminate Hl;
      injection Hl as <-; vm_compute in Hc; discriminate Hc. }
  destruct (handleMastery_removes_item a st 0 (str "a:x") Hline Hchar Hunique)
    as (Hinput & Hlearned & _ & _ & _ & _ & Hgone & _).
  split_and!.
  - apply (bool_decide_unpack _). vm_compute. exact I.
  - rewrite Hinput. vm_compute. reflexivity.
  - rewrite Hlearned. vm_compute. reflexivity.
  - exact Hgone.
Defined.

(** ** Import *)

Lemma restoreField_ok key field text ls ls' :
  restoreField key field text ls = (ls', Some tt) →
  ls' !! key = match field with VUndefined => ls !! key | f => text f end
  ∧ ∀ key', key' ≠ key → ls' !! key' = ls !! key'.
Proof.
  unfold restoreField, storeItem, eret, ethrow.
  destruct field; try (intros [= <-]; done);
    (destruct (text _) as [txt|]; [|done]); intros [= <-];
    (split; [by rewrite lookup_insert_eq|]);
    intros key' Hne; by rewrite lookup_insert_ne.
Qed.

Lemma restoreAll_ok table : ∀ ls ls',
  NoDup table.*1.*1 →
  restoreAll table ls = (ls', Some tt) →
  Forall (restoredFrom ls ls') table
  ∧ ∀ key, key ∉ table.*1.*1 → ls' !! key = ls !! key.
Proof.
  induction table as [|[[key field] text] table IH]; intros ls ls' Hnd Hrun.
  - cbn in Hrun. injection Hrun as <-. by split; [constructor|].
  - cbn [restoreAll foldr fst snd] in Hrun. unfold ebind in Hrun at 1.
    destruct (restoreField key field text ls) as [ls1 [[]|]] eqn:Hfield; [|done].
    apply restoreField_ok in Hfield as [Hkey Hother].
    cbn [fmap list_fmap fst] in Hnd. apply NoDup_cons in Hnd as [Hfresh Hnd].
    destruct (IH ls1 ls' Hnd Hrun) as [Hall Hrest].
    split.
    + constructor.
      * unfold restoredFrom. cbn [fst snd]. rewrite (Hrest key Hfresh), Hkey.
        by destruct field.
      * apply Forall_forall. intros e He.
        rewrite Forall_forall in Hall. specialize (Hall e He).
        unfold restoredFrom in *. rewrite Hall.
        destruct e.1.2; try done.
        apply Hother. intros Heq. apply Hfresh. rewrite <- Heq.
        apply (list_elem_of_fmap_2 fst), (list_elem_of_fmap_2 fst), He.
    + intros key' Hnot. cbn [fmap list_fmap fst] in Hnot.
      apply not_elem_of_cons in Hnot as [Hne Hnot].
      rewrite Hrest by done. by apply Hother.
Qed.

Lemma restoreTable_keys `{JSON} d :
  (restoreTable d).*1.*1
  = [STORAGE_KEY_INPUT; STORAGE_KEY_LEARNED; STORAGE_KEY_STATS;
     STORAGE_KEY_TOTAL_SCORE; STORAGE_KEY_STREAK; STORAGE_KEY_GOAL;
     STORAGE_KEY_PROGRESS; STORAGE_KEY_LAST_DATE; STORAGE_KEY_GOAL_MET]
  ∧ NoDup (restoreTable d).*1.*1.
Proof. split; [done|]. cbn. by apply (bool_decide_unpack _). Qed.

(** C8, as the code has it. When the backup is not JSON, has no readable
    [data] member or a falsy one, the import is aborted and the state,
    with the persisted store, is left entirely unchanged. Otherwise the
    nine fields are applied one by one: when no write throws, every key
    whose field is present holds the text of that field, every key whose
    field is [undefined] keeps its old value (a payload with some of the
    fields updates those keys only), no other key changes, and content,
    progress and ledger are reloaded from the store. *)
Theorem handleFileChange_import `{Constants} `{JSON} (clock : Clock)
    (parsed : option value) (st : App) :
  (payloadData parsed = None → handleFileChange clock parsed st = st)
  ∧ (∀ d ls', payloadData parsed = Some d →
       restore d (localStorage st) = (ls', Some tt) →
       Forall (restoredFrom (localStorage st) ls') (restoreTable d)
       ∧ (∀ key, key ∉ (restoreTable d).*1.*1 →
            ls' !! key = localStorage st !! key)
       ∧ handleFileChange clock parsed st
         = loadStats (loadProgress clock (loadContent (setLocalStorage ls' st)))).
Proof.
  unfold payloadData, handleFileChange. split.
  - destruct (parsed ≫= _) as [d|]; [|done]. by destruct (truthy d).
  - intros d ls'. destruct (parsed ≫= _) as [d0|]; [|done].
    destruct (truthy d0) eqn:Htruthy; [|done]. intros [= ->] Hrun.
    destruct (restoreAll_ok _ _ _ (proj2 (restoreTable_keys d)) Hrun) as [Hall Hrest].
    rewrite Hrun. done.
Qed.

(** C8 fails on a payload that lacks fields: the import is not aborted and
    writes the one field it finds, so the store is neither unchanged nor
    updated in every field. *)
Lemma import_applies_partial_payload :
  let st := sampleApp {[ STORAGE_KEY_INPUT := text ["a:x"; "b:y"; "c:z"];
                         STORAGE_KEY_STREAK := str "5";
                         STORAGE_KEY_LAST_DATE := str "Mon Nov 02 2026" ]} in
  let d := VObj [(str "input", VStr (str "q:r"))] in
  let st' := @handleFileChange sampleConstants emptyLedgerJSON mondayAtTen
               (Some (VObj [(str "data", d)])) st in
  ¬ (localStorage st' = localStorage st
     ∨ @fullyRestored emptyLedgerJSON d (localStorage st')).
Proof.
  cbn zeta. intros [Hsame | Hfull].
  - apply (f_equal (λ ls, ls !! STORAGE_KEY_INPUT)) in Hsame.
    vm_compute in Hsame. discriminate Hsame.
  - unfold fullyRestored, restoreTable in Hfull.
    apply Forall_cons in Hfull as [_ Hfull].
    apply Forall_cons in Hfull as [[Hlearned _] _].
    by apply Hlearned.
Qed.

(** ** Export followed by import *)

Lemma jsonImage_undefined v : jsonImage v = VUndefined → v = VUndefined.
Proof. destruct v as [| | |[|z]| | |]; by cbn. Qed.

Lemma jsonEntries_cons k x props :
  jsonEntries ((k, x) :: props)
  = match jsonImage x with
    | VUndefined => jsonEntries props
    | y => (k, y) :: jsonEntries props
    end.
Proof. unfold jsonEntries. cbn. by destruct (jsonImage x). Qed.

Lemma getProp_jsonEntries name props :
  getProp name (jsonEntries props) = jsonImage (getProp name props).
Proof.
  induction props as [|[k x] props IH]; [done|].
  rewrite jsonEntries_cons. cbn [getProp].
  destruct (jsonImage x) eqn:Hx;
    [apply jsonImage_undefined in Hx as ->; rewrite IH;
     destruct (getProp name props); by destruct (decide (k = name))|..];
    cbn [getProp]; rewrite IH;
    (destruct (getProp name props) eqn:Hp;
       [cbn; by destruct (decide (k = name))|..]);
    try done;
    by destruct (jsonImage _) eqn:Hi; [apply jsonImage_undefined in Hi|..].
Qed.

Lemma restoreField_other key field txt ls key' :
  key' ≠ key → (restoreField key field txt ls).1 !! key' = ls !! key'.
Proof.
  intros Hne. unfold restoreField, storeItem, eret, ethrow.
  destruct field; try done; destruct (txt _); cbn; by rewrite ?lookup_insert_ne.
Qed.

Lemma restoreAll_other table : ∀ ls key,
  key ∉ table.*1.*1 → (restoreAll table ls).1 !! key = ls !! key.
Proof.
  induction table as [|[[k field] txt] table IH]; intros ls key Hkey; [done|].
  cbn [fmap list_fmap fst] in Hkey. apply not_elem_of_cons in Hkey as [Hne Hkey].
  cbn [restoreAll foldr fst snd]. unfold ebind at 1.
  pose proof (restoreField_other k field txt ls key Hne) as Hfield.
  destruct (restoreField k field txt ls) as [ls1 [[]|]]; cbn [fst] in *.
  - fold (restoreAll table). by rewrite IH.
  - done.
Qed.

Lemma loadContent_storage `{Constants} st :
  localStorage (loadContent st) = localStorage st.
Proof.
  unfold loadContent.
  by destruct (localStorage st !! STORAGE_KEY_LEARNED) as [[|c s]|].
Qed.

Lemma loadStats_storage `{JSON} st :
  localStorage (loadStats st) = localStorage st.
Proof.
  unfold loadStats.
  destruct (localStorage st !! STORAGE_KEY_STATS) as [[|c s]|]; try done.
  by destruct (JSON_parse _).
Qed.

(** [loadProgress] writes the progress keys only. *)
Lemma loadProgress_storage clock st key :
  key ∉ [STORAGE_KEY_PROGRESS; STORAGE_KEY_GOAL_MET; STORAGE_KEY_LAST_DATE;
         STORAGE_KEY_STREAK] →
  localStorage (loadProgress clock st) !! key = localStorage st !! key.
Proof.
  intros Hkey. repeat apply not_elem_of_cons in Hkey as [? Hkey].
  unfold loadProgress.
  destruct (localStorage st !! STORAGE_KEY_GOAL) as [[|c s]|];
    (destruct (decide _); [done|]);
    (destruct (localStorage st !! STORAGE_KEY_LAST_DATE) as [[|c' s']|]);
    try destruct (_ && _);
    cbn -[parseInt orElse]; by rewrite ?lookup_insert_ne.
Qed.

Lemma handleFileChange_other `{Constants} `{JSON} clock doc d st key ls' r :
  member doc (str "data") = Some d →
  truthy d = true →
  restore d (localStorage st) = (ls', r) →
  key ∉ [STORAGE_KEY_PROGRESS; STORAGE_KEY_GOAL_MET; STORAGE_KEY_LAST_DATE;
         STORAGE_KEY_STREAK] →
  localStorage (handleFileChange clock (Some doc) st) !! key = ls' !! key.
Proof.
  intros Hdata Htruthy Hrun Hkey. unfold handleFileChange.
  cbn [mbind option_bind]. rewrite Hdata, Htruthy, Hrun.
  destruct r as [[]|]; [|done].
  by rewrite loadStats_storage, loadProgress_storage, loadContent_storage.
Qed.

Lemma getProp_third name k1 v1 k2 v2 d :
  k1 ≠ name → k2 ≠ name →
  getProp name [(k1, v1); (k2, v2); (name, d)] = d.
Proof.
  intros H1 H2. cbn [getProp]. rewrite decide_True by done.
  destruct d; by rewrite ?decide_False by done.
Qed.

Lemma getProp_first name v rest :
  name ∉ rest.*1 → getProp name ((name, v) :: rest) = v.
Proof.
  intros Hrest. cbn [getProp].
  assert (getProp name rest = VUndefined) as ->.
  { induction rest as [|[k x] rest IH]; [done|].
    cbn [fmap list_fmap fst] in Hrest.
    apply not_elem_of_cons in Hrest as [Hne Hrest].
    cbn [getProp]. rewrite IH by done. by rewrite decide_False. }
  by rewrite decide_True.
Qed.

Lemma jsonImage_obj props : jsonImage (VObj props) = VObj (jsonEntries props).
Proof. reflexivity. Qed.

Lemma exportedData_obj `{Constants} ls stats :
  ∃ fields, exportedData ls stats = VObj fields
    ∧ getProp (str "input") fields
      = VStr (orElse (ls !! STORAGE_KEY_INPUT) DEFAULT_DATA).
Proof.
  eexists. split; [reflexivity|].
  apply getProp_first. cbn [fmap list_fmap fst].
  apply (bool_decide_unpack _). vm_compute. exact I.
Qed.

Lemma exportedData_input `{Constants} ls stats :
  prop (jsonImage (exportedData ls stats)) "input"
  = VStr (orElse (ls !! STORAGE_KEY_INPUT) DEFAULT_DATA)
  ∧ truthy (jsonImage (exportedData ls stats)) = true.
Proof.
  destruct (exportedData_obj ls stats) as (fields & -> & Hinput).
  rewrite jsonImage_obj. unfold prop. cbn [member default truthy].
  by rewrite getProp_jsonEntries, Hinput.
Qed.

Lemma backupDocument_data `{Constants} `{JSON} clock st stats :
  JSON_parse (orElse (localStorage st !! STORAGE_KEY_STATS) (str "{}"))
    = Some stats →
  ∃ doc, backupDocument clock st = Some doc
    ∧ member doc (str "data")
      = Some (jsonImage (exportedData (localStorage st) stats)).
Proof.
  intros Hstats. unfold backupDocument, handleExportData. rewrite Hstats.
  cbn [mbind option_bind fmap option_fmap option_map].
  eexists. split; [reflexivity|].
  rewrite jsonImage_obj. cbn [member]. rewrite getProp_jsonEntries.
  rewrite getProp_third; done.
Qed.

(** The first write of the restore block is not undone by the later ones. *)
Lemma restore_input `{JSON} d s ls ls' r :
  prop d "input" = VStr s →
  restore d ls = (ls', r) → ls' !! STORAGE_KEY_INPUT = Some s.
Proof.
  intros Hprop Hrun.
  unfold restore, restoreTable in Hrun. rewrite Hprop in Hrun.
  cbn [restoreAll foldr fst snd] in Hrun. unfold ebind in Hrun at 1.
  cbn [restoreField storeItem String_] in Hrun.
  match type of Hrun with
  | ?run ?ls0 = _ =>
      pose proof (restoreAll_other
        (tail (restoreTable d)) ls0 STORAGE_KEY_INPUT) as Hkeep
  end.
  unfold restoreTable in Hkeep. cbn [tail restoreAll foldr fst snd] in Hkeep.
  rewrite Hrun in Hkeep. cbn [fst] in Hkeep.
  rewrite Hkeep; [by rewrite lookup_insert_eq|].
  cbn [fmap list_fmap fst]. apply (bool_decide_unpack _). vm_compute. exact I.
Qed.

(** The empty content is a state the application reaches by itself: the
    text area of the learning content stores every edit, the empty text
    too. *)
Lemma cleared_content_is_stored :
  let st := @loadContent sampleConstants
              (sampleApp {[ STORAGE_KEY_INPUT := str "a:x" ]}) in
  inputText (onInputChange [] st) = []
  ∧ localStorage (onInputChange [] st) !! STORAGE_KEY_INPUT = Some [].
Proof. cbn zeta. split; vm_compute; reflexivity. Qed.

(** C9, where the code departs from it. When the stored learning content is
    the empty text (the content was cleared in Setup), the export writes
    [DEFAULT_DATA] in its place, and importing that backup stores
    [DEFAULT_DATA]: the content after the round trip is not the content
    before it. [loadContent] reads the same store as an empty pool. *)
Theorem export_import_replaces_empty_input `{Constants} `{JSON}
    (clock : Clock) (st : App) (stats : value) :
  localStorage st !! STORAGE_KEY_INPUT = Some [] →
  JSON_parse (orElse (localStorage st !! STORAGE_KEY_STATS) (str "{}"))
    = Some stats →
  wordList (loadContent st) = []
  ∧ ∃ doc, backupDocument clock st = Some doc
      ∧ localStorage (handleFileChange clock (Some doc) st) !! STORAGE_KEY_INPUT
        = Some DEFAULT_DATA.
Proof.
  intros Hinput Hstats. split.
  { unfold loadContent. rewrite Hinput.
    by destruct (localStorage st !! STORAGE_KEY_LEARNED) as [[|c s]|]. }
  destruct (backupDocument_data clock st stats Hstats) as (doc & Hdoc & Hdata).
  exists doc. split; [exact Hdoc|].
  destruct (exportedData_input (localStorage st) stats) as [Hprop Htruthy].
  rewrite Hinput in Hprop. cbn [orElse] in Hprop.
  destruct (restore (jsonImage (exportedData (localStorage st) stats))
              (localStorage st)) as [ls' r] eqn:Hrun.
  rewrite (handleFileChange_other clock doc _ st STORAGE_KEY_INPUT ls' r
             Hdata Htruthy Hrun).
  - exact (restore_input _ _ _ _ _ Hprop Hrun).
  - apply (bool_decide_unpack _). vm_compute. exact I.
Qed.

Lemma export_import_empty_input_witness :
  let st := sampleApp {[ STORAGE_KEY_INPUT := [] ]} in
  ∃ doc,
    @backupDocument sampleConstants emptyLedgerJSON mondayAtTen st = Some doc
    ∧ localStorage st !! STORAGE_KEY_INPUT = Some []
    ∧ localStorage
        (@handleFileChange sampleConstants emptyLedgerJSON mondayAtTen (Some doc) st)
        !! STORAGE_KEY_INPUT
      = Some (text ["a: apple"; "b: bee"; "c: cat"]).
Proof.
  cbn zeta.
  assert (localStorage (sampleApp {[ STORAGE_KEY_INPUT := [] ]})
            !! STORAGE_KEY_INPUT = Some []) as Hinput
    by (vm_compute; reflexivity).
  assert (@JSON_parse emptyLedgerJSON
            (orElse (localStorage (sampleApp {[ STORAGE_KEY_INPUT := [] ]})
                       !! STORAGE_KEY_STATS) (str "{}"))
          = Some (VObj [])) as Hstats
    by (vm_compute; reflexivity).
  destruct (@export_import_replaces_empty_input sampleConstants emptyLedgerJSON
              mondayAtTen _ (VObj []) Hinput Hstats)
    as (_ & doc & Hdoc & Hstore).
  exists doc. split_and!; [exact Hdoc|exact Hinput|exact Hstore].
Defined.

Lemma restoreField_same key field txt ls s :
  field ≠ VUndefined → txt field = Some s → ls !! key = Some s →
  restoreField key field txt ls = (ls, Some tt).
Proof.
  intros Hdef Htxt Hls. unfold restoreField, storeItem.
  destruct field; try done; rewrite Htxt; by rewrite insert_id.
Qed.

Lemma exportedData_fields `{Constants} ls stats :
  stats ≠ VUndefined →
  ∃ fields, exportedData ls stats = VObj fields
    ∧ getProp (str "input") fields
      = VStr (orElse (ls !! STORAGE_KEY_INPUT) DEFAULT_DATA)
    ∧ getProp (str "learned") fields
      = VStr (orElse (ls !! STORAGE_KEY_LEARNED) [])
    ∧ getProp (str "stats") fields = stats
    ∧ getProp (str "totalScore") fields
      = VNum (parseInt (orElse (ls !! STORAGE_KEY_TOTAL_SCORE) (str "0")))
    ∧ getProp (str "streak") fields
      = VNum (parseInt (orElse (ls !! STORAGE_KEY_STREAK) (str "0")))
    ∧ getProp (str "dailyGoal") fields
      = VNum (parseInt (orElse (ls !! STORAGE_KEY_GOAL) (str "10")))
    ∧ getProp (str "dailyProgress") fields
      = VNum (parseInt (orElse (ls !! STORAGE_KEY_PROGRESS) (str "0")))
    ∧ getProp (str "lastDate") fields = storedValue (ls !! STORAGE_KEY_LAST_DATE)
    ∧ getProp (str "goalMet") fields = storedValue (ls !! STORAGE_KEY_GOAL_MET).
Proof.
  intros Hstats. eexists. split; [reflexivity|].
  generalize (orElse (ls !! STORAGE_KEY_INPUT) DEFAULT_DATA)
             (orElse (ls !! STORAGE_KEY_LEARNED) [])
             (parseInt (orElse (ls !! STORAGE_KEY_TOTAL_SCORE) (str "0")))
             (parseInt (orElse (ls !! STORAGE_KEY_STREAK) (str "0")))
             (parseInt (orElse (ls !! STORAGE_KEY_GOAL) (str "10")))
             (parseInt (orElse (ls !! STORAGE_KEY_PROGRESS) (str "0")))
             (ls !! STORAGE_KEY_LAST_DATE) (ls !! STORAGE_KEY_GOAL_MET).
  intros vi vl n1 n2 n3 n4 d g.
  destruct stats; try done; destruct d, g; split_and!; vm_compute; reflexivity.
Qed.

Lemma restoreAll_same table : ∀ ls,
  Forall (λ entry, entry.1.2 ≠ VUndefined
            ∧ ∃ s, entry.2 entry.1.2 = Some s ∧ ls !! entry.1.1 = Some s) table →
  restoreAll table ls = (ls, Some tt).
Proof.
  induction table as [|[[key field] txt] table IH]; intros ls Hall; [done|].
  inversion Hall as [|? ? (Hdef & s & Htxt & Hls) Hrest]; subst.
  cbn [restoreAll foldr fst snd] in *. unfold ebind at 1.
  rewrite (restoreField_same key field txt ls s) by done.
  by apply IH.
Qed.

Lemma setLocalStorage_same st : setLocalStorage (localStorage st) st = st.
Proof. by destruct st. Qed.

(** X4. For a store the application wrote (every key present, content not
    empty, decimal counters of at most 2^53 in magnitude, a ledger text the
    codec reads and prints back),
    the import of its own backup writes every key back with the text it
    had: the store is unchanged, and the import ends in a reload of it. *)
Theorem export_import_canonical `{Constants} `{JSON} (clock : Clock) (st : App) :
  canonicalStore (localStorage st) →
  ∃ doc d,
    backupDocument clock st = Some doc
    ∧ payloadData (Some doc) = Some d
    ∧ restore d (localStorage st) = (localStorage st, Some tt)
    ∧ handleFileChange clock (Some doc) st
      = loadStats (loadProgress clock (loadContent st)).
Proof.
  intros [(ci & si & Hinput) [learned Hlearned]
          (cs & ss & v & Hstats & Hparse & Himage & Hdef & Hprint)
          (z1 & _ & Hscore) (z2 & _ & Hstreak) (z3 & _ & Hgoal)
          (z4 & _ & Hprogress)
          [lastDate HlastDate] [goalMet HgoalMet]].
  assert (JSON_parse (orElse (localStorage st !! STORAGE_KEY_STATS) (str "{}"))
          = Some v) as Hexport by (by rewrite Hstats).
  destruct (backupDocument_data clock st v Hexport) as (doc & Hdoc & Hdata).
  destruct (exportedData_fields (localStorage st) v Hdef)
    as (fields & Hfields & Hf1 & Hf2 & Hf3 & Hf4 & Hf5 & Hf6 & Hf7 & Hf8 & Hf9).
  rewrite Hfields, jsonImage_obj in Hdata.
  assert (restore (VObj (jsonEntries fields)) (localStorage st)
          = (localStorage st, Some tt)) as Hrun.
  { apply restoreAll_same. unfold restoreTable, prop. cbn [member default].
    rewrite !getProp_jsonEntries, Hf1, Hf2, Hf3, Hf4, Hf5, Hf6, Hf7, Hf8, Hf9.
    rewrite Hinput, Hlearned, HlastDate, HgoalMet.
    rewrite (orElse_number _ z1 _ Hscore), (orElse_number _ z2 _ Hstreak),
      (orElse_number _ z3 _ Hgoal), (orElse_number _ z4 _ Hprogress).
    rewrite Himage.
    replace (orElse (Some learned) []) with learned by (by destruct learned).
    cbn [orElse storedValue jsonImage].
    repeat (apply Forall_cons; split); [..|apply Forall_nil_2];
      cbn [fst snd]; (split; [by destruct v|]);
      unfold Datatypes.id; rewrite ?Hprint; by eexists. }
  exists doc, (VObj (jsonEntries fields)). split_and!; [done| |done|].
  - unfold payloadData. cbn [mbind option_bind]. by rewrite Hdata.
  - unfold handleFileChange. cbn [mbind option_bind]. rewrite Hdata.
    cbn [truthy]. rewrite Hrun. by rewrite setLocalStorage_same.
Qed.

Lemma export_import_canonical_witness :
  let ls : gmap string jstring :=
    {[ STORAGE_KEY_INPUT := text ["a:x"; "b:y"; "c:z"];
       STORAGE_KEY_LEARNED := str "d:w";
       STORAGE_KEY_STATS := str "{}";
       STORAGE_KEY_TOTAL_SCORE := str "12";
       STORAGE_KEY_STREAK := str "3";
       STORAGE_KEY_GOAL := str "10";
       STORAGE_KEY_PROGRESS := str "4";
       STORAGE_KEY_LAST_DATE := str "Mon Nov 02 2026";
       STORAGE_KEY_GOAL_MET := str "false" ]} in
  @canonicalStore emptyLedgerJSON ls
  ∧ ∃ doc d,
      @backupDocument sampleConstants emptyLedgerJSON mondayAtTen (sampleApp ls)
      = Some doc
      ∧ payloadData (Some doc) = Some d
      ∧ @restore emptyLedgerJSON d ls = (ls, Some tt).
Proof.
  cbn zeta.
  set (ls := ({[ STORAGE_KEY_INPUT := text ["a:x"; "b:y"; "c:z"];
                 STORAGE_KEY_LEARNED := str "d:w";
                 STORAGE_KEY_STATS := str "{}";
                 STORAGE_KEY_TOTAL_SCORE := str "12";
                 STORAGE_KEY_STREAK := str "3";
                 STORAGE_KEY_GOAL := str "10";
                 STORAGE_KEY_PROGRESS := str "4";
                 STORAGE_KEY_LAST_DATE := str "Mon Nov 02 2026";
                 STORAGE_KEY_GOAL_MET := str "false" ]} : gmap string jstring)).
  assert (@canonicalStore emptyLedgerJSON ls) as Hcanonical.
  { constructor.
    - eexists _, _. vm_compute. reflexivity.
    - eexists. vm_compute. reflexivity.
    - exists 123%N, [125%N], (VObj []).
      split_and!; [vm_compute; reflexivity..|discriminate|vm_compute; reflexivity].
    - exists 12%Z. split; [lia|vm_compute; reflexivity].
    - exists 3%Z. split; [lia|vm_compute; reflexivity].
    - exists 10%Z. split; [lia|vm_compute; reflexivity].
    - exists 4%Z. split; [lia|vm_compute; reflexivity].
    - eexists. vm_compute. reflexivity.
    - eexists. vm_compute. reflexivity. }
  split; [exact Hcanonical|].
  destruct (@export_import_canonical sampleConstants emptyLedgerJSON mondayAtTen
              (sampleApp ls) Hcanonical)
    as (doc & d & Hdoc & Hdata & Hrun & _).
  exists doc, d. split_and!; [exact Hdoc|exact Hdata|exact Hrun].
Defined.

(** * Further properties *)

(** ** Rounds on any pool *)

(** The [for] loop over the shuffled distractors, from a selection that is
    not yet full: it appends items of the list with fresh characters until
    two are selected or the list is used up. *)
Lemma pickDistractors_spec (ds : list WordPair) : ∀ sel used,
  length sel < 2 →
  used = list_to_set (char <$> sel) →
  NoDup (char <$> sel) →
  ∃ extra,
    pickDistractors ds sel used
      = (sel ++ extra, list_to_set (char <$> sel ++ extra))
    ∧ extra ⊆ ds
    ∧ NoDup (char <$> sel ++ extra)
    ∧ length (sel ++ extra) ≤ 2
    ∧ (length (sel ++ extra) < 2 →
         ∀ d, d ∈ ds → char d ∈ (list_to_set (char <$> sel ++ extra) : gset jstring)).
Proof.
  induction ds as [|d ds IH]; intros sel used Hlen -> Hnd.
  - exists []. rewrite app_nil_r. cbn [pickDistractors].
    split_and!; [done|done|done|lia|]. intros _ d Hd. by apply elem_of_nil in Hd.
  - cbn [pickDistractors].
    destruct (decide (char d ∈ (list_to_set (char <$> sel) : gset jstring)))
      as [Hin|Hout].
    + destruct (decide (2 ≤ length sel)) as [?|_]; [lia|].
      destruct (IH sel _ Hlen eq_refl Hnd) as (extra & -> & Hsub & Hnd' & Hlen' & Hall).
      exists extra. split_and!; [done| |done|done|].
      * intros x Hx. right. by apply Hsub.
      * intros Hshort x Hx. apply elem_of_cons in Hx as [->|Hx]; [|by apply Hall].
        rewrite fmap_app, list_to_set_app_L. set_solver.
    + assert (NoDup (char <$> sel ++ [d])) as Hnd1.
      { rewrite fmap_app. apply NoDup_app. split_and!; [done| |by apply NoDup_singleton].
        intros c Hc Hc'. apply list_elem_of_singleton in Hc'. subst c.
        apply Hout. by apply elem_of_list_to_set. }
      assert ({[char d]} ∪ list_to_set (char <$> sel)
              = (list_to_set (char <$> sel ++ [d]) : gset jstring)) as Hused.
      { rewrite fmap_app, list_to_set_app_L. set_solver. }
      rewrite Hused.
      destruct (decide (2 ≤ length (sel ++ [d]))) as [Hfull|Hshort].
      * exists [d]. split_and!; [done| |done| |].
        -- intros x Hx. apply list_elem_of_singleton in Hx. subst x. by left.
        -- rewrite length_app. cbn. lia.
        -- intros Hlt. lia.
      * destruct (IH (sel ++ [d]) _ ltac:(lia) eq_refl Hnd1)
          as (extra & Hpick & Hsub & Hnd' & Hlen' & Hall).
        exists (d :: extra). rewrite <- (assoc_L _ sel [d] extra) in *.
        cbn [app] in *. split_and!; [done| |done|done|].
        -- intros x Hx. apply elem_of_cons in Hx as [->|Hx]; [by left|].
           right. by apply Hsub.
        -- intros Hlt x Hx. apply elem_of_cons in Hx as [->|Hx]; [|by apply Hall].
           rewrite fmap_app, list_to_set_app_L. set_solver.
Qed.

Lemma randomItem_in {R : Type} `{Arith R} (draw : R) pool r :
  randomItem draw pool = Some r → r ∈ pool.
Proof.
  unfold randomItem. destruct (floorIndex _) as [i|]; [|done]. cbn.
  apply list_elem_of_lookup_2.
Qed.

(** The [while] loop, when it ends: the selection it returns has fresh
    characters, is made of items of the pool other than the target's
    character, and is full when the pool has three items. *)
Lemma fillDistractors_spec {R : Type} `{Arith R} (draws : list R) pool target :
  ∀ sel used sel',
  used = list_to_set (char <$> sel) →
  NoDup (char <$> sel) →
  Forall (λ w, char w ≠ char target ∧ w ∈ pool) sel →
  length sel ≤ 2 →
  fillDistractors draws pool target sel used = Done sel' →
  NoDup (char <$> sel')
  ∧ Forall (λ w, char w ≠ char target ∧ w ∈ pool) sel'
  ∧ length sel' ≤ 2
  ∧ (3 ≤ length pool → length sel' = 2)
  ∧ (length pool < 3 → sel' = sel).
Proof.
  induction draws as [|draw draws IH]; intros sel used sel' -> Hnd Hall Hlen;
    cbn [fillDistractors].
  - destruct (decide _) as [Hgo|Hstop]; [done|]. intros [= <-].
    split_and!; [done|done|done|lia|done].
  - destruct (decide _) as [[Hshort Hpool]|Hstop].
    2:{ intros [= <-]. split_and!; [done|done|done|lia|done]. }
    destruct (randomItem draw pool) as [r|] eqn:Hr; [|done].
    apply randomItem_in in Hr.
    destruct (decide (char r ≠ char target
                      ∧ char r ∉ (list_to_set (char <$> sel) : gset jstring)))
      as [[Hrt Hfresh]|Hused].
    + assert (NoDup (char <$> sel ++ [r])) as Hnd1.
      { rewrite fmap_app. apply NoDup_app. split_and!; [done| |by apply NoDup_singleton].
        intros c Hc Hc'. apply list_elem_of_singleton in Hc'. subst c.
        apply Hfresh. by apply elem_of_list_to_set. }
      assert (Forall (λ w, char w ≠ char target ∧ w ∈ pool) (sel ++ [r])) as Hall1.
      { apply Forall_app. split; [done|]. by repeat constructor. }
      assert (length (sel ++ [r]) = S (length sel)) as Hlen1.
      { rewrite length_app. cbn. lia. }
      destruct (decide (2 ≤ length (sel ++ [r]))) as [Hfull|Hmore].
      * intros [= <-]. split_and!; [done|done|lia|lia|lia].
      * intros Hrun. apply IH in Hrun; [|set_solver|done|done|lia].
        destruct Hrun as (? & ? & ? & ? & Hsmall). split_and!; [done..|lia].
    + destruct (decide (2 ≤ length sel)) as [?|_]; [lia|].
      intros Hrun. apply IH in Hrun; [|done..].
      destruct Hrun as (? & ? & ? & ? & Hsmall). split_and!; [done..|lia].
Qed.

(** The [while] loop, when no item of the pool can be added: it does not
    end, however many draws it is given. *)
Lemma fillDistractors_stuck {R : Type} `{Arith R} (draws : list R)
    (pool : list WordPair) (target : WordPair) (sel : list WordPair)
    (used : gset jstring) :
  length sel < 2 → 3 ≤ length pool →
  (∀ r, r ∈ pool → char r = char target ∨ char r ∈ used) →
  (fillDistractors draws pool target sel used = Spinning
   ∨ fillDistractors draws pool target sel used = Throws)
  ∧ (Forall (λ draw, is_Some (randomItem draw pool)) draws →
     fillDistractors draws pool target sel used = Spinning).
Proof.
  intros Hshort Hpool Hnone.
  induction draws as [|draw draws [IH1 IH2]]; cbn [fillDistractors];
    (destruct (decide _) as [_|Hstop]; [|by destruct Hstop]).
  - by split; [left|].
  - destruct (randomItem draw pool) as [r|] eqn:Hr.
    2:{ split; [by right|]. intros Hall. apply Forall_cons in Hall as [Hsome _].
        rewrite Hr in Hsome. by destruct Hsome. }
    destruct (decide (char r ≠ char target ∧ char r ∉ used)) as [[Hrt Hfresh]|_].
    { apply randomItem_in in Hr. by destruct (Hnone r Hr). }
    destruct (decide (2 ≤ length sel)) as [?|_]; [lia|].
    split; [done|]. intros Hall. apply Forall_cons in Hall as [_ Hall]. by apply IH2.
Qed.

(** Where the target of a non-empty pool comes from, and the round it
    starts. *)
Lemma setupRound_cases {R : Type} `{Arith R} (rnd : Random R) (st : App) :
  wordList st ≠ [] →
  ∃ target,
    selectTarget rnd (wordStats st) (wordList st) = Some target
    ∧ target ∈ wordList st
    ∧ setupRound rnd st
      = let potentialDistractors :=
          filter (λ w, char w ≠ char target) (wordList st) in
        let picked :=
          pickDistractors (distractorOrder rnd potentialDistractors) [] ∅ in
        match fillDistractors (fillDraws rnd) (wordList st) target
                picked.1 picked.2 with
        | Done selectedDistractors =>
            Done (setFeedback FeedbackNone
                    (setCurrentOptions
                       (optionOrder rnd (target :: selectedDistractors))
                       (setTargetWord (Some target) st)))
        | Throws => Throws
        | Spinning => Spinning
        end.
Proof.
  intros Hpool.
  destruct (selectTarget_in_pool rnd (wordStats st) (wordList st) Hpool)
    as (target & Htarget & Hin).
  exists target. split_and!; [done|done|].
  unfold setupRound, setupRoundWith. destruct (wordList st) as [|first rest] eqn:Hlist; [done|].
  rewrite Htarget. cbn zeta.
  by destruct (pickDistractors _ _ _) as [sel used].
Qed.

(** X6. Every round [setupRound] completes on a non-empty pool is well formed:
    the target is an item of the pool and is among the options, the options
    are items of the pool with pairwise distinct characters, there are at
    most three of them and exactly three when the pool has three items, the
    feedback is cleared, and nothing else of the state changes. *)
Theorem setupRound_valid_round {R : Type} `{Arith R} (rnd : Random R)
    (st st' : App) :
  (∀ l, distractorOrder rnd l ≡ₚ l) →
  (∀ l, optionOrder rnd l ≡ₚ l) →
  wordList st ≠ [] →
  setupRound rnd st = Done st' →
  ∃ target,
    targetWord st' = Some target
    ∧ target ∈ wordList st
    ∧ target ∈ currentOptions st'
    ∧ NoDup (char <$> currentOptions st')
    ∧ (∀ w, w ∈ currentOptions st' → w ∈ wordList st)
    ∧ length (currentOptions st') ≤ 3
    ∧ (3 ≤ length (wordList st) → length (currentOptions st') = 3)
    ∧ feedback st' = FeedbackNone
    ∧ st' = setFeedback FeedbackNone
              (setCurrentOptions (currentOptions st')
                 (setTargetWord (Some target) st)).
Proof.
  intros Hshuffle Horder Hpool.
  destruct (setupRound_cases rnd st Hpool) as (target & _ & Htarget & ->).
  cbn zeta.
  set (potential := filter (λ w, char w ≠ char target) (wordList st)).
  destruct (pickDistractors_spec (distractorOrder rnd potential) [] ∅)
    as (picked & Hpick & Hsub & Hnd & Hlen & _); [cbn; lia|done|constructor|].
  cbn [app] in *. rewrite Hpick. cbn [fst snd].
  destruct (fillDistractors _ _ _ _ _) as [sel| |] eqn:Hfill; [|done..].
  apply fillDistractors_spec in Hfill; [|done|done| |done].
  2:{ apply Forall_forall. intros w Hw. apply Hsub in Hw.
      rewrite (Hshuffle potential) in Hw.
      apply list_elem_of_filter in Hw as [? ?]. done. }
  destruct Hfill as (Hnd' & Hall & Hlen' & Hfull & _).
  intros [= <-]. exists target. cbn.
  pose proof (Horder (target :: sel)) as Hperm.
  rewrite Forall_forall in Hall.
  split_and!; try done.
  - rewrite Hperm. by left.
  - rewrite Hperm. cbn. apply NoDup_cons. split; [|done].
    intros Hin. apply list_elem_of_fmap in Hin as (w & Heq & Hw).
    destruct (Hall w Hw) as [Hne _]. congruence.
  - intros w Hw. rewrite Hperm in Hw.
    apply elem_of_cons in Hw as [->|Hw]; [done|]. by apply Hall.
  - rewrite Hperm. cbn. lia.
  - intros Hthree. rewrite Hperm. cbn. by rewrite Hfull.
Qed.

Lemma setupRound_valid_round_witness :
  let st := @loadContent sampleConstants
              (sampleApp {[ STORAGE_KEY_INPUT := text ["a:x"; "a:y"; "b:z"; "c:w"] ]}) in
  let rnd : Random Q :=
    {| targetDraw := (1 # 2)%Q; fallbackDraw := 0%Q;
       distractorOrder := reverse; fillDraws := []; optionOrder := reverse |} in
  ∃ st', setupRound rnd st = Done st'
    ∧ char <$> currentOptions st' = [str "b"; str "c"; str "a"]
    ∧ NoDup (char <$> currentOptions st').
Proof.
  cbn zeta.
  set (st := @loadContent sampleConstants
               (sampleApp {[ STORAGE_KEY_INPUT := text ["a:x"; "a:y"; "b:z"; "c:w"] ]})).
  set (rnd := {| targetDraw := (1 # 2)%Q; fallbackDraw := 0%Q;
                 distractorOrder := reverse; fillDraws := [];
                 optionOrder := reverse |} : Random Q).
  assert (wordList st ≠ []) as Hpool by (vm_compute; discriminate).
  destruct (setupRound rnd st) as [st'| |] eqn:Hround;
    [|vm_compute in Hround; discriminate..].
  destruct (setupRound_valid_round rnd st st'
              reverse_Permutation reverse_Permutation Hpool Hround)
    as (target & _ & _ & _ & Hnd & _).
  exists st'. split; [reflexivity|]. split; [|exact Hnd].
  vm_compute in Hround. by injection Hround as <-.
Defined.

(** On a pool whose items carry at most two characters, fewer than two
    distractors are picked, and every item of the pool has the character
    of the target or of the distractor picked. *)
Lemma pickDistractors_short {R : Type} (rnd : Random R) (pool : list WordPair)
    (target : WordPair) :
  (∀ l, distractorOrder rnd l ≡ₚ l) →
  atMostTwoChars pool → target ∈ pool →
  ∃ picked,
    pickDistractors
      (distractorOrder rnd (filter (λ w, char w ≠ char target) pool)) [] ∅
    = (picked, list_to_set (char <$> picked))
    ∧ length picked < 2
    ∧ ∀ r, r ∈ pool →
        char r = char target
        ∨ char r ∈ (list_to_set (char <$> picked) : gset jstring).
Proof.
  intros Hshuffle (c1 & c2 & Htwo) Htarget.
  set (potential := filter (λ w, char w ≠ char target) pool).
  destruct (pickDistractors_spec (distractorOrder rnd potential) [] ∅)
    as (picked & Hpick & Hsub & Hnd & Hlen & Hall); [cbn; lia|done|constructor|].
  cbn [app] in *. exists picked. split; [done|].
  rewrite Forall_forall in Htwo.
  assert (∀ w, w ∈ picked → char w ≠ char target ∧ (char w = c1 ∨ char w = c2))
    as Hpicked.
  { intros w Hw. apply Hsub in Hw. rewrite (Hshuffle potential) in Hw.
    apply list_elem_of_filter in Hw as [? ?]. split; [done|]. by apply Htwo. }
  assert (length picked < 2) as Hshort.
  { destruct picked as [|x [|y picked]]; [cbn; lia..|]. exfalso.
    destruct (Hpicked x) as [Hxt Hx]; [set_solver|].
    destruct (Hpicked y) as [Hyt Hy]; [set_solver|].
    cbn in Hnd. apply NoDup_cons in Hnd as [Hxy _].
    apply not_elem_of_cons in Hxy as [Hxy _].
    pose proof (Htwo target Htarget) as Ht.
    destruct Hx, Hy, Ht; congruence. }
  split; [done|].
  intros r Hr. destruct (decide (char r = char target)) as [?|Hne]; [by left|].
  right. apply Hall; [done|]. rewrite (Hshuffle potential).
  by apply list_elem_of_filter.
Qed.

(** X7. On a pool of three or more items that carry at most two different
    characters, [setupRound] does not complete: the loop that fills up the
    distractors finds no item to add and has no other exit, however many
    draws it makes. *)
Theorem setupRound_never_completes {R : Type} `{Arith R} (rnd : Random R)
    (st : App) :
  (∀ l, distractorOrder rnd l ≡ₚ l) →
  3 ≤ length (wordList st) →
  atMostTwoChars (wordList st) →
  (setupRound rnd st = Spinning ∨ setupRound rnd st = Throws)
  ∧ (Forall (λ draw, is_Some (randomItem draw (wordList st))) (fillDraws rnd) →
     setupRound rnd st = Spinning).
Proof.
  intros Hshuffle Hthree Htwo.
  assert (wordList st ≠ []) as Hpool.
  { intros Heq. rewrite Heq in Hthree. cbn in Hthree. lia. }
  destruct (setupRound_cases rnd st Hpool) as (target & _ & Htarget & ->).
  cbn zeta.
  destruct (pickDistractors_short rnd _ _ Hshuffle Htwo Htarget)
    as (picked & -> & Hshort & Hnone).
  cbn [fst snd].
  destruct (fillDistractors_stuck (fillDraws rnd) (wordList st) target picked
              _ Hshort Hthree Hnone) as [Hstuck Hspin].
  split.
  - destruct Hstuck as [-> | ->]; [by left|by right].
  - intros Hdraws. by rewrite (Hspin Hdraws).
Qed.

Lemma setupRound_never_completes_witness :
  let st := @loadContent sampleConstants
              (sampleApp {[ STORAGE_KEY_INPUT := text ["a:x"; "a:y"; "b:z"] ]}) in
  let rnd : Random Q :=
    {| targetDraw := (1 # 2)%Q; fallbackDraw := 0%Q;
       distractorOrder := reverse;
       fillDraws := [0; 1 # 3; 1 # 2; 2 # 3; 9 # 10]%Q;
       optionOrder := reverse |} in
  length (wordList st) = 3 ∧ setupRound rnd st = Spinning.
Proof.
  cbn zeta.
  set (st := @loadContent sampleConstants
               (sampleApp {[ STORAGE_KEY_INPUT := text ["a:x"; "a:y"; "b:z"] ]})).
  set (rnd := {| targetDraw := (1 # 2)%Q; fallbackDraw := 0%Q;
                 distractorOrder := reverse;
                 fillDraws := [0; 1 # 3; 1 # 2; 2 # 3; 9 # 10]%Q;
                 optionOrder := reverse |} : Random Q).
  assert (length (wordList st) = 3) as Hlen by (vm_compute; reflexivity).
  assert (atMostTwoChars (wordList st)) as Htwo.
  { exists (str "a"), (str "b"). vm_compute.
    repeat (apply Forall_cons; split; [(by left) || (by right)|]).
    apply Forall_nil_2. }
  assert (Forall (λ draw, is_Some (randomItem draw (wordList st))) (fillDraws rnd))
    as Hdraws.
  { vm_compute. repeat constructor; by eexists. }
  split; [exact Hlen|].
  apply (setupRound_never_completes rnd st reverse_Permutation); [lia|exact Htwo|].
  exact Hdraws.
Defined.

(** X8. A pool of fewer than three items. The round always completes, and the
    loop that fills up the distractors is not entered. For the empty pool
    the target is cleared and nothing else changes; otherwise the options
    are the target and the items of the pool with another character, so
    there are one or two options. *)
Theorem setupRound_small_pool {R : Type} `{Arith R} (rnd : Random R) (st : App) :
  (∀ l, distractorOrder rnd l ≡ₚ l) →
  (∀ l, optionOrder rnd l ≡ₚ l) →
  length (wordList st) < 3 →
  (wordList st = [] → setupRound rnd st = Done (setTargetWord None st))
  ∧ (wordList st ≠ [] →
     ∃ target st',
       setupRound rnd st = Done st'
       ∧ targetWord st' = Some target
       ∧ target ∈ wordList st
       ∧ currentOptions st'
         ≡ₚ target :: filter (λ w, char w ≠ char target) (wordList st)
       ∧ 1 ≤ length (currentOptions st') < 3).
Proof.
  intros Hshuffle Horder Hsmall. split.
  { intros Hempty. unfold setupRound, setupRoundWith. by rewrite Hempty. }
  intros Hpool.
  destruct (setupRound_cases rnd st Hpool) as (target & _ & Htarget & ->).
  cbn zeta.
  set (potential := filter (λ w, char w ≠ char target) (wordList st)).
  assert (length potential < 2) as Hone.
  { apply list_elem_of_split in Htarget as (l1 & l2 & Hsplit).
    subst potential. rewrite Hsplit in Hsmall |- *.
    rewrite filter_app, filter_cons_False by (by intros ?).
    rewrite length_app in Hsmall |- *. cbn in Hsmall.
    pose proof (length_filter (λ w, char w ≠ char target) l1).
    pose proof (length_filter (λ w, char w ≠ char target) l2). lia. }
  pose proof (Hshuffle potential) as Hperm.
  assert (pickDistractors (distractorOrder rnd potential) [] ∅
          = (distractorOrder rnd potential,
             list_to_set (char <$> distractorOrder rnd potential))) as Hpick.
  { apply Permutation_length in Hperm.
    destruct (distractorOrder rnd potential) as [|d [|d' ds]];
      [done| |cbn in Hperm; lia].
    cbn [pickDistractors].
    destruct (decide (char d ∈ (∅ : gset jstring))) as [?|_]; [set_solver|].
    destruct (decide _) as [Hlen|_]; [cbn in Hlen; lia|].
    cbn. f_equal; set_solver. }
  rewrite Hpick. cbn [fst snd].
  assert (fillDistractors (fillDraws rnd) (wordList st) target
            (distractorOrder rnd potential)
            (list_to_set (char <$> distractorOrder rnd potential))
          = Done (distractorOrder rnd potential)) as ->.
  { destruct (fillDraws rnd); cbn [fillDistractors];
      (destruct (decide _) as [[_ ?]|_]; [lia|done]). }
  eexists target, _. split; [done|]. cbn.
  pose proof (Horder (target :: distractorOrder rnd potential)) as Hopts.
  split_and!; [done|done| | |].
  - by rewrite Hopts, Hperm.
  - rewrite Hopts. cbn. lia.
  - rewrite Hopts. cbn. rewrite Hperm. lia.
Qed.

Lemma setupRound_small_pool_witness :
  let st := @loadContent sampleConstants
              (sampleApp {[ STORAGE_KEY_INPUT := text ["a:x"; "b:y"] ]}) in
  let rnd : Random Q :=
    {| targetDraw := (1 # 2)%Q; fallbackDraw := 0%Q;
       distractorOrder := reverse; fillDraws := []; optionOrder := reverse |} in
  length (wordList st) = 2
  ∧ ∃ target st', setupRound rnd st = Done st'
      ∧ targetWord st' = Some target
      ∧ length (currentOptions st') = 2.
Proof.
  cbn zeta.
  set (st := @loadContent sampleConstants
               (sampleApp {[ STORAGE_KEY_INPUT := text ["a:x"; "b:y"] ]})).
  set (rnd := {| targetDraw := (1 # 2)%Q; fallbackDraw := 0%Q;
                 distractorOrder := reverse; fillDraws := [];
                 optionOrder := reverse |} : Random Q).
  assert (length (wordList st) = 2) as Hlen by (vm_compute; reflexivity).
  assert (wordList st ≠ []) as Hpool by (vm_compute; discriminate).
  split; [exact Hlen|].
  destruct (setupRound_small_pool rnd st reverse_Permutation reverse_Permutation)
    as [_ Hround]; [lia|].
  destruct (Hround Hpool) as (target & st' & Hdone & Htarget & _ & Hopts & _).
  exists target, st'. split_and!; [exact Hdone|exact Htarget|].
  vm_compute in Hdone. injection Hdone as <-. reflexivity.
Defined.

(** A pool either has three items of pairwise distinct characters, or all
    its items carry one of two characters. *)
Lemma threeDistinctChars_dec (pool : list WordPair) :
  threeDistinctChars pool ∨ atMostTwoChars pool.
Proof.
  destruct pool as [|a pool]; [right; by exists [], []|].
  destruct (decide (Forall (λ w, char w = char a) pool)) as [Hall|Hsome].
  { right. exists (char a), (char a). constructor; [by left|].
    eapply Forall_impl; [exact Hall|]. intros w Hw. by left. }
  apply not_Forall_Exists in Hsome; [|apply _].
  apply Exists_exists in Hsome as (b & Hb & Hab). cbn in Hab.
  destruct (decide (Forall (λ w, char w = char a ∨ char w = char b) pool))
    as [Hall|Hthird].
  { right. exists (char a), (char b). constructor; [by left|done]. }
  apply not_Forall_Exists in Hthird; [|apply _].
  apply Exists_exists in Hthird as (c & Hc & Hnot). cbn in Hnot.
  left. exists a, b, c. split_and!; [by left|by right|by right|congruence| |];
    intros Heq; apply Hnot; [left|right]; congruence.
Qed.

(** A pool with three items of pairwise distinct characters gives a round
    of three options. *)
Lemma setupRound_three {R : Type} `{Arith R} (rnd : Random R) (st : App) :
  (∀ l, distractorOrder rnd l ≡ₚ l) →
  (∀ l, optionOrder rnd l ≡ₚ l) →
  threeDistinctChars (wordList st) →
  ∃ st' target,
    setupRound rnd st = Done st'
    ∧ targetWord st' = Some target
    ∧ target ∈ wordList st
    ∧ length (currentOptions st') = 3.
Proof.
  intros Hshuffle Horder (a & b & c & Ha & Hb & Hc & Hab & Hac & Hbc).
  assert (wordList st ≠ []) as Hpool.
  { intros Heq. rewrite Heq in Ha. by apply elem_of_nil in Ha. }
  destruct (setupRound_cases rnd st Hpool) as (target & _ & Htarget & ->).
  cbn zeta.
  set (potential := filter (λ w, char w ≠ char target) (wordList st)).
  assert (∃ x y, x ∈ distractorOrder rnd potential
                 ∧ y ∈ distractorOrder rnd potential ∧ char x ≠ char y)
    as Htwo.
  { assert (∀ x, x ∈ wordList st → char x ≠ char target →
                 x ∈ distractorOrder rnd potential) as Hkeep.
    { intros x Hx Hne. rewrite (Hshuffle potential).
      by apply list_elem_of_filter. }
    destruct (decide (char a = char target)) as [Hat|Hat];
      [|destruct (decide (char b = char target)) as [Hbt|Hbt]].
    - exists b, c. split_and!; [apply Hkeep; congruence..|done].
    - exists a, c. split_and!; [apply Hkeep; congruence..|done].
    - exists a, b. split_and!; [by apply Hkeep..|done]. }
  destruct (pickDistractors_two _ Htwo) as (d1 & d2 & used & -> & _).
  cbn [fst snd]. rewrite fillDistractors_full by done.
  eexists _, target. split; [done|]. cbn.
  split_and!; [done|done|]. by rewrite (Horder [target; d1; d2]).
Qed.

(** ** Starting the game *)

(** X9. [startGame] counts the items of the content, not their characters.
    With fewer than three items it shows the alert and changes nothing.
    With three or more it makes them the pool, clears the target and shows
    the game, and the effect that follows sets up a round. That round has
    three options when three items have pairwise distinct characters; when
    the items carry at most two characters, which the count does not
    exclude, the round does not complete. One of the two is the case. *)
Theorem startGame_round {R : Type} `{Arith R} (rnd : Random R) (v : Screen) :
  (∀ l, distractorOrder rnd l ≡ₚ l) →
  (∀ l, optionOrder rnd l ≡ₚ l) →
  let parsed := parseInputData (inputText (game v)) in
  (length parsed < 3 → startGame v = (v, true))
  ∧ (3 ≤ length parsed →
     ∃ v', startGame v = (v', false)
       ∧ gameState v' = PLAYING
       ∧ game v' = setTargetWord None (setWordList parsed (game v))
       ∧ (threeDistinctChars parsed →
          ∃ v'' target,
            roundEffect rnd v' = Done v''
            ∧ targetWord (game v'') = Some target
            ∧ target ∈ parsed
            ∧ length (currentOptions (game v'')) = 3)
       ∧ (atMostTwoChars parsed →
          roundEffect rnd v' = Spinning ∨ roundEffect rnd v' = Throws)
       ∧ (threeDistinctChars parsed ∨ atMostTwoChars parsed)).
Proof.
  intros Hshuffle Horder parsed. unfold startGame. fold parsed. split.
  { intros Hfew. by destruct (decide _). }
  intros Hthree. destruct (decide _) as [?|_]; [lia|].
  eexists. split; [done|]. cbn [gameState game].
  set (st := setTargetWord None (setWordList parsed (game v))).
  assert (wordList st = parsed) as Hlist by done.
  assert (roundEffect rnd {| game := st; gameState := PLAYING; errorMessage := None |}
          = match setupRound rnd st with
            | Done st' => Done {| game := st'; gameState := PLAYING;
                                  errorMessage := None |}
            | Throws => Throws
            | Spinning => Spinning
            end) as Heffect.
  { unfold roundEffect. cbn [gameState game errorMessage].
    destruct (decide _) as [_|Hnot]; [done|].
    exfalso. apply Hnot. rewrite Hlist. split_and!; [done|lia|done]. }
  split_and!; [done|done| | |apply threeDistinctChars_dec].
  - intros Hchars. rewrite <- Hlist in Hchars.
    destruct (setupRound_three rnd st Hshuffle Horder Hchars)
      as (st' & target & Hround & Htarget & Hin & Hlen).
    rewrite Heffect, Hround. eexists _, target. split; [done|].
    cbn [game]. by rewrite <- Hlist.
  - intros Hchars. rewrite <- Hlist in Hchars, Hthree. rewrite Heffect.
    assert (wordList st ≠ []) as Hpool.
    { intros Heq. rewrite Heq in Hthree. cbn in Hthree. lia. }
    destruct (setupRound_cases rnd st Hpool) as (target & _ & Htarget & ->).
    cbn zeta.
    destruct (pickDistractors_short rnd _ _ Hshuffle Hchars Htarget)
      as (picked & -> & Hshort & Hnone).
    cbn [fst snd].
    destruct (fillDistractors_stuck (fillDraws rnd) (wordList st) target picked
                _ Hshort Hthree Hnone) as [[-> | ->] _]; [by left|by right].
Qed.

Lemma startGame_round_witness :
  let v := {| game := setInputText (text ["a:x"; "a:y"; "b:z"]) (sampleApp ∅);
              gameState := SETUP; errorMessage := None |} in
  let rnd : Random Q :=
    {| targetDraw := (1 # 2)%Q; fallbackDraw := 0%Q;
       distractorOrder := reverse;
       fillDraws := [0; 1 # 3; 1 # 2; 2 # 3; 9 # 10]%Q;
       optionOrder := reverse |} in
  (startGame v).2 = false
  ∧ gameState (startGame v).1 = PLAYING
  ∧ (roundEffect rnd (startGame v).1 = Spinning
     ∨ roundEffect rnd (startGame v).1 = Throws).
Proof.
  cbn zeta.
  set (v := {| game := setInputText (text ["a:x"; "a:y"; "b:z"]) (sampleApp ∅);
               gameState := SETUP; errorMessage := None |}).
  set (rnd := {| targetDraw := (1 # 2)%Q; fallbackDraw := 0%Q;
                 distractorOrder := reverse;
                 fillDraws := [0; 1 # 3; 1 # 2; 2 # 3; 9 # 10]%Q;
                 optionOrder := reverse |} : Random Q).
  assert (3 ≤ length (parseInputData (inputText (game v)))) as Hthree.
  { vm_compute. lia. }
  assert (atMostTwoChars (parseInputData (inputText (game v)))) as Htwo.
  { exists (str "a"), (str "b"). vm_compute.
    repeat (apply Forall_cons; split; [(by left) || (by right)|]).
    apply Forall_nil_2. }
  destruct (startGame_round rnd v reverse_Permutation reverse_Permutation)
    as [_ Hstart].
  destruct (Hstart Hthree) as (v' & Hv' & Hplaying & _ & _ & Hstuck & _).
  rewrite Hv'. cbn [fst snd]. split_and!; [reflexivity|exact Hplaying|].
  exact (Hstuck Htwo).
Defined.

(** ** The state in memory and the store *)

Lemma parseInt_toString n : parseInt (number_toString n) = n.
Proof. destruct n as [|z]; [by vm_compute|]. apply parseInt_number_toString. Qed.

Lemma number_toString_ne n : number_toString n ≠ [].
Proof. destruct n as [|z]; [by vm_compute|]. apply number_toString_nonempty. Qed.

Lemma read_toString n fallback :
  parseInt (orElse (Some (number_toString n)) fallback) = n.
Proof.
  rewrite orElse_present by apply number_toString_ne. apply parseInt_toString.
Qed.

Lemma asWordStat_statValue s : asWordStat (statValue s) = Some s.
Proof. destruct s as [[|c] [|i] [|k]]; vm_compute; reflexivity. Qed.

Lemma jsonImage_statValue s : jsonImage (statValue s) = statValue s.
Proof. destruct s as [c i k]. reflexivity. Qed.

Lemma jsonImage_statsValue stats : jsonImage (statsValue stats) = statsValue stats.
Proof.
  unfold statsValue. rewrite jsonImage_obj. f_equal.
  induction (map_to_list stats) as [|[c s] l IH]; [done|].
  rewrite fmap_cons. unfold prod_map at 1. cbn [fst snd].
  by rewrite jsonEntries_cons, jsonImage_statValue, IH.
Qed.

(** The ledger read back from the object the application prints. *)
Lemma asWordStats_statsValue stats :
  asWordStats (jsonImage (statsValue stats)) = stats.
Proof.
  rewrite jsonImage_statsValue. unfold statsValue, asWordStats.
  assert (omap (λ kv : jstring * value, pair kv.1 <$> asWordStat kv.2)
            (reverse (prod_map (λ c, c) statValue <$> map_to_list stats))
          = reverse (map_to_list stats)) as ->.
  { rewrite <- fmap_reverse.
    induction (reverse (map_to_list stats)) as [|[c s] l IH]; [done|].
    cbn -[asWordStat statValue]. by rewrite asWordStat_statValue, IH. }
  symmetry. apply list_to_map_flip. symmetry. apply reverse_Permutation.
Qed.

Ltac store_lookup :=
  repeat (rewrite lookup_insert_eq || rewrite lookup_insert_ne by done).

(** The counters after [loadProgress] are the ones the store now holds. *)
Lemma loadProgress_synced clock st :
  (∃ c s, localStorage st !! STORAGE_KEY_LAST_DATE = Some (c :: s))
  ∨ parseInt (orElse (localStorage st !! STORAGE_KEY_STREAK) (str "0")) = Num 0 →
  let st' := loadProgress clock st in
  let ls' := localStorage st' in
  score st' = parseInt (orElse (ls' !! STORAGE_KEY_TOTAL_SCORE) (str "0"))
  ∧ dailyGoal st'
    = match ls' !! STORAGE_KEY_GOAL with
      | Some (c :: s) => parseInt (c :: s)
      | _ => dailyGoal st
      end
  ∧ dailyProgress st' = parseInt (orElse (ls' !! STORAGE_KEY_PROGRESS) (str "0"))
  ∧ streak st' = parseInt (orElse (ls' !! STORAGE_KEY_STREAK) (str "0"))
  ∧ goalMetToday st'
    = bool_decide (ls' !! STORAGE_KEY_GOAL_MET = Some (str "true"))
  ∧ inputText st' = inputText st
  ∧ learnedText st' = learnedText st
  ∧ wordStats st' = wordStats st
  ∧ wordList st' = wordList st
  ∧ (∀ key, key ∉ [STORAGE_KEY_PROGRESS; STORAGE_KEY_GOAL_MET;
                   STORAGE_KEY_LAST_DATE; STORAGE_KEY_STREAK] →
       ls' !! key = localStorage st !! key).
Proof.
  intros Hdated. cbn zeta.
  assert (∀ key, key ∉ [STORAGE_KEY_PROGRESS; STORAGE_KEY_GOAL_MET;
                        STORAGE_KEY_LAST_DATE; STORAGE_KEY_STREAK] →
            localStorage (loadProgress clock st) !! key = localStorage st !! key)
    as Hframe by (intros key Hkey; by apply loadProgress_storage).
  revert Hframe. unfold loadProgress.
  set (ls := localStorage st) in *.
  destruct (ls !! STORAGE_KEY_GOAL) as [[|cg sg]|] eqn:Hgoal;
    (destruct (decide (ls !! STORAGE_KEY_LAST_DATE = Some (toDateString clock)))
       as [Hsame|Hother];
     [ cbn -[parseInt orElse]; fold ls; rewrite ?Hgoal; done |]);
    (destruct (ls !! STORAGE_KEY_LAST_DATE) as [[|cd sd]|] eqn:Hlast;
     [ | destruct (ngt _ _ && negb _) | ]);
    cbn -[parseInt orElse]; fold ls; store_lookup; rewrite ?Hgoal;
    intros Hframe;
    (split_and!; try done;
     (destruct Hdated as [(? & ? & ?)|Hzero]; [done|by rewrite Hzero])).
Qed.

Lemma loadStats_fields `{JSON} st :
  wordStats (loadStats st)
  = match localStorage st !! STORAGE_KEY_STATS with
    | Some (c :: s) =>
        match JSON_parse (c :: s) with
        | Some parsed => asWordStats parsed
        | None => wordStats st
        end
    | _ => wordStats st
    end
  ∧ inputText (loadStats st) = inputText st
  ∧ learnedText (loadStats st) = learnedText st
  ∧ wordList (loadStats st) = wordList st
  ∧ score (loadStats st) = score st
  ∧ dailyGoal (loadStats st) = dailyGoal st
  ∧ dailyProgress (loadStats st) = dailyProgress st
  ∧ streak (loadStats st) = streak st
  ∧ goalMetToday (loadStats st) = goalMetToday st
  ∧ localStorage (loadStats st) = localStorage st.
Proof.
  unfold loadStats.
  destruct (localStorage st !! STORAGE_KEY_STATS) as [[|c s]|]; [done| |done].
  by destruct (JSON_parse (c :: s)).
Qed.

Lemma loadContent_fields `{Constants} st :
  inputText (loadContent st)
  = default DEFAULT_DATA (localStorage st !! STORAGE_KEY_INPUT)
  ∧ learnedText (loadContent st)
    = match localStorage st !! STORAGE_KEY_LEARNED with
      | Some (c :: s) => c :: s
      | _ => learnedText st
      end
  ∧ wordList (loadContent st) = parseInputData (inputText (loadContent st))
  ∧ wordStats (loadContent st) = wordStats st
  ∧ score (loadContent st) = score st
  ∧ dailyGoal (loadContent st) = dailyGoal st
  ∧ dailyProgress (loadContent st) = dailyProgress st
  ∧ streak (loadContent st) = streak st
  ∧ goalMetToday (loadContent st) = goalMetToday st
  ∧ localStorage (loadContent st) = localStorage st.
Proof.
  unfold loadContent.
  destruct (localStorage st !! STORAGE_KEY_LEARNED) as [[|c s]|];
    by destruct (localStorage st !! STORAGE_KEY_INPUT).
Qed.

(** A mount leaves the memory in step with the store. *)
Lemma synced_mount `{Constants} `{JSON} clock ls :
  (∃ c s, ls !! STORAGE_KEY_LAST_DATE = Some (c :: s))
  ∨ parseInt (orElse (ls !! STORAGE_KEY_STREAK) (str "0")) = Num 0 →
  synced (mount clock (initialApp ls)).
Proof.
  intros Hdated. unfold mount.
  destruct (loadProgress_synced clock (initialApp ls) Hdated)
    as (Hscore & Hgoal & Hprogress & Hstreak & Hmet & Hinput & Hlearned
        & Hstats & _ & Hframe).
  set (st1 := loadProgress clock (initialApp ls)) in *.
  destruct (loadStats_fields st1)
    as (Hstats2 & Hinput2 & Hlearned2 & _ & Hscore2 & Hgoal2 & Hprogress2
        & Hstreak2 & Hmet2 & Hls2).
  set (st2 := loadStats st1) in *.
  destruct (loadContent_fields st2)
    as (Hinput3 & Hlearned3 & _ & Hstats3 & Hscore3 & Hgoal3 & Hprogress3
        & Hstreak3 & Hmet3 & Hls3).
  split; rewrite Hls3, Hls2.
  - by rewrite Hinput3, Hls2.
  - rewrite Hlearned3, Hls2, Hlearned2, Hlearned.
    by destruct (localStorage st1 !! STORAGE_KEY_LEARNED) as [[|c s]|].
  - rewrite Hstats3, Hstats2, Hstats. unfold storedLedger.
    destruct (localStorage st1 !! STORAGE_KEY_STATS) as [[|c s]|]; [done| |done].
    by destruct (JSON_parse (c :: s)).
  - by rewrite Hscore3, Hscore2.
  - by rewrite Hgoal3, Hgoal2, Hgoal.
  - by rewrite Hprogress3, Hprogress2.
  - by rewrite Hstreak3, Hstreak2.
  - by rewrite Hmet3, Hmet2.
Qed.

Lemma synced_persistent `{Constants} `{JSON} st st' :
  persistent st' = persistent st → synced st → synced st'.
Proof.
  unfold persistent. intros [= Hi Hl Hw Hs Hg Hp Hk Hm Hls] [].
  split; rewrite Hls; congruence.
Qed.

Lemma storedLedger_printed `{JSON} stats :
  readsLedgers →
  storedLedger (Some (JSON_stringify (statsValue stats))) = stats.
Proof.
  intros Hcodec. destruct (Hcodec stats) as (c & s & -> & Hparse).
  unfold storedLedger. rewrite Hparse. apply asWordStats_statsValue.
Qed.

Lemma synced_answer `{Constants} `{JSON} clock selected st :
  readsLedgers → synced st →
  synced (handleOptionClick clock selected st).1.
Proof.
  intros Hcodec [Hi Hl Hw Hs Hg Hp Hk Hm]. unfold handleOptionClick.
  destruct (targetWord st) as [target|]; [|done].
  destruct (isPlayingAudio st || bool_decide (feedback st = FeedbackCorrect));
    [done|].
  destruct (decide (id selected = id target)) as [Hid|Hid]; cbn [fst].
  - unfold updateProgress.
    destruct (nge _ _ && negb _) eqn:Hreached;
      split; cbn -[parseInt orElse number_toString statsOnCorrect statsValue];
      store_lookup; rewrite ?read_toString, ?storedLedger_printed by done;
      done.
  - split; cbn -[parseInt orElse number_toString statsOnIncorrect statsValue];
      store_lookup; rewrite ?storedLedger_printed by done; done.
Qed.

Lemma synced_content `{Constants} `{JSON} newInput newLearned st :
  synced st → synced (saveContentSettings newInput newLearned st).
Proof.
  intros [Hi Hl Hw Hs Hg Hp Hk Hm]. unfold saveContentSettings.
  split; cbn -[parseInt orElse]; store_lookup; try done.
  by destruct newLearned.
Qed.

Lemma synced_mastery `{Constants} `{JSON} w st :
  synced st → synced (handleMastery w st).
Proof.
  intros Hsynced. unfold handleMastery.
  destruct (list_find _ _) as [[lineIndex line]|].
  - match goal with
    | |- synced (setWordList _ ?saved) =>
        apply (synced_persistent saved); [reflexivity|]
    end.
    apply synced_content. by apply (synced_persistent st).
  - by apply (synced_persistent st).
Qed.

Lemma synced_goal_change `{Constants} `{JSON} val st :
  synced st → synced (saveGoalSetting val st).
Proof.
  intros [Hi Hl Hw Hs Hg Hp Hk Hm]. unfold saveGoalSetting.
  split; cbn -[parseInt orElse number_toString]; store_lookup; try done.
  pose proof (number_toString_ne val) as Hne.
  destruct (number_toString val) as [|c s] eqn:Htext; [done|].
  rewrite <- Htext. by rewrite parseInt_toString.
Qed.

(** A round changes the target, the options and the feedback only. *)
Lemma setupRoundWith_frame {R : Type} `{Arith R} (rnd : Random R) stats st st' :
  setupRoundWith rnd stats st = Done st' →
  persistent st' = persistent st ∧ wordList st' = wordList st.
Proof.
  unfold setupRoundWith.
  destruct (wordList st) as [|first rest] eqn:Hpool.
  { intros [= <-]. by rewrite <- Hpool. }
  destruct (selectTarget rnd stats (first :: rest)) as [target|]; [|done].
  destruct (pickDistractors _ _ _) as [sel used].
  destruct (fillDistractors _ _ _ _ _) as [sel'| |]; [|done..].
  intros [= <-]. by rewrite <- Hpool.
Qed.

Lemma setupRound_persistent {R : Type} `{Arith R} (rnd : Random R) st st' :
  setupRound rnd st = Done st' → persistent st' = persistent st.
Proof. intros Hround. by apply setupRoundWith_frame in Hround as [? _]. Qed.

(** Every callback keeps the memory in step with the store. *)
Lemma synced_step `{Constants} `{JSON} v v' :
  readsLedgers → step v v' → synced (game v) → synced (game v').
Proof.
  intros Hcodec Hstep Hsynced.
  destruct Hstep as [clock selected v|w v|R arith rnd stats v st' Hround|v
                     |playing v|failed v|v|v|value v|val v|val v|v|v];
    cbn [game onGame].
  - by apply synced_answer.
  - by apply synced_mastery.
  - apply (synced_persistent (game v)); [|done].
    by apply setupRoundWith_frame in Hround as [? _].
  - by apply (synced_persistent (game v)).
  - destruct playing; [done|]. by apply (synced_persistent (game v)).
  - by apply (synced_persistent (game v)).
  - by apply (synced_persistent (game v)).
  - by apply (synced_persistent (game v)).
  - by apply synced_goal_change.
  - by apply synced_content.
  - by apply synced_content.
  - unfold startGame. destruct (decide _); [done|].
    by apply (synced_persistent (game v)).
  - done.
Qed.


(** A mount on the day of the stored date restores what is in step. *)
Lemma synced_reopen `{Constants} `{JSON} clock st :
  synced st →
  localStorage st !! STORAGE_KEY_LAST_DATE = Some (toDateString clock) →
  persistent (mount clock (initialApp (localStorage st))) = persistent st.
Proof.
  intros [Hi Hl Hw Hs Hg Hp Hk Hm] Hdate. unfold mount.
  set (st0 := initialApp (localStorage st)).
  assert (localStorage st0 = localStorage st) as Hls0 by done.
  destruct (loadProgress_same_day clock st0) as (Hstreak & Hprogress & Hmet & Hls1);
    [by rewrite Hls0|].
  pose proof (loadProgress_score clock st0) as Hscore.
  pose proof (loadProgress_goal clock st0) as Hgoal.
  assert (inputText (loadProgress clock st0) = inputText st0
          ∧ learnedText (loadProgress clock st0) = learnedText st0
          ∧ wordStats (loadProgress clock st0) = wordStats st0)
    as (Hinput & Hlearned & Hstats).
  { unfold loadProgress. rewrite Hls0, Hdate.
    destruct (decide _) as [_|?]; [|done].
    by destruct (localStorage st !! STORAGE_KEY_GOAL) as [[|c s]|]. }
  set (st1 := loadProgress clock st0) in *.
  destruct (loadStats_fields st1)
    as (Hstats2 & Hinput2 & Hlearned2 & _ & Hscore2 & Hgoal2 & Hprogress2
        & Hstreak2 & Hmet2 & Hls2).
  set (st2 := loadStats st1) in *.
  destruct (loadContent_fields st2)
    as (Hinput3 & Hlearned3 & _ & Hstats3 & Hscore3 & Hgoal3 & Hprogress3
        & Hstreak3 & Hmet3 & Hls3).
  rewrite Hls0 in *. unfold persistent.
  rewrite Hinput3, Hlearned3, Hstats3, Hscore3, Hgoal3, Hprogress3, Hstreak3,
    Hmet3, Hls3, Hls2, Hlearned2, Hstats2, Hscore2, Hgoal2, Hprogress2,
    Hstreak2, Hmet2, Hls1, Hlearned, Hstats, Hscore, Hgoal, Hprogress, Hstreak,
    Hmet, Hi, Hl, Hw, Hs, Hg, Hp, Hk, Hm.
  by repeat f_equal.
Qed.

(** X10. From a store that is fresh or that the application wrote, and through
    any sequence of answers, timers, rounds and Setup edits that stays
    within the integers a double holds exactly (2^53 in magnitude, for the
    counters and the counts of the ledger) and whose targets have characters
    that are not names of inherited members, nothing of the progress is
    held in memory only: a component mounted anew on the store, on the day
    of the stored date, has the same content, learned text, ledger, score,
    goal, progress, streak and goal flag, its pool is the parsed content,
    and the mount leaves the store as it is. *)
Theorem reopen_restores `{Constants} `{JSON} (ls : gmap string jstring)
    (clock0 clock : Clock) (v : Screen) :
  readsLedgers →
  writtenByApp ls →
  withinRange (game (mounted clock0 ls)) →
  rtc stepWithin (mounted clock0 ls) v →
  localStorage (game v) !! STORAGE_KEY_LAST_DATE = Some (toDateString clock) →
  let st := game v in
  let st' := game (mounted clock (localStorage st)) in
  inputText st' = inputText st
  ∧ learnedText st' = learnedText st
  ∧ wordStats st' = wordStats st
  ∧ score st' = score st
  ∧ dailyGoal st' = dailyGoal st
  ∧ dailyProgress st' = dailyProgress st
  ∧ streak st' = streak st
  ∧ goalMetToday st' = goalMetToday st
  ∧ localStorage st' = localStorage st
  ∧ wordList st' = parseInputData (inputText st).
Proof.
  intros Hcodec [_ Hdated] _ Hrun Hdate. cbn zeta.
  assert (synced (game v)) as Hsynced.
  { clear Hdate. revert v Hrun.
    apply (rtc_ind_r (λ v, synced (game v))).
    - by apply synced_mount.
    - intros v1 v2 _ [Hstep _] IH. by eapply synced_step. }
  pose proof (synced_reopen clock (game v) Hsynced Hdate) as Hsame.
  change (game (mounted clock (localStorage (game v))))
    with (mount clock (initialApp (localStorage (game v)))).
  unfold persistent in Hsame.
  injection Hsame as Hi Hl Hw Hs Hg Hp Hk Hm Hls.
  split_and!; try done.
  unfold mount.
  destruct (loadContent_fields
              (loadStats (loadProgress clock (initialApp (localStorage (game v))))))
    as (_ & _ & -> & _).
  by rewrite <- Hi.
Qed.

Lemma ledgerCodec_readsLedgers : @readsLedgers ledgerCodec.
Proof.
  intros stats.
  assert (asWordStats (statsValue stats) = stats) as Hview.
  { rewrite <- (jsonImage_statsValue stats). apply asWordStats_statsValue. }
  eexists _, _. split; [reflexivity|].
  cbn [JSON_parse ledgerCodec].
  by rewrite Hview, decode_encode, jsonImage_statsValue.
Qed.

(** A state is within the range when its counters, its ledger and its
    target are. *)
Lemma withinRange_intro (st : App) (n1 n2 n3 n4 : number)
    (stats : gmap jstring WordStat) (target : option WordPair) :
  score st = n1 → dailyGoal st = n2 → dailyProgress st = n3 → streak st = n4 →
  wordStats st = stats → targetWord st = target →
  exactNumber n1 → exactNumber n2 → exactNumber n3 → exactNumber n4 →
  map_Forall (λ _ s, exactCount (correct s) ∧ exactCount (incorrect s)
                     ∧ exactCount (consecutiveCorrect s)) stats →
  (∀ t, target = Some t → ledgerName (char t)) →
  withinRange st.
Proof. intros <- <- <- <- <- <-. by split. Qed.

Lemma reopen_restores_witness :
  let rnd : Random Q :=
    {| targetDraw := 0%Q; fallbackDraw := 0%Q;
       distractorOrder := λ l, l; fillDraws := []; optionOrder := λ l, l |} in
  let a := {| id := str "word-a-0"; char := str "a"; word := str "apple" |} in
  let v0 := @mounted sampleConstants ledgerCodec mondayAtTen ∅ in
  ∃ st1,
    setupRound rnd (game v0) = Done st1
    ∧ targetWord st1 = Some a
    ∧ let st2 := (@handleOptionClick ledgerCodec mondayAtTen a st1).1 in
      score st2 = Num 1
      ∧ score (game (@mounted sampleConstants ledgerCodec mondayAtTen
                       (localStorage st2))) = Num 1
      ∧ wordStats (game (@mounted sampleConstants ledgerCodec mondayAtTen
                           (localStorage st2))) = wordStats st2.
Proof.
  cbn zeta.
  set (rnd := {| targetDraw := 0%Q; fallbackDraw := 0%Q;
                 distractorOrder := λ l, l; fillDraws := [];
                 optionOrder := λ l, l |} : Random Q).
  set (a := {| id := str "word-a-0"; char := str "a"; word := str "apple" |}).
  set (v0 := @mounted sampleConstants ledgerCodec mondayAtTen ∅).
  destruct (setupRound rnd (game v0)) as [st1| |] eqn:Hround;
    [|vm_compute in Hround; discriminate..].
  assert (targetWord st1 = Some a) as Htarget.
  { vm_compute in Hround. injection Hround as <-. reflexivity. }
  exists st1. split; [reflexivity|]. split; [exact Htarget|].
  set (v1 := onGame (λ _, st1) v0).
  set (v2 := onGame (λ st, (@handleOptionClick ledgerCodec mondayAtTen a st).1) v1).
  assert (@writtenByApp ledgerCodec ∅) as Hfresh.
  { split; [by left|right; vm_compute; reflexivity]. }
  assert (ledgerName (char a)) as Hname.
  { apply (bool_decide_unpack _). vm_compute. exact I. }
  assert (withinRange (game v0)) as Hrange0.
  { apply (withinRange_intro _ (Num 0) (Num 10) (Num 0) (Num 0) ∅ None);
      [vm_compute; reflexivity..|vm_compute; discriminate|vm_compute; discriminate
       |vm_compute; discriminate|vm_compute; discriminate|apply map_Forall_empty
       |discriminate]. }
  assert (withinRange (game v1)) as Hrange1.
  { cbn [game onGame v1]. vm_compute in Hround. injection Hround as <-.
    apply (withinRange_intro _ (Num 0) (Num 10) (Num 0) (Num 0) ∅ (Some a));
      [vm_compute; reflexivity..|vm_compute; discriminate|vm_compute; discriminate
       |vm_compute; discriminate|vm_compute; discriminate|apply map_Forall_empty|].
    intros target [= <-]. exact Hname. }
  assert (withinRange (game v2)) as Hrange2.
  { cbn [game onGame v2 v1]. unfold handleOptionClick. rewrite Htarget.
    vm_compute in Hround. injection Hround as <-.
    apply (withinRange_intro _ (Num 1) (Num 10) (Num 1) (Num 0)
             {[ str "a" := {| correct := 1; incorrect := 0;
                              consecutiveCorrect := 1 |} ]}
             (Some a));
      [vm_compute; reflexivity..|vm_compute; discriminate|vm_compute; discriminate
       |vm_compute; discriminate|vm_compute; discriminate| |].
    - apply map_Forall_singleton. repeat split; vm_compute; discriminate.
    - intros target [= <-]. exact Hname. }
  assert (rtc (@stepWithin sampleConstants ledgerCodec) v0 v2) as Hrun.
  { eapply rtc_l.
    - split; [exact (step_round rnd _ v0 st1 Hround)|exact Hrange1].
    - apply rtc_once. split; [apply step_answer|exact Hrange2]. }
  assert (localStorage (game v2) !! STORAGE_KEY_LAST_DATE
          = Some (toDateString mondayAtTen)) as Hdate.
  { cbn [game onGame v2 v1]. unfold handleOptionClick. rewrite Htarget.
    vm_compute in Hround. injection Hround as <-. vm_compute. reflexivity. }
  destruct (@reopen_restores sampleConstants ledgerCodec ∅ mondayAtTen
              mondayAtTen v2 ledgerCodec_readsLedgers Hfresh Hrange0 Hrun Hdate)
    as (_ & _ & Hstats & Hscore & _).
  cbn [game onGame v2 v1] in Hstats, Hscore.
  assert (score (@handleOptionClick ledgerCodec mondayAtTen a st1).1 = Num 1)
    as Hone.
  { unfold handleOptionClick. rewrite Htarget.
    vm_compute in Hround. injection Hround as <-. vm_compute. reflexivity. }
  split_and!; [exact Hone| |exact Hstats].
  rewrite Hscore. exact Hone.
Defined.

(** ** An import that throws part-way *)

Lemma restoreField_throws key field text ls ls' :
  restoreField key field text ls = (ls', None) →
  ls' = ls ∧ field ≠ VUndefined ∧ text field = None.
Proof.
  unfold restoreField, storeItem, eret, ethrow.
  destruct field; try done; (destruct (text _) as [txt|]; [done|]);
    by intros [= <-].
Qed.

(** The writes of a restore that throws: those before the field whose text
    cannot be made are done, the others are not. *)
Lemma restoreAll_throws table : ∀ ls ls',
  NoDup table.*1.*1 →
  restoreAll table ls = (ls', None) →
  ∃ done_ failed rest,
    table = done_ ++ failed :: rest
    ∧ failed.1.2 ≠ VUndefined
    ∧ failed.2 failed.1.2 = None
    ∧ Forall (restoredFrom ls ls') done_
    ∧ ∀ key, key ∉ done_.*1.*1 → ls' !! key = ls !! key.
Proof.
  induction table as [|[[key field] text] table IH]; intros ls ls' Hnd Hrun.
  - done.
  - cbn [restoreAll foldr fst snd] in Hrun. unfold ebind in Hrun at 1.
    cbn [fmap list_fmap fst] in Hnd. apply NoDup_cons in Hnd as [Hfresh Hnd].
    destruct (restoreField key field text ls) as [ls1 [[]|]] eqn:Hfield.
    + apply restoreField_ok in Hfield as [Hkey Hother].
      destruct (IH ls1 ls' Hnd Hrun)
        as (done_ & failed & rest & -> & Hdef & Hnone & Hall & Hframe).
      exists ((key, field, text) :: done_), failed, rest.
      assert (key ∉ done_.*1.*1) as Hfresh'.
      { intros Hin. apply Hfresh. rewrite !fmap_app. apply elem_of_app. by left. }
      split_and!; [done|done|done| |].
      * constructor.
        -- unfold restoredFrom. cbn [fst snd]. rewrite (Hframe key Hfresh'), Hkey.
           by destruct field.
        -- apply Forall_forall. intros e He.
           rewrite Forall_forall in Hall. specialize (Hall e He).
           unfold restoredFrom in *. rewrite Hall.
           destruct e.1.2; try done.
           apply Hother. intros Heq. apply Hfresh'. rewrite <- Heq.
           apply (list_elem_of_fmap_2 fst), (list_elem_of_fmap_2 fst), He.
      * intros key' Hnot. cbn [fmap list_fmap fst] in Hnot.
        apply not_elem_of_cons in Hnot as [Hne Hnot].
        rewrite Hframe by done. by apply Hother.
    + injection Hrun as <-.
      apply restoreField_throws in Hfield as (-> & Hdef & Hnone).
      exists [], (key, field, text), table. split_and!; try done.
Qed.

(** X11. An import in which a write throws. The fields are written in the order
    of the restore block up to the first one whose text cannot be made (a
    [null] counter; an object that hides [toString]); the keys before it
    hold the text of their fields, every other key keeps its value, and the
    handler ends in its [catch]: the state in memory is not reloaded. *)
Theorem handleFileChange_write_throws `{Constants} `{JSON} (clock : Clock)
    (parsed : option value) (st : App) (d : value) (ls' : gmap string jstring) :
  payloadData parsed = Some d →
  restore d (localStorage st) = (ls', None) →
  handleFileChange clock parsed st = setLocalStorage ls' st
  ∧ ∃ written failed rest,
      restoreTable d = written ++ failed :: rest
      ∧ failed.1.2 ≠ VUndefined
      ∧ failed.2 failed.1.2 = None
      ∧ Forall (restoredFrom (localStorage st) ls') written
      ∧ ∀ key, key ∉ written.*1.*1 → ls' !! key = localStorage st !! key.
Proof.
  unfold payloadData, handleFileChange.
  destruct (parsed ≫= _) as [d0|]; [|done].
  destruct (truthy d0) eqn:Htruthy; [|done]. intros [= ->] Hrun.
  rewrite Hrun. split; [done|].
  by apply restoreAll_throws; [apply restoreTable_keys|].
Qed.

Lemma handleFileChange_write_throws_witness :
  let st := sampleApp {[ STORAGE_KEY_INPUT := text ["a:x"; "b:y"; "c:z"];
                         STORAGE_KEY_TOTAL_SCORE := str "7" ]} in
  let d := VObj [(str "input", VStr (str "q:r")); (str "totalScore", VNull);
                 (str "streak", VNum (Num 3))] in
  let st' := @handleFileChange sampleConstants emptyLedgerJSON mondayAtTen
               (Some (VObj [(str "data", d)])) st in
  localStorage st' !! STORAGE_KEY_INPUT = Some (str "q:r")
  ∧ localStorage st' !! STORAGE_KEY_TOTAL_SCORE = Some (str "7")
  ∧ localStorage st' !! STORAGE_KEY_STREAK = None
  ∧ inputText st' = inputText st.
Proof.
  cbn zeta.
  set (st := sampleApp {[ STORAGE_KEY_INPUT := text ["a:x"; "b:y"; "c:z"];
                          STORAGE_KEY_TOTAL_SCORE := str "7" ]}).
  set (d := VObj [(str "input", VStr (str "q:r")); (str "totalScore", VNull);
                  (str "streak", VNum (Num 3))]).
  set (parsed := Some (VObj [(str "data", d)])).
  assert (payloadData parsed = Some d) as Hdata by reflexivity.
  assert (@restore emptyLedgerJSON d (localStorage st)
          = (<[STORAGE_KEY_INPUT := str "q:r"]> (localStorage st), None)) as Hrun
    by reflexivity.
  destruct (@handleFileChange_write_throws sampleConstants emptyLedgerJSON
              mondayAtTen parsed st d _ Hdata Hrun) as [-> _].
  cbn [localStorage setLocalStorage inputText].
  split_and!; [by rewrite lookup_insert_eq|..|reflexivity];
    rewrite lookup_insert_ne by done; vm_compute; reflexivity.
Defined.

Lemma restoreField_defined key field text :
  field ≠ VUndefined → restoreField key field text = storeItem key (text field).
Proof. by destruct field. Qed.

Lemma jsonImage_counter n :
  jsonImage (VNum n) = match n with NaN => VNull | Num z => VNum (Num z) end.
Proof. by destruct n. Qed.

Lemma nonNumeric_counter saved fallback s :
  saved = Some s → startsNonNumeric s = true →
  parseInt (orElse saved fallback) = NaN.
Proof.
  intros -> Hs. rewrite orElse_present by by apply startsNonNumeric_nonempty.
  by apply parseInt_nonNumeric.
Qed.

(** X12. The backup of a store in which a counter is not a number cannot be
    restored. The export writes the counter as [null]; the import, on any
    device, writes the content, the learned text and the ledger, throws at
    the counter, and ends in its [catch]: the progress of the day, the date
    and the goal flag of the backup are not restored, and the state in
    memory is not reloaded. *)
Theorem backup_with_nonNumeric_counter `{Constants} `{JSON}
    (clock clock' : Clock) (st st2 : App) (stats : value) (key : string)
    (s : jstring) :
  key ∈ [STORAGE_KEY_TOTAL_SCORE; STORAGE_KEY_STREAK; STORAGE_KEY_GOAL;
         STORAGE_KEY_PROGRESS] →
  localStorage st !! key = Some s →
  startsNonNumeric s = true →
  JSON_parse (orElse (localStorage st !! STORAGE_KEY_STATS) (str "{}"))
    = Some stats →
  stats ≠ VUndefined →
  ∃ doc ls',
    backupDocument clock st = Some doc
    ∧ handleFileChange clock' (Some doc) st2 = setLocalStorage ls' st2
    ∧ ls' !! STORAGE_KEY_INPUT
      = Some (orElse (localStorage st !! STORAGE_KEY_INPUT) DEFAULT_DATA)
    ∧ ls' !! STORAGE_KEY_LEARNED
      = Some (orElse (localStorage st !! STORAGE_KEY_LEARNED) [])
    ∧ ls' !! STORAGE_KEY_STATS = Some (JSON_stringify (jsonImage stats))
    ∧ ls' !! STORAGE_KEY_PROGRESS = localStorage st2 !! STORAGE_KEY_PROGRESS
    ∧ ls' !! STORAGE_KEY_LAST_DATE = localStorage st2 !! STORAGE_KEY_LAST_DATE
    ∧ ls' !! STORAGE_KEY_GOAL_MET = localStorage st2 !! STORAGE_KEY_GOAL_MET.
Proof.
  intros Hkey Hs Hnon Hstats Hdef.
  destruct (backupDocument_data clock st stats Hstats) as (doc & Hdoc & Hdata).
  destruct (exportedData_fields (localStorage st) stats Hdef)
    as (fields & Hfields & Hf1 & Hf2 & Hf3 & Hf4 & Hf5 & Hf6 & Hf7 & Hf8 & Hf9).
  rewrite Hfields, jsonImage_obj in Hdata.
  assert (jsonImage stats ≠ VUndefined) as Hdef'.
  { intros Heq. by apply jsonImage_undefined in Heq. }
  set (n1 := parseInt (orElse (localStorage st !! STORAGE_KEY_TOTAL_SCORE) (str "0"))) in *.
  set (n2 := parseInt (orElse (localStorage st !! STORAGE_KEY_STREAK) (str "0"))) in *.
  set (n3 := parseInt (orElse (localStorage st !! STORAGE_KEY_GOAL) (str "10"))) in *.
  set (n4 := parseInt (orElse (localStorage st !! STORAGE_KEY_PROGRESS) (str "0"))) in *.
  assert (n1 = NaN ∨ n2 = NaN ∨ n3 = NaN ∨ n4 = NaN) as Hnan.
  { repeat (apply elem_of_cons in Hkey as [->|Hkey]);
      [left|right; left|right; right; left|right; right; right|
       by apply elem_of_nil in Hkey];
      by eapply nonNumeric_counter. }
  assert (∃ ls',
    restore (VObj (jsonEntries fields)) (localStorage st2) = (ls', None)
    ∧ ls' !! STORAGE_KEY_INPUT
      = Some (orElse (localStorage st !! STORAGE_KEY_INPUT) DEFAULT_DATA)
    ∧ ls' !! STORAGE_KEY_LEARNED
      = Some (orElse (localStorage st !! STORAGE_KEY_LEARNED) [])
    ∧ ls' !! STORAGE_KEY_STATS = Some (JSON_stringify (jsonImage stats))
    ∧ ls' !! STORAGE_KEY_PROGRESS = localStorage st2 !! STORAGE_KEY_PROGRESS
    ∧ ls' !! STORAGE_KEY_LAST_DATE = localStorage st2 !! STORAGE_KEY_LAST_DATE
    ∧ ls' !! STORAGE_KEY_GOAL_MET = localStorage st2 !! STORAGE_KEY_GOAL_MET)
    as (ls' & Hrun & Hrest).
  { unfold restore, restoreTable, prop. cbn [member default].
    rewrite !getProp_jsonEntries, Hf1, Hf2, Hf3, Hf4, Hf5, Hf6, Hf7, Hf8, Hf9.
    rewrite !jsonImage_counter.
    cbn [restoreAll foldr fst snd jsonImage].
    rewrite (restoreField_defined _ (jsonImage stats)) by done.
    generalize (orElse (localStorage st !! STORAGE_KEY_INPUT) DEFAULT_DATA).
    generalize (orElse (localStorage st !! STORAGE_KEY_LEARNED) []).
    generalize (JSON_stringify (jsonImage stats)).
    generalize (jsonImage (storedValue (localStorage st !! STORAGE_KEY_LAST_DATE))).
    generalize (jsonImage (storedValue (localStorage st !! STORAGE_KEY_GOAL_MET))).
    generalize (localStorage st2).
    clear -Hnan. intros ls2 v9 v8 ledger learned input.
    destruct n1 as [|z1], n2 as [|z2], n3 as [|z3], n4 as [|z4];
      try (exfalso; clear -Hnan; naive_solver);
      cbn -[number_toString]; eexists; (split; [reflexivity|]);
      store_lookup; done. }
  exists doc, ls'. split; [exact Hdoc|]. split; [|exact Hrest].
  unfold handleFileChange. cbn [mbind option_bind]. rewrite Hdata.
  cbn [truthy]. by rewrite Hrun.
Qed.

Lemma backup_with_nonNumeric_counter_witness :
  let st := sampleApp {[ STORAGE_KEY_INPUT := text ["a:x"; "b:y"; "c:z"];
                         STORAGE_KEY_TOTAL_SCORE := str "abc";
                         STORAGE_KEY_PROGRESS := str "4" ]} in
  ∃ doc ls',
    @backupDocument sampleConstants emptyLedgerJSON mondayAtTen st = Some doc
    ∧ @handleFileChange sampleConstants emptyLedgerJSON mondayAtTen (Some doc)
        (sampleApp ∅)
      = setLocalStorage ls' (sampleApp ∅)
    ∧ ls' !! STORAGE_KEY_INPUT = Some (text ["a:x"; "b:y"; "c:z"])
    ∧ ls' !! STORAGE_KEY_PROGRESS = None.
Proof.
  cbn zeta.
  set (st := sampleApp {[ STORAGE_KEY_INPUT := text ["a:x"; "b:y"; "c:z"];
                          STORAGE_KEY_TOTAL_SCORE := str "abc";
                          STORAGE_KEY_PROGRESS := str "4" ]}).
  assert (localStorage st !! STORAGE_KEY_TOTAL_SCORE = Some (str "abc")) as Hs
    by (vm_compute; reflexivity).
  assert (@JSON_parse emptyLedgerJSON
            (orElse (localStorage st !! STORAGE_KEY_STATS) (str "{}"))
          = Some (VObj [])) as Hstats by (vm_compute; reflexivity).
  assert (STORAGE_KEY_TOTAL_SCORE
          ∈ [STORAGE_KEY_TOTAL_SCORE; STORAGE_KEY_STREAK; STORAGE_KEY_GOAL;
             STORAGE_KEY_PROGRESS]) as Hkey by (by left).
  destruct (@backup_with_nonNumeric_counter sampleConstants emptyLedgerJSON
              mondayAtTen mondayAtTen st (sampleApp ∅) (VObj [])
              STORAGE_KEY_TOTAL_SCORE (str "abc") Hkey Hs eq_refl Hstats
              ltac:(discriminate))
    as (doc & ls' & Hdoc & Himport & Hinput & _ & _ & Hprogress & _).
  exists doc, ls'. split_and!; [exact Hdoc|exact Himport| |].
  - rewrite Hinput. vm_compute. reflexivity.
  - rewrite Hprogress. vm_compute. reflexivity.
Defined.

(** ** An import and the learned text *)

Lemma loadProgress_content clock st :
  inputText (loadProgress clock st) = inputText st
  ∧ learnedText (loadProgress clock st) = learnedText st
  ∧ wordList (loadProgress clock st) = wordList st
  ∧ wordStats (loadProgress clock st) = wordStats st.
Proof.
  unfold loadProgress.
  destruct (localStorage st !! STORAGE_KEY_GOAL) as [[|c s]|];
    (destruct (decide _); [done|]);
    cbn -[parseInt orElse];
    (destruct (localStorage st !! STORAGE_KEY_LAST_DATE) as [[|c' s']|]; [done| |done]);
    by destruct (_ && _).
Qed.

(** X13. An import whose learned text is empty, as in the backup of a store
    without learned text. The empty text is stored, but the reload that ends
    the import sets the learned text only from a stored text that is not
    empty: the learned text in memory stays what it was before the import,
    while a component mounted anew on the store has none. *)
Theorem import_keeps_learned_text `{Constants} `{JSON} (clock : Clock)
    (parsed : option value) (st : App) (d : value) (ls' : gmap string jstring) :
  payloadData parsed = Some d →
  restore d (localStorage st) = (ls', Some tt) →
  prop d "learned" = VStr [] →
  let st' := handleFileChange clock parsed st in
  localStorage st' !! STORAGE_KEY_LEARNED = Some []
  ∧ learnedText st' = learnedText st
  ∧ ∀ clock', learnedText (mount clock' (initialApp (localStorage st'))) = [].
Proof.
  intros Hdata Hrun Hlearned. cbn zeta.
  assert (handleFileChange clock parsed st
          = loadStats (loadProgress clock (loadContent (setLocalStorage ls' st))))
    as ->.
  { revert Hdata. unfold payloadData, handleFileChange.
    destruct (parsed ≫= _) as [d0|]; [|done].
    destruct (truthy d0); [|done]. intros [= ->]. by rewrite Hrun. }
  assert (ls' !! STORAGE_KEY_LEARNED = Some []) as Hstored.
  { destruct (restoreAll_ok _ _ _ (proj2 (restoreTable_keys d)) Hrun) as [Hall _].
    unfold restoreTable in Hall. rewrite Hlearned in Hall.
    apply Forall_cons in Hall as [_ Hall]. apply Forall_cons in Hall as [Hentry _].
    exact Hentry. }
  set (st1 := loadContent (setLocalStorage ls' st)).
  assert (localStorage st1 = ls') as Hls1 by apply loadContent_storage.
  assert (learnedText st1 = learnedText st) as Htext1.
  { unfold st1.
    destruct (loadContent_fields (setLocalStorage ls' st)) as (_ & -> & _).
    cbn [localStorage setLocalStorage]. by rewrite Hstored. }
  assert (localStorage (loadStats (loadProgress clock st1)) !! STORAGE_KEY_LEARNED
          = Some []) as Hafter.
  { rewrite loadStats_storage, loadProgress_storage, Hls1; [done|].
    apply (bool_decide_unpack _). vm_compute. exact I. }
  split_and!.
  - exact Hafter.
  - destruct (loadStats_fields (loadProgress clock st1)) as (_ & _ & -> & _).
    destruct (loadProgress_content clock st1) as (_ & -> & _). exact Htext1.
  - intros clock'. unfold mount.
    destruct (loadContent_fields
                (loadStats (loadProgress clock'
                   (initialApp (localStorage (loadStats (loadProgress clock st1)))))))
      as (_ & -> & _).
    rewrite loadStats_storage, loadProgress_storage;
      [|apply (bool_decide_unpack _); vm_compute; exact I].
    cbn [localStorage initialApp]. rewrite Hafter.
    destruct (loadStats_fields
                (loadProgress clock'
                   (initialApp (localStorage (loadStats (loadProgress clock st1))))))
      as (_ & _ & -> & _).
    by destruct (loadProgress_content clock'
                   (initialApp (localStorage (loadStats (loadProgress clock st1)))))
      as (_ & -> & _).
Qed.

Lemma import_keeps_learned_text_witness :
  let st := setLearnedText (str "d:w")
              (sampleApp {[ STORAGE_KEY_LEARNED := str "d:w" ]}) in
  let d := VObj [(str "learned", VStr [])] in
  let st' := @handleFileChange sampleConstants emptyLedgerJSON mondayAtTen
               (Some (VObj [(str "data", d)])) st in
  localStorage st' !! STORAGE_KEY_LEARNED = Some []
  ∧ learnedText st' = str "d:w".
Proof.
  cbn zeta.
  set (st := setLearnedText (str "d:w")
               (sampleApp {[ STORAGE_KEY_LEARNED := str "d:w" ]})).
  set (d := VObj [(str "learned", VStr [])]).
  set (parsed := Some (VObj [(str "data", d)])).
  assert (payloadData parsed = Some d) as Hdata by reflexivity.
  assert (@restore emptyLedgerJSON d (localStorage st)
          = (<[STORAGE_KEY_LEARNED := []]> (localStorage st), Some tt)) as Hrun
    by reflexivity.
  destruct (@import_keeps_learned_text sampleConstants emptyLedgerJSON
              mondayAtTen parsed st d _ Hdata Hrun eq_refl) as (Hstored & Hkept & _).
  split; [exact Hstored|]. rewrite Hkept. reflexivity.
Defined.

(** ** The daily goal entered in Setup *)

Lemma digitsValue_bound s : ∀ acc v,
  digitsValue s (Some acc) = Some v → (v < (acc + 1) * 10 ^ N.of_nat (length s))%N.
Proof.
  induction s as [|c s IH]; intros acc v; cbn [digitsValue length].
  - intros [= <-]. cbn. lia.
  - destruct (is_digit c) eqn:Hc.
    + intros Hv. apply IH in Hv. cbn [default] in Hv.
      unfold is_digit in Hc. apply andb_true_iff in Hc as [Hlo Hhi].
      apply N.leb_le in Hlo, Hhi.
      rewrite Nat2N.inj_succ, N.pow_succ_r'.
      eapply N.lt_le_trans; [exact Hv|].
      rewrite (N.mul_comm 10), N.mul_assoc.
      apply N.mul_le_mono_r. unfold Datatypes.id. lia.
    + intros [= <-].
      assert (0 < 10 ^ N.of_nat (S (length s)))%N
        by (apply N.neq_0_lt_0, N.pow_nonzero; lia).
      nia.
Qed.

Lemma hexDigit_bound c d : hexDigit c = Some d → (d < 16)%N.
Proof.
  unfold hexDigit, is_digit.
  destruct ((48 <=? c)%N && (c <=? 57)%N) eqn:H1;
    [|destruct ((97 <=? c)%N && (c <=? 102)%N) eqn:H2;
      [|destruct ((65 <=? c)%N && (c <=? 70)%N) eqn:H3; [|done]]];
    intros [= <-];
    match goal with
    | H : (_ && _) = true |- _ =>
        apply andb_true_iff in H as [Hlo Hhi]; apply N.leb_le in Hlo, Hhi
    end; lia.
Qed.

Lemma hexValue_bound s : ∀ acc v,
  hexValue s (Some acc) = Some v → (v < (acc + 1) * 16 ^ N.of_nat (length s))%N.
Proof.
  induction s as [|c s IH]; intros acc v; cbn [hexValue length].
  - intros [= <-]. cbn. lia.
  - destruct (hexDigit c) as [d|] eqn:Hc.
    + intros Hv. apply IH in Hv. cbn [default] in Hv.
      apply hexDigit_bound in Hc.
      rewrite Nat2N.inj_succ, N.pow_succ_r'.
      eapply N.lt_le_trans; [exact Hv|].
      rewrite (N.mul_comm 16), N.mul_assoc.
      apply N.mul_le_mono_r. unfold Datatypes.id. lia.
    + intros [= <-].
      assert (0 < 16 ^ N.of_nat (S (length s)))%N
        by (apply N.neq_0_lt_0, N.pow_nonzero; lia).
      nia.
Qed.

Lemma digitsValue_None_bound s v :
  digitsValue s None = Some v → (v < 10 ^ N.of_nat (length s))%N.
Proof.
  destruct s as [|c s]; [done|]. cbn [digitsValue length default].
  destruct (is_digit c) eqn:Hc; [|done]. intros Hv.
  apply digitsValue_bound in Hv.
  unfold is_digit in Hc. apply andb_true_iff in Hc as [Hlo Hhi].
  apply N.leb_le in Hlo, Hhi.
  rewrite Nat2N.inj_succ, N.pow_succ_r'.
  eapply N.lt_le_trans; [exact Hv|].
  apply N.mul_le_mono_r. lia.
Qed.

Lemma hexValue_None_bound s v :
  hexValue s None = Some v → (v < 16 ^ N.of_nat (length s))%N.
Proof.
  destruct s as [|c s]; [done|]. cbn [hexValue length default].
  destruct (hexDigit c) as [d|] eqn:Hc; [|done]. intros Hv.
  apply hexValue_bound in Hv. apply hexDigit_bound in Hc.
  rewrite Nat2N.inj_succ, N.pow_succ_r'.
  eapply N.lt_le_trans; [exact Hv|].
  apply N.mul_le_mono_r. lia.
Qed.

Lemma trimStart_length s : length (trimStart s) ≤ length s.
Proof.
  induction s as [|c s IH]; [done|]. cbn [trimStart].
  destruct (is_space c); cbn [length]; lia.
Qed.

(** The number read from a text of at most 15 units is one a double holds
    exactly. *)
Lemma parseIntAuto_bound s z :
  length s ≤ 15 → parseIntAuto s = Num z → (- 2 ^ 53 < z < 2 ^ 53)%Z.
Proof.
  intros Hlen. unfold parseIntAuto.
  pose proof (trimStart_length s) as Htrim.
  destruct (match trimStart s with
            | [] => (false, [])
            | c :: r => if (c =? 45)%N then (true, r)
                        else if (c =? 43)%N then (false, r)
                        else (false, trimStart s)
            end) as [negative s2] eqn:Hsign.
  assert (length s2 ≤ 15) as Hlen2.
  { destruct (trimStart s) as [|c r]; [injection Hsign as <- <-; cbn; lia|].
    cbn [length] in Htrim.
    destruct (c =? 45)%N; [injection Hsign as <- <-; lia|].
    destruct (c =? 43)%N; injection Hsign as <- <-; cbn [length]; lia. }
  assert (∀ v, digitsValue s2 None = Some v → (v < 2 ^ 53)%N) as Hdec.
  { intros v Hv. apply digitsValue_None_bound in Hv.
    eapply N.lt_le_trans; [exact Hv|].
    transitivity (10 ^ 15)%N; [apply N.pow_le_mono_r; lia|by vm_compute]. }
  assert (∀ v, (v < 2 ^ 53)%N →
               Num (if negative then - Z.of_N v else Z.of_N v) = Num z →
               (- 2 ^ 53 < z < 2 ^ 53)%Z) as Hfin.
  { intros v Hv [= <-].
    assert (Z.of_N v < 2 ^ 53)%Z by (change (2 ^ 53)%Z with (Z.of_N (2 ^ 53)); lia).
    destruct negative; lia. }
  destruct s2 as [|zero [|x s3]].
  - done.
  - destruct (digitsValue [zero] None) as [v|] eqn:Hv; [|done]. eauto.
  - destruct ((zero =? 48)%N && ((x =? 120)%N || (x =? 88)%N)).
    + destruct (hexValue s3 None) as [v|] eqn:Hv; [|done].
      apply Hfin. apply hexValue_None_bound in Hv.
      eapply N.lt_le_trans; [exact Hv|].
      transitivity (16 ^ 13)%N; [|by vm_compute].
      apply N.pow_le_mono_r; [lia|]. cbn [length] in Hlen2. lia.
    + destruct (digitsValue (zero :: x :: s3) None) as [v|] eqn:Hv; [|done]. eauto.
Qed.

(** X14. Whatever is typed into the goal field (up to 15 characters, so that
    the number read is one a double holds exactly), the goal that is set
    and stored is a whole number of at least 1: the number the text starts
    with when that is positive, and 1 when the text is empty, is not a
    number, or is zero or negative. The stored text is read back as the
    same goal by the next load. *)
Theorem goal_input_at_least_one (value : jstring) (clock : Clock) (st : App) :
  length value ≤ 15 →
  let st' := onGoalChange value st in
  ∃ z, (1 ≤ z < 2 ^ 53)%Z
    ∧ z = match parseIntAuto value with Num n => Z.max 1 n | NaN => 1%Z end
    ∧ dailyGoal st' = Num z
    ∧ localStorage st' !! STORAGE_KEY_GOAL = Some (number_toString (Num z))
    ∧ dailyGoal (loadProgress clock st') = Num z.
Proof.
  intros Hlen. cbn zeta.
  pose proof (parseIntAuto_bound value) as Hbound.
  set (z := match parseIntAuto value with Num n => Z.max 1 n | NaN => 1%Z end).
  assert (goalOfInput value = Num z) as Hgoal.
  { unfold goalOfInput, orNumber, z. destruct (parseIntAuto value) as [|n]; [done|].
    cbn [truthy]. by destruct (Z.eqb_spec n 0) as [->|Hn]. }
  exists z. split; [|split_and!].
  - unfold z. destruct (parseIntAuto value) as [|n]; [lia|].
    specialize (Hbound n Hlen eq_refl). lia.
  - reflexivity.
  - unfold onGoalChange. by rewrite Hgoal.
  - unfold onGoalChange, saveGoalSetting. rewrite Hgoal. cbn. by rewrite lookup_insert_eq.
  - rewrite loadProgress_goal. unfold onGoalChange, saveGoalSetting. rewrite Hgoal.
    cbn -[parseInt number_toString]. rewrite lookup_insert_eq.
    pose proof (number_toString_nonempty z) as Hne.
    destruct (number_toString (Num z)) as [|c s] eqn:Htext; [done|].
    rewrite <- Htext. apply parseInt_number_toString.
Qed.

Lemma goal_input_at_least_one_witness :
  dailyGoal (onGoalChange (str "-3") (sampleApp ∅)) = Num 1
  ∧ dailyGoal (onGoalChange (str "0x1F") (sampleApp ∅)) = Num 31
  ∧ dailyGoal (onGoalChange (str "12.5") (sampleApp ∅)) = Num 12
  ∧ ∃ z, (1 ≤ z)%Z ∧ dailyGoal (onGoalChange [] (sampleApp ∅)) = Num z.
Proof.
  split_and!; [vm_compute; reflexivity..|].
  destruct (goal_input_at_least_one [] mondayAtTen (sampleApp ∅))
    as (z & [Hz _] & _ & Hgoal & _); [cbn; lia|].
  by exists z.
Defined.

(** ** The items of a content *)

Lemma rev_reverse (s : jstring) : rev s = reverse s.
Proof. by rewrite rev_alt. Qed.

Lemma trimStart_suffix s : ∃ p, s = p ++ trimStart s.
Proof.
  induction s as [|c s [p IH]]; [by exists []|]. cbn [trimStart].
  destruct (is_space c); [|by exists []].
  exists (c :: p). cbn. by rewrite <- IH.
Qed.

Lemma trimStart_head s c : head (trimStart s) = Some c → is_space c = false.
Proof.
  induction s as [|c' s IH]; [done|]. cbn [trimStart].
  destruct (is_space c') eqn:Hc'; [done|]. by intros [= <-].
Qed.

Lemma trim_trimmed s : trimmed (trim s).
Proof.
  unfold trim, trimEnd. rewrite !rev_reverse.
  set (t := trimStart s). set (w := trimStart (reverse t)).
  split; intros c.
  - rewrite head_reverse. intros Hlast.
    destruct (trimStart_suffix (reverse t)) as [p Hp]. fold w in Hp.
    assert (last (reverse t) = Some c) as Hlast'.
    { rewrite Hp, last_app, Hlast. done. }
    rewrite last_reverse in Hlast'. by apply (trimStart_head s).
  - rewrite last_reverse. apply trimStart_head.
Qed.

Lemma trimStart_without (P : N → bool) s :
  existsb P s = false → existsb P (trimStart s) = false.
Proof.
  rewrite !existsb_false. intros Hall.
  destruct (trimStart_suffix s) as [p Hp]. rewrite Hp in Hall.
  by apply Forall_app in Hall as [_ ?].
Qed.

Lemma trim_without (P : N → bool) s :
  existsb P s = false → existsb P (trim s) = false.
Proof.
  intros Hs. unfold trim, trimEnd. rewrite !rev_reverse.
  apply existsb_false, Forall_reverse, existsb_false, trimStart_without.
  apply existsb_false, Forall_reverse, existsb_false. by apply trimStart_without.
Qed.

Lemma existsb_before (P sep : N → bool) s :
  existsb P s = false → existsb P (before sep s) = false.
Proof.
  induction s as [|c s IH]; [done|]. cbn [existsb before].
  intros [Hc Hs]%orb_false_iff. destruct (sep c); [done|].
  cbn [existsb]. by rewrite Hc, IH.
Qed.

Lemma existsb_behind (P sep : N → bool) s :
  existsb P s = false → existsb P (behind sep s) = false.
Proof.
  induction s as [|c s IH]; [done|]. cbn [existsb behind].
  intros [Hc Hs]%orb_false_iff. destruct (sep c); [done|]. by apply IH.
Qed.

(** The item of a kept line. *)
Lemma keptItem_wellformed index line item :
  existsb is_newline line = false →
  keptItem index line = Some item →
  char item ≠ []
  ∧ trimmed (char item) ∧ trimmed (word item)
  ∧ plain (char item) ∧ plain (word item)
  ∧ id item = str "word-" ++ char item ++ str "-" ++ N_toString (N.of_nat index)
  ∧ lineChar line = char item.
Proof.
  intros Hline. unfold keptItem.
  destruct (hasSeparator line && _) eqn:Hkept; [|done].
  apply andb_true_iff in Hkept as [_ Hchar]. apply bool_decide_eq_true in Hchar.
  intros [= <-]. cbn [char word id].
  split_and!; [done|apply trim_trimmed..| | |done|apply lineChar_firstPart].
  - split; apply trim_without.
    + apply before_no_sep.
    + by apply existsb_before.
  - split; apply trim_without.
    + apply before_no_sep.
    + by apply existsb_before, existsb_behind.
Qed.

Lemma omap_imap_length {A B} (f : nat → A → option B) (l : list A) :
  length (omap (λ x, x) (imap f l)) ≤ length l.
Proof.
  revert f. induction l as [|x l IH]; intros f; [done|].
  cbn [imap omap list_omap length]. specialize (IH (f ∘ S)).
  destruct (f 0 x); cbn [length]; lia.
Qed.

(** X15. Every item [parseInputData] returns has a character that is not empty;
    its character and its word have no white space at their ends and
    contain neither a colon nor a newline; its identifier is made of its
    character and the index of its line; and its character is the one
    [handleMastery] finds on that line. There are no more items than
    lines, and the empty text has none. *)
Theorem parseInputData_items (text : jstring) :
  parseInputData [] = []
  ∧ length (parseInputData text) ≤ length (split is_newline text)
  ∧ ∀ item, item ∈ parseInputData text →
      char item ≠ []
      ∧ trimmed (char item) ∧ trimmed (word item)
      ∧ plain (char item) ∧ plain (word item)
      ∧ ∃ index line,
          split is_newline text !! index = Some line
          ∧ id item = str "word-" ++ char item ++ str "-"
                        ++ N_toString (N.of_nat index)
          ∧ lineChar line = char item.
Proof.
  split; [done|]. rewrite parseInputData_keptItems. split.
  { apply omap_imap_length. }
  intros item Hitem.
  apply omap_imap_source in Hitem as (index & line & Hline & Hkept).
  assert (existsb is_newline line = false) as Hplain.
  { pose proof (split_parts_no_sep is_newline text) as Hall.
    rewrite Forall_forall in Hall. apply Hall.
    by eapply list_elem_of_lookup_2. }
  destruct (keptItem_wellformed index line item Hplain Hkept)
    as (? & ? & ? & ? & ? & ? & ?).
  split_and!; try done. by exists index, line.
Qed.

(** ** Identifiers *)

Lemma N_toString_digits n : Forall (λ c, is_digit c = true) (N_toString n).
Proof. apply digits_fuel_digits. constructor. Qed.

Lemma N_toString_inj m n : N_toString m = N_toString n → m = n.
Proof.
  intros Heq.
  destruct (digitsValue_N_toString m) as [Hm _].
  destruct (digitsValue_N_toString n) as [Hn _].
  rewrite Heq in Hm. congruence.
Qed.

Lemma N_toString_no_hyphen n : existsb (λ c, (c =? 45)%N) (N_toString n) = false.
Proof.
  apply existsb_false. eapply Forall_impl; [apply N_toString_digits|].
  intros c Hc. unfold is_digit in Hc. apply andb_true_iff in Hc as [Hlo _].
  apply N.leb_le in Hlo. apply N.eqb_neq. lia.
Qed.

(** The index is read off the end of an identifier. *)
Lemma id_index_inj (c1 c2 : jstring) (m n : N) :
  str "word-" ++ c1 ++ str "-" ++ N_toString m
  = str "word-" ++ c2 ++ str "-" ++ N_toString n →
  m = n.
Proof.
  intros Heq. apply app_inv_head in Heq.
  apply (f_equal reverse) in Heq.
  change (str "-") with [45%N] in Heq.
  rewrite !reverse_app in Heq. cbn [app] in Heq.
  rewrite !reverse_singleton in Heq.
  rewrite <- !(assoc_L (++)) in Heq. cbn [app] in Heq.
  apply (f_equal (split (λ c, (c =? 45)%N))) in Heq.
  rewrite !split_app_sep in Heq; [| |done| |done].
  - injection Heq as Heq _. apply (f_equal reverse) in Heq.
    rewrite !reverse_involutive in Heq. by apply N_toString_inj.
  - apply existsb_false, Forall_reverse, existsb_false, N_toString_no_hyphen.
  - apply existsb_false, Forall_reverse, existsb_false, N_toString_no_hyphen.
Qed.

Lemma NoDup_omap_imap {A} (f : nat → A → option WordPair) (l : list A) :
  (∀ i j x y a b, f i x = Some a → f j y = Some b → id a = id b → i = j) →
  NoDup (id <$> omap (λ x, x) (imap f l)).
Proof.
  revert f. induction l as [|x l IH]; intros f Hinj; [constructor|].
  cbn [imap omap list_omap].
  assert (NoDup (id <$> omap (λ x, x) (imap (f ∘ S) l))) as Hrest.
  { apply IH. intros i j y z a b Ha Hb Hid.
    by injection (Hinj (S i) (S j) y z a b Ha Hb Hid). }
  destruct (f 0 x) as [a|] eqn:Ha; [|done].
  cbn [fmap list_fmap]. apply NoDup_cons. split; [|done].
  intros Hin. apply list_elem_of_fmap in Hin as (b & Hid & Hb).
  apply omap_imap_source in Hb as (j & y & _ & Hb).
  by pose proof (Hinj 0 (S j) x y a b Ha Hb Hid).
Qed.

(** X16. The identifiers of the items of a content are pairwise distinct, so an
    option of the pool has the identifier of the target only when it is the
    target: among items of one content, [handleOptionClick] counts an
    answer as correct exactly when the selected item is the target
    itself. *)
Theorem parseInputData_ids_distinct (text : jstring) :
  NoDup (id <$> parseInputData text)
  ∧ ∀ selected target,
      selected ∈ parseInputData text → target ∈ parseInputData text →
      (id selected = id target ↔ selected = target).
Proof.
  assert (NoDup (id <$> parseInputData text)) as Hnd.
  { rewrite parseInputData_keptItems. apply NoDup_omap_imap.
    intros i j x y a b Ha Hb Hid. unfold keptItem in Ha, Hb.
    destruct (hasSeparator x && _); [|done].
    destruct (hasSeparator y && _); [|done].
    injection Ha as <-. injection Hb as <-. cbn [id] in Hid.
    apply id_index_inj in Hid. lia. }
  split; [done|]. intros selected target Hs Ht. split; [|by intros ->].
  intros Hid.
  apply list_elem_of_lookup in Hs as [i Hi], Ht as [j Hj].
  assert (i = j) as ->.
  { eapply NoDup_lookup; [exact Hnd|..]; rewrite list_lookup_fmap.
    - by rewrite Hi.
    - rewrite Hj. cbn. by rewrite Hid. }
  congruence.
Qed.

(** ** Answers of one round *)

Lemma handleOptionClick_ignored `{JSON} clock selected st :
  targetWord st = None ∨ isPlayingAudio st = true ∨ feedback st = FeedbackCorrect →
  handleOptionClick clock selected st = (st, false).
Proof.
  unfold handleOptionClick. intros [Ht|[Ha|Hf]].
  - by rewrite Ht.
  - destruct (targetWord st); [|done]. by rewrite Ha.
  - destruct (targetWord st); [|done]. rewrite Hf.
    by rewrite bool_decide_eq_true_2, orb_true_r.
Qed.

Lemma handleOptionClick_wrong `{JSON} clock selected target st :
  targetWord st = Some target → isPlayingAudio st = false →
  feedback st ≠ FeedbackCorrect → id selected ≠ id target →
  let st' := (handleOptionClick clock selected st).1 in
  targetWord st' = Some target
  ∧ isPlayingAudio st' = false
  ∧ feedback st' = FeedbackIncorrect
  ∧ score st' = score st
  ∧ dailyProgress st' = dailyProgress st
  ∧ wordStats st' = statsOnIncorrect (char target) (wordStats st).
Proof.
  intros Ht Ha Hf Hid. cbn zeta. unfold handleOptionClick.
  rewrite Ht, Ha, bool_decide_eq_false_2 by done. cbn [orb].
  by rewrite decide_False.
Qed.

Lemma handleOptionClick_right `{JSON} clock selected target st :
  targetWord st = Some target → isPlayingAudio st = false →
  feedback st ≠ FeedbackCorrect → id selected = id target →
  let st' := (handleOptionClick clock selected st).1 in
  targetWord st' = Some target
  ∧ isPlayingAudio st' = false
  ∧ feedback st' = FeedbackCorrect
  ∧ score st' = nadd (score st) (Num 1)
  ∧ dailyProgress st' = nadd (dailyProgress st) (Num 1)
  ∧ wordStats st' = statsOnCorrect (char target) (wordStats st).
Proof.
  intros Ht Ha Hf Hid. cbn zeta. unfold handleOptionClick.
  rewrite Ht, Ha, bool_decide_eq_false_2 by done. cbn [orb].
  rewrite decide_True by done. cbn [fst]. unfold updateProgress.
  by destruct (nge _ _ && negb _).
Qed.

Lemma clicks_ignored `{JSON} answers st :
  feedback st = FeedbackCorrect → clicks answers st = st.
Proof.
  intros Hf. induction answers as [|[clock selected] answers IH]; [done|].
  cbn [clicks foldl fst snd]. rewrite handleOptionClick_ignored by auto.
  exact IH.
Qed.

(** Wrong answers of one round: the round stays open, the score and the
    progress stay, and each answer adds one error to the record. *)
Lemma clicks_wrong `{JSON} target answers : ∀ st,
  targetWord st = Some target → isPlayingAudio st = false →
  feedback st ≠ FeedbackCorrect →
  Forall (λ answer, id answer.2 ≠ id target) answers →
  let st' := clicks answers st in
  targetWord st' = Some target
  ∧ isPlayingAudio st' = false
  ∧ feedback st' ≠ FeedbackCorrect
  ∧ score st' = score st
  ∧ dailyProgress st' = dailyProgress st
  ∧ correct (statOf (wordStats st') (char target))
    = correct (statOf (wordStats st) (char target))
  ∧ incorrect (statOf (wordStats st') (char target))
    = (incorrect (statOf (wordStats st) (char target))
       + N.of_nat (length answers))%N.
Proof.
  induction answers as [|[clock selected] answers IH]; intros st Ht Ha Hf Hall.
  - cbn. split_and!; try done. lia.
  - apply Forall_cons in Hall as [Hid Hall]. cbn [fst snd] in Hid.
    destruct (handleOptionClick_wrong clock selected target st Ht Ha Hf Hid)
      as (Ht1 & Ha1 & Hf1 & Hs1 & Hp1 & Hw1).
    cbn [clicks foldl fst snd].
    destruct (IH _ Ht1 Ha1 ltac:(by rewrite Hf1) Hall)
      as (Ht2 & Ha2 & Hf2 & Hs2 & Hp2 & Hc2 & Hi2).
    unfold clicks in *. cbn zeta in *.
    rewrite Hw1, statOf_incorrect in Hc2, Hi2. cbn in Hc2, Hi2.
    split_and!; try done; try congruence.
    rewrite Hi2. cbn [length]. lia.
Qed.

(** An answer leaves the content and the pool as they are. *)
Lemma handleOptionClick_content `{JSON} clock selected st :
  let st' := (handleOptionClick clock selected st).1 in
  inputText st' = inputText st
  ∧ learnedText st' = learnedText st
  ∧ wordList st' = wordList st.
Proof.
  cbn zeta. unfold handleOptionClick.
  destruct (targetWord st) as [target|]; [|done].
  destruct (_ || _); [done|].
  destruct (decide _); [|done]. cbn [fst]. unfold updateProgress.
  by destruct (nge _ _ && negb _).
Qed.

(** C2, where the code departs from it. The correct answer that brings the
    consecutive count to the threshold is recorded, and the updater of the
    ledger notes it in [isMastered]; but the handler has tested
    [isMastered] before React ran that updater, so [handleMastery] is not
    scheduled. The line of the item stays in the content, the learned text
    stays as it is, the item stays in the pool, and so they are after the
    round that follows. *)
Theorem mastery_is_never_scheduled `{JSON} (clock : Clock)
    (selected target : WordPair) (st : App) :
  targetWord st = Some target → isPlayingAudio st = false →
  feedback st ≠ FeedbackCorrect → id selected = id target →
  ledgerName (char target) →
  (MASTERY_THRESHOLD ≤ consecutiveCorrect (statOf (wordStats st) (char target)) + 1)%N →
  let st' := (handleOptionClick clock selected st).1 in
  masteredOnCorrect (char target) (wordStats st) = true
  ∧ (MASTERY_THRESHOLD ≤ consecutiveCorrect (statOf (wordStats st') (char target)))%N
  ∧ (handleOptionClick clock selected st).2 = false
  ∧ inputText st' = inputText st
  ∧ learnedText st' = learnedText st
  ∧ wordList st' = wordList st
  ∧ ∀ (R : Type) (arith : Arith R) (rnd : Random R) st'',
      afterCorrect rnd st st' = Done st'' →
      inputText st'' = inputText st
      ∧ learnedText st'' = learnedText st
      ∧ wordList st'' = wordList st.
Proof.
  intros Ht Ha Hf Hid _ Hreach. cbn zeta.
  destruct (handleOptionClick_right clock selected target st Ht Ha Hf Hid)
    as (_ & _ & _ & _ & _ & Hstats).
  destruct (handleOptionClick_content clock selected st) as (Hi & Hl & Hw).
  split_and!; try done.
  - unfold masteredOnCorrect. by apply bool_decide_eq_true_2.
  - rewrite Hstats, statOf_correct. exact Hreach.
  - unfold handleOptionClick. rewrite Ht, Ha, bool_decide_eq_false_2 by done.
    cbn [orb]. by rewrite decide_True.
  - intros R arith rnd st'' Hround.
    apply setupRoundWith_frame in Hround as [Hsame Hpool].
    unfold persistent in Hsame. injection Hsame as Hi' Hl' _.
    rewrite Hi', Hl', Hpool. done.
Qed.

Lemma mastery_is_never_scheduled_witness :
  let st' := (@handleOptionClick emptyLedgerJSON mondayAtTen firstItem
                beforeTwentieth).1 in
  consecutiveCorrect (statOf (wordStats st') (str "a")) = 20%N
  ∧ (@handleOptionClick emptyLedgerJSON mondayAtTen firstItem beforeTwentieth).2
    = false
  ∧ inputText st' = text ["a:x"; "b:y"; "c:z"]
  ∧ learnedText st' = []
  ∧ ∃ st'', afterCorrect firstItemDraw beforeTwentieth st' = Done st''
      ∧ targetWord st'' = Some firstItem.
Proof.
  cbn zeta.
  assert (ledgerName (char firstItem)) as Hname.
  { apply (bool_decide_unpack _). vm_compute. exact I. }
  assert (MASTERY_THRESHOLD
          ≤ consecutiveCorrect (statOf (wordStats beforeTwentieth) (char firstItem)) + 1)%N
    as Hreach by (vm_compute; discriminate).
  destruct (@mastery_is_never_scheduled emptyLedgerJSON mondayAtTen firstItem
              firstItem beforeTwentieth eq_refl eq_refl ltac:(discriminate)
              eq_refl Hname Hreach)
    as (_ & _ & Hflag & Hinput & Hlearned & _).
  split_and!; [vm_compute; reflexivity|exact Hflag| | |].
  - rewrite Hinput. vm_compute. reflexivity.
  - rewrite Hlearned. vm_compute. reflexivity.
  - eexists. split; vm_compute; reflexivity.
Defined.

(** X17. One round is scored at most once by the answers given to it. In a
    sequence of answers to an open round, with no other callback between
    them, each wrong answer adds one error to the record of the target and
    leaves the score; the first correct answer adds 1 to the score and to
    the daily progress and one correct answer to the record; every answer
    after it is ignored. *)
Theorem round_scores_once `{JSON} (target : WordPair) (st : App)
    (misses later : list (Clock * WordPair)) (hit : Clock * WordPair) :
  targetWord st = Some target → isPlayingAudio st = false →
  feedback st ≠ FeedbackCorrect →
  ledgerName (char target) →
  Forall (λ answer, id answer.2 ≠ id target) misses →
  id hit.2 = id target →
  let record := statOf (wordStats st) (char target) in
  let st1 := clicks misses st in
  let st2 := clicks (misses ++ hit :: later) st in
  score st1 = score st
  ∧ st2 = (handleOptionClick hit.1 hit.2 st1).1
  ∧ score st2 = nadd (score st) (Num 1)
  ∧ dailyProgress st2 = nadd (dailyProgress st) (Num 1)
  ∧ correct (statOf (wordStats st2) (char target)) = (correct record + 1)%N
  ∧ incorrect (statOf (wordStats st2) (char target))
    = (incorrect record + N.of_nat (length misses))%N.
Proof.
  intros Ht Ha Hf _ Hwrong Hright. cbn zeta.
  destruct (clicks_wrong target misses st Ht Ha Hf Hwrong)
    as (Ht1 & Ha1 & Hf1 & Hs1 & Hp1 & Hc1 & Hi1).
  destruct hit as [clock selected]. cbn [fst snd] in *.
  destruct (handleOptionClick_right clock selected target _ Ht1 Ha1 Hf1 Hright)
    as (Ht2 & Ha2 & Hf2 & Hs2 & Hp2 & Hw2).
  assert (clicks (misses ++ (clock, selected) :: later) st
          = (handleOptionClick clock selected (clicks misses st)).1) as ->.
  { unfold clicks at 1. rewrite foldl_app. cbn [foldl fst snd].
    by apply clicks_ignored. }
  split_and!; try done; try congruence.
  - rewrite Hw2, statOf_correct. cbn. by rewrite Hc1.
  - rewrite Hw2, statOf_correct. cbn. by rewrite Hi1.
Qed.

Lemma round_scores_once_witness :
  let b := {| id := str "word-b-2"; char := str "b"; word := str "y" |} in
  let st := setWordStats ∅ beforeMastery in
  let answers := [(mondayAtTen, b); (mondayAtTen, b); (mondayAtTen, itemA);
                  (mondayAtTen, itemA); (mondayAtTen, b)] in
  score (@clicks emptyLedgerJSON answers st) = Num 1
  ∧ incorrect (statOf (wordStats (@clicks emptyLedgerJSON answers st)) (str "a"))
    = 2%N.
Proof.
  cbn zeta.
  set (b := {| id := str "word-b-2"; char := str "b"; word := str "y" |}).
  set (st := setWordStats ∅ beforeMastery).
  assert (ledgerName (char itemA)) as Hname.
  { apply (bool_decide_unpack _). vm_compute. exact I. }
  assert (Forall (λ answer : Clock * WordPair, id answer.2 ≠ id itemA)
            [(mondayAtTen, b); (mondayAtTen, b)]) as Hwrong.
  { repeat (apply Forall_cons; split; [vm_compute; discriminate|]).
    apply Forall_nil_2. }
  destruct (@round_scores_once emptyLedgerJSON itemA st
              [(mondayAtTen, b); (mondayAtTen, b)]
              [(mondayAtTen, itemA); (mondayAtTen, b)] (mondayAtTen, itemA)
              eq_refl eq_refl ltac:(discriminate) Hname Hwrong eq_refl)
    as (_ & _ & Hscore & _ & _ & Hincorrect).
  split; [exact Hscore|exact Hincorrect].
Defined.

(** X18. The timer of a wrong answer fires 800 ms after it, whatever was
    answered in between. When the correct answer was given in the meantime,
    the timer clears the feedback of the answered round and starts the
    playback; once the playback has ended, the round is open again on the
    same target until the next round is set up, and a second correct
    answer adds to the score, the progress and the record a second time.
    The record is that of a target whose character is not the name of an
    inherited member. *)
Theorem retry_timer_reopens_answered_round `{JSON} (clock1 clock2 clock3 : Clock)
    (miss hit : WordPair) (target : WordPair) (v : Screen) (failed : bool) :
  targetWord (game v) = Some target → isPlayingAudio (game v) = false →
  feedback (game v) ≠ FeedbackCorrect →
  id miss ≠ id target → id hit = id target →
  ledgerName (char target) →
  let v1 := onGame (λ st, (handleOptionClick clock1 miss st).1) v in
  let v2 := onGame (λ st, (handleOptionClick clock2 hit st).1) v1 in
  let v3 := afterIncorrect v2 in
  let v4 := audioEnded failed v3 in
  let v5 := onGame (λ st, (handleOptionClick clock3 hit st).1) v4 in
  feedback (game v2) = FeedbackCorrect
  ∧ score (game v2) = nadd (score (game v)) (Num 1)
  ∧ targetWord (game v4) = Some target
  ∧ feedback (game v4) = FeedbackNone
  ∧ isPlayingAudio (game v4) = false
  ∧ score (game v5) = nadd (nadd (score (game v)) (Num 1)) (Num 1)
  ∧ dailyProgress (game v5)
    = nadd (nadd (dailyProgress (game v)) (Num 1)) (Num 1)
  ∧ wordStats (game v5)
    = statsOnCorrect (char target)
        (statsOnCorrect (char target)
           (statsOnIncorrect (char target) (wordStats (game v)))).
Proof.
  intros Ht Ha Hf Hwrong Hright _. cbn zeta.
  cbn [game onGame afterIncorrect audioEnded].
  destruct (handleOptionClick_wrong clock1 miss target _ Ht Ha Hf Hwrong)
    as (Ht1 & Ha1 & Hf1 & Hs1 & Hp1 & Hw1).
  set (st1 := (handleOptionClick clock1 miss (game v)).1) in *.
  destruct (handleOptionClick_right clock2 hit target st1 Ht1 Ha1
              ltac:(by rewrite Hf1) Hright)
    as (Ht2 & Ha2 & Hf2 & Hs2 & Hp2 & Hw2).
  set (st2 := (handleOptionClick clock2 hit st1).1) in *.
  set (st4 := setIsPlayingAudio false
                (setIsPlayingAudio true (setFeedback FeedbackNone st2))).
  destruct (handleOptionClick_right clock3 hit target st4 Ht2 eq_refl
              ltac:(done) Hright)
    as (Ht5 & Ha5 & Hf5 & Hs5 & Hp5 & Hw5).
  split_and!; try done; try congruence.
  - change (score st4) with (score st2) in Hs5. congruence.
  - change (dailyProgress st4) with (dailyProgress st2) in Hp5. congruence.
  - change (wordStats st4) with (wordStats st2) in Hw5. congruence.
Qed.

Lemma retry_timer_reopens_answered_round_witness :
  let b := {| id := str "word-b-2"; char := str "b"; word := str "y" |} in
  let v := {| game := setWordStats ∅ beforeMastery; gameState := PLAYING;
              errorMessage := None |} in
  let answer selected :=
    onGame (λ st, (@handleOptionClick emptyLedgerJSON mondayAtTen selected st).1) in
  score (game (answer itemA (audioEnded false
                 (afterIncorrect (answer itemA (answer b v))))))
  = Num 2.
Proof.
  cbn zeta.
  set (b := {| id := str "word-b-2"; char := str "b"; word := str "y" |}).
  set (v := {| game := setWordStats ∅ beforeMastery; gameState := PLAYING;
               errorMessage := None |}).
  assert (id b ≠ id itemA) as Hwrong by (vm_compute; discriminate).
  assert (ledgerName (char itemA)) as Hname.
  { apply (bool_decide_unpack _). vm_compute. exact I. }
  destruct (@retry_timer_reopens_answered_round emptyLedgerJSON
              mondayAtTen mondayAtTen mondayAtTen b itemA itemA v false
              eq_refl eq_refl ltac:(discriminate) Hwrong eq_refl Hname)
    as (_ & _ & _ & _ & _ & Hscore & _).
  exact Hscore.
Defined.

(** ** Counters that are not numbers *)

Lemma mount_counters `{Constants} `{JSON} clock st :
  score (mount clock st)
  = parseInt (orElse (localStorage st !! STORAGE_KEY_TOTAL_SCORE) (str "0"))
  ∧ dailyGoal (mount clock st)
    = match localStorage st !! STORAGE_KEY_GOAL with
      | Some (c :: s) => parseInt (c :: s)
      | _ => dailyGoal st
      end
  ∧ localStorage (mount clock st) !! STORAGE_KEY_TOTAL_SCORE
    = localStorage st !! STORAGE_KEY_TOTAL_SCORE
  ∧ localStorage (mount clock st) !! STORAGE_KEY_GOAL
    = localStorage st !! STORAGE_KEY_GOAL.
Proof.
  unfold mount.
  destruct (loadContent_fields (loadStats (loadProgress clock st)))
    as (_ & _ & _ & _ & -> & -> & _ & _ & _ & ->).
  destruct (loadStats_fields (loadProgress clock st))
    as (_ & _ & _ & _ & -> & -> & _ & _ & _ & ->).
  rewrite loadProgress_score, loadProgress_goal.
  rewrite !loadProgress_storage; [done|..];
    apply (bool_decide_unpack _); vm_compute; exact I.
Qed.

Lemma step_persistent_or `{Constants} `{JSON} v v' :
  step v v' →
  persistent (game v') = persistent (game v)
  ∨ (∃ clock selected, game v' = (handleOptionClick clock selected (game v)).1)
  ∨ (∃ w, game v' = handleMastery w (game v))
  ∨ (∃ val, game v' = saveGoalSetting (Num val) (game v) ∧ (1 ≤ val)%Z)
  ∨ (∃ newInput newLearned,
       game v' = saveContentSettings newInput newLearned (game v)).
Proof.
  intros [clock selected ?|w ?|R arith rnd stats ? st' Hround|?|playing ?
          |failed ?|?|?|value ?|val ?|val ?|?|?]; cbn [game onGame].
  - right; left. by eexists _, _.
  - right; right; left. by eexists.
  - left. by apply setupRoundWith_frame in Hround as [? _].
  - by left.
  - left. by destruct playing.
  - by left.
  - by left.
  - by left.
  - right; right; right; left. unfold onGoalChange, goalOfInput, orNumber.
    destruct (parseIntAuto value) as [|n]; cbn [truthy nmax].
    + exists 1%Z. by split.
    + destruct (Z.eqb_spec n 0) as [->|?]; cbn [negb nmax].
      * exists 1%Z. by split.
      * exists (Z.max 1 n). split; [done|lia].
  - right; right; right; right. by eexists _, _.
  - right; right; right; right. by eexists _, _.
  - left. unfold startGame. by destruct (decide _).
  - by left.
Qed.

(** X19. A stored score that is not a number is never repaired. The mount reads
    it as [NaN]; from then on, through every callback, the score in memory
    is [NaN], the stored text is the one found or the text [NaN] that a
    correct answer writes, and every later mount reads [NaN] again. *)
Theorem nonNumeric_score_is_never_repaired `{Constants} `{JSON}
    (ls : gmap string jstring) (s : jstring) (clock0 : Clock) (v : Screen) :
  ls !! STORAGE_KEY_TOTAL_SCORE = Some s →
  startsNonNumeric s = true →
  rtc step (mounted clock0 ls) v →
  score (game v) = NaN
  ∧ (localStorage (game v) !! STORAGE_KEY_TOTAL_SCORE = Some s
     ∨ localStorage (game v) !! STORAGE_KEY_TOTAL_SCORE = Some (str "NaN"))
  ∧ ∀ clock, score (game (mounted clock (localStorage (game v)))) = NaN.
Proof.
  intros Hs Hnon Hrun.
  assert (score (game v) = NaN
          ∧ (localStorage (game v) !! STORAGE_KEY_TOTAL_SCORE = Some s
             ∨ localStorage (game v) !! STORAGE_KEY_TOTAL_SCORE
               = Some (str "NaN"))) as [Hscore Hstored].
  { revert v Hrun.
    apply (rtc_ind_r (λ v, score (game v) = NaN
             ∧ (localStorage (game v) !! STORAGE_KEY_TOTAL_SCORE = Some s
                ∨ localStorage (game v) !! STORAGE_KEY_TOTAL_SCORE
                  = Some (str "NaN")))).
    - cbn [mounted game onGame initialScreen].
      destruct (mount_counters clock0 (initialApp ls)) as (-> & _ & -> & _).
      cbn [localStorage initialApp]. rewrite Hs. split; [|by left].
      by eapply nonNumeric_counter.
    - intros v1 v2 _ Hstep [Hscore Hstored].
      apply step_persistent_or in Hstep
        as [Hsame|[(clock & selected & ->)|[(w & ->)|[(val & -> & _)
            |(newInput & newLearned & ->)]]]].
      + unfold persistent in Hsame.
        injection Hsame as _ _ _ Hs' _ _ _ _ Hls'. by rewrite Hs', Hls'.
      + unfold handleOptionClick.
        destruct (targetWord (game v1)) as [target|]; [|done].
        destruct (_ || _); [done|].
        destruct (decide _); cbn [fst].
        * unfold updateProgress.
          destruct (nge _ _ && negb _);
            cbn -[number_toString statsOnCorrect nadd];
            rewrite Hscore; store_lookup; by split; [|right].
        * cbn -[statsOnIncorrect]. by store_lookup.
      + unfold handleMastery. destruct (list_find _ _) as [[i line]|];
          cbn; by store_lookup.
      + cbn -[number_toString]. by store_lookup.
      + cbn. by store_lookup. }
  split_and!; [done|done|]. intros clock.
  cbn [mounted game onGame initialScreen].
  destruct (mount_counters clock (initialApp (localStorage (game v))))
    as (-> & _).
  cbn [localStorage initialApp].
  destruct Hstored as [-> | ->]; [by eapply nonNumeric_counter|by vm_compute].
Qed.

Lemma nonNumeric_score_is_never_repaired_witness :
  let ls : gmap string jstring := {[ STORAGE_KEY_TOTAL_SCORE := str "abc" ]} in
  let v := @mounted sampleConstants emptyLedgerJSON mondayAtTen ls in
  score (game v) = NaN
  ∧ score (game (@mounted sampleConstants emptyLedgerJSON mondayAtTen
                   (localStorage (game v)))) = NaN.
Proof.
  cbn zeta.
  set (ls := {[ STORAGE_KEY_TOTAL_SCORE := str "abc" ]} : gmap string jstring).
  assert (ls !! STORAGE_KEY_TOTAL_SCORE = Some (str "abc")) as Hs
    by (vm_compute; reflexivity).
  destruct (@nonNumeric_score_is_never_repaired sampleConstants emptyLedgerJSON
              ls (str "abc") mondayAtTen
              (@mounted sampleConstants emptyLedgerJSON mondayAtTen ls)
              Hs eq_refl (rtc_refl _ _))
    as (Hscore & _ & Hagain).
  split; [exact Hscore|apply Hagain].
Defined.

(** X20. A stored goal that is not a number cannot be met. The mount reads it
    as [NaN]; as long as no goal is entered in Setup, no callback sets the
    goal flag or advances the streak, whatever the progress. *)
Theorem nonNumeric_goal_is_never_met `{Constants} `{JSON}
    (ls : gmap string jstring) (s : jstring) (clock0 : Clock) (v : Screen) :
  ls !! STORAGE_KEY_GOAL = Some s →
  startsNonNumeric s = true →
  rtc step (mounted clock0 ls) v →
  dailyGoal (game (mounted clock0 ls)) = NaN
  ∧ (dailyGoal (game v) = NaN →
     goalMetToday (game v) = goalMetToday (game (mounted clock0 ls))
     ∧ streak (game v) = streak (game (mounted clock0 ls))).
Proof.
  intros Hs Hnon Hrun. split.
  { cbn [mounted game onGame initialScreen].
    destruct (mount_counters clock0 (initialApp ls)) as (_ & -> & _).
    cbn [localStorage initialApp]. rewrite Hs.
    pose proof (startsNonNumeric_nonempty s Hnon) as Hne.
    destruct s as [|c s']; [done|]. by apply parseInt_nonNumeric. }
  revert v Hrun.
  apply (rtc_ind_r (λ v, dailyGoal (game v) = NaN →
           goalMetToday (game v) = goalMetToday (game (mounted clock0 ls))
           ∧ streak (game v) = streak (game (mounted clock0 ls)))); [done|].
  intros v1 v2 _ Hstep IH.
  apply step_persistent_or in Hstep
    as [Hsame|[(clock & selected & ->)|[(w & ->)|[(val & -> & _)
        |(newInput & newLearned & ->)]]]].
  - unfold persistent in Hsame.
    injection Hsame as _ _ _ _ Hg _ Hk Hm _. rewrite Hg, Hk, Hm. exact IH.
  - unfold handleOptionClick.
    destruct (targetWord (game v1)) as [target|]; [|done].
    destruct (_ || _); [done|].
    destruct (decide _); cbn [fst]; [|exact IH].
    unfold updateProgress.
    destruct (nge _ _ && negb _) eqn:Hreached; [|exact IH].
    cbn -[number_toString statsOnCorrect nadd nge] in Hreached |- *.
    intros Hgoal. rewrite Hgoal in Hreached.
    by destruct (nadd (dailyProgress (game v1)) (Num 1)).
  - unfold handleMastery. by destruct (list_find _ _) as [[i line]|].
  - done.
  - exact IH.
Qed.

Lemma nonNumeric_goal_is_never_met_witness :
  let ls : gmap string jstring :=
    {[ STORAGE_KEY_GOAL := str "ten"; STORAGE_KEY_PROGRESS := str "99";
       STORAGE_KEY_LAST_DATE := str "Mon Nov 02 2026" ]} in
  let rnd : Random Q :=
    {| targetDraw := 0%Q; fallbackDraw := 0%Q;
       distractorOrder := λ l, l; fillDraws := []; optionOrder := λ l, l |} in
  let a := {| id := str "word-a-0"; char := str "a"; word := str "apple" |} in
  let v0 := @mounted sampleConstants emptyLedgerJSON mondayAtTen ls in
  ∃ st1,
    setupRound rnd (game v0) = Done st1
    ∧ let st2 := (@handleOptionClick emptyLedgerJSON mondayAtTen a st1).1 in
      dailyProgress st2 = Num 100
      ∧ dailyGoal st2 = NaN
      ∧ goalMetToday st2 = false.
Proof.
  cbn zeta.
  set (ls := {[ STORAGE_KEY_GOAL := str "ten"; STORAGE_KEY_PROGRESS := str "99";
                STORAGE_KEY_LAST_DATE := str "Mon Nov 02 2026" ]}
             : gmap string jstring).
  set (rnd := {| targetDraw := 0%Q; fallbackDraw := 0%Q;
                 distractorOrder := λ l, l; fillDraws := [];
                 optionOrder := λ l, l |} : Random Q).
  set (a := {| id := str "word-a-0"; char := str "a"; word := str "apple" |}).
  set (v0 := @mounted sampleConstants emptyLedgerJSON mondayAtTen ls).
  destruct (setupRound rnd (game v0)) as [st1| |] eqn:Hround;
    [|vm_compute in Hround; discriminate..].
  exists st1. split; [reflexivity|].
  set (v2 := onGame (λ st, (@handleOptionClick emptyLedgerJSON mondayAtTen
                              a st).1) (onGame (λ _, st1) v0)).
  assert (ls !! STORAGE_KEY_GOAL = Some (str "ten")) as Hs
    by (vm_compute; reflexivity).
  assert (rtc (@step sampleConstants emptyLedgerJSON) v0 v2) as Hrun.
  { eapply rtc_l; [exact (step_round rnd _ v0 st1 Hround)|].
    apply rtc_once, step_answer. }
  assert (dailyProgress (game v2) = Num 100 ∧ dailyGoal (game v2) = NaN)
    as [Hprogress Hgoal].
  { cbn [game onGame v2]. vm_compute in Hround. injection Hround as <-.
    split; vm_compute; reflexivity. }
  destruct (@nonNumeric_goal_is_never_met sampleConstants emptyLedgerJSON
              ls (str "ten") mondayAtTen v2 Hs eq_refl Hrun)
    as (_ & Hkept).
  destruct (Hkept Hgoal) as [Hflag _].
  cbn [game onGame v2] in Hprogress, Hgoal, Hflag.
  split_and!; [exact Hprogress|exact Hgoal|].
  rewrite Hflag. vm_compute. reflexivity.
Defined.

(** ** Weights and answers *)

Lemma weight_formula (s : WordStat) :
  (weight (R := Q) s
   == 10 * (1 + inject_Z (Z.of_N (incorrect s)) * 3)
      / (1 + inject_Z (Z.of_N (correct s)) * (1 # 2)))%Q.
Proof. reflexivity. Qed.

Lemma Qdiv_lt_num (x y b : Q) : (0 < b → x < y → x / b < y / b)%Q.
Proof.
  intros Hb Hxy. apply Qlt_shift_div_r; [done|].
  assert (y / b * b == y)%Q as -> by (field; lra). done.
Qed.

Lemma Qdiv_lt_den (x b b' : Q) : (0 < x → 0 < b → b < b' → x / b' < x / b)%Q.
Proof.
  intros Hx Hb Hbb'. apply Qlt_shift_div_r; [lra|].
  assert (x / b * b == x)%Q as Hq by (field; lra).
  assert (0 < x / b)%Q as Hpos by (apply Qlt_shift_div_l; lra).
  nra.
Qed.

Lemma inject_N_succ (n : N) :
  (inject_Z (Z.of_N (n + 1)) == inject_Z (Z.of_N n) + 1)%Q.
Proof. rewrite N2Z.inj_add, inject_Z_plus. reflexivity. Qed.

Lemma inject_N_nonneg (n : N) : (0 <= inject_Z (Z.of_N n))%Q.
Proof. change 0%Q with (inject_Z 0). rewrite <- Zle_Qle. lia. Qed.

(** X21. How an answer moves the weights, in exact arithmetic. An item without
    record weighs 10. A wrong answer for an item raises its weight, a
    correct answer lowers it, and the weights of the other items stay: the
    weight depends on the two counts of the item only. *)
Theorem answer_moves_weight (stats : gmap jstring WordStat) (c : jstring) :
  ledgerName c →
  let weightOf stats c := weight (R := Q) (statOf stats c) in
  (stats !! c = None → weightOf stats c == 10)%Q
  ∧ (weightOf stats c < weightOf (statsOnIncorrect c stats) c)%Q
  ∧ (weightOf (statsOnCorrect c stats) c < weightOf stats c)%Q
  ∧ ∀ c', c' ≠ c →
      weightOf (statsOnIncorrect c stats) c' = weightOf stats c'
      ∧ weightOf (statsOnCorrect c stats) c' = weightOf stats c'.
Proof.
  intros _. cbn zeta.
  pose proof (inject_N_nonneg (incorrect (statOf stats c))) as Hi.
  pose proof (inject_N_nonneg (correct (statOf stats c))) as Hc.
  split_and!.
  - intros Hnone. unfold statOf. rewrite Hnone. reflexivity.
  - rewrite statOf_incorrect, !weight_formula.
    cbn [correct incorrect]. rewrite inject_N_succ.
    apply Qdiv_lt_num; lra.
  - rewrite statOf_correct, !weight_formula.
    cbn [correct incorrect]. rewrite inject_N_succ.
    apply Qdiv_lt_den; lra.
  - intros c' Hne. unfold statOf, statsOnIncorrect, statsOnCorrect.
    by rewrite !lookup_insert_ne.
Qed.

Lemma answer_moves_weight_witness :
  (weight (R := Q) (statOf ∅ (str "a"))
   < weight (R := Q) (statOf (statsOnIncorrect (str "a") ∅) (str "a")))%Q.
Proof.
  assert (ledgerName (str "a")) as Hname.
  { apply (bool_decide_unpack _). vm_compute. exact I. }
  destruct (answer_moves_weight ∅ (str "a") Hname) as (_ & Hup & _).
  exact Hup.
Defined.

(** ** No item is left out *)

Lemma sumQ_cons (w : Q) (l : list Q) : sumQ (w :: l) = (w + sumQ l)%Q.
Proof. reflexivity. Qed.

Lemma sumQ_app (l1 l2 : list Q) : (sumQ (l1 ++ l2) == sumQ l1 + sumQ l2)%Q.
Proof.
  induction l1 as [|w l1 IH]; cbn [app].
  - change (sumQ []) with 0%Q. ring.
  - rewrite !sumQ_cons, IH. ring.
Qed.

Lemma sumQ_nonneg (l : list Q) : Forall (λ w, (0 < w)%Q) l → (0 <= sumQ l)%Q.
Proof.
  induction 1 as [|w l Hw _ IH]; [by change (sumQ []) with 0%Q|].
  rewrite sumQ_cons. lra.
Qed.

(** The accumulated weights grow along the pool. *)
Lemma cumulative_step (weights : list Q) k w :
  Forall (λ w, (0 < w)%Q) weights →
  weights !! k = Some w →
  (cumulative weights k == sumQ (take k weights) + w)%Q
  ∧ (0 <= sumQ (take k weights))%Q
  ∧ (cumulative weights k <= sumQ weights)%Q
  ∧ ∀ j, j < k → (cumulative weights j <= sumQ (take k weights))%Q.
Proof.
  intros Hpos Hk. unfold cumulative.
  rewrite (take_S_r _ _ _ Hk), sumQ_app.
  change (sumQ [w]) with (w + 0)%Q.
  assert (∀ n, (0 <= sumQ (take n weights))%Q) as Htake.
  { intros n. apply sumQ_nonneg. by apply Forall_take. }
  assert (∀ n, (0 <= sumQ (drop n weights))%Q) as Hdrop.
  { intros n. apply sumQ_nonneg. by apply Forall_drop. }
  split_and!.
  - ring.
  - apply Htake.
  - assert (sumQ weights
            == sumQ (take k weights) + (w + 0) + sumQ (drop (S k) weights))%Q
      as Hsplit.
    { rewrite <- (take_drop (S k) weights) at 1.
      rewrite sumQ_app, (take_S_r _ _ _ Hk), sumQ_app. reflexivity. }
    specialize (Hdrop (S k)). lra.
  - intros j Hj.
    assert (sumQ (take k weights)
            == sumQ (take (S j) weights)
               + sumQ (drop (S j) (take k weights)))%Q as Hsplit.
    { rewrite <- (take_drop (S j) (take k weights)) at 1.
      rewrite sumQ_app, take_take, Nat.min_l by lia. reflexivity. }
    assert (0 <= sumQ (drop (S j) (take k weights)))%Q as Hrest.
    { apply sumQ_nonneg. by apply Forall_drop, Forall_take. }
    lra.
Qed.

(** X22. In exact arithmetic every item of the pool has its share of the wheel:
    for each position there is a draw in [0, 1) that makes the item there
    the target. *)
Theorem every_item_can_be_target (stats : gmap jstring WordStat)
    (currentList : list WordPair) (k : nat) (item : WordPair) :
  Forall (λ w, ledgerName (char w)) currentList →
  currentList !! k = Some item →
  ∃ draw : Q,
    (0 <= draw < 1)%Q
    ∧ ∀ rnd : Random Q,
        targetDraw rnd = draw →
        selectTarget rnd stats currentList = Some item.
Proof.
  intros _ Hk.
  set (weights := weightsOf (R := Q) stats currentList).
  assert (Forall (λ w, (0 < w)%Q) weights) as Hpos.
  { unfold weights, weightsOf. apply Forall_fmap, Forall_forall. intros w _.
    apply weight_positive. }
  assert (weights !! k = Some (weight (statOf stats (char item)))) as Hwk.
  { unfold weights, weightsOf. by rewrite list_lookup_fmap, Hk. }
  set (w := weight (R := Q) (statOf stats (char item))) in *.
  assert (0 < w)%Q as Hw by apply weight_positive.
  destruct (cumulative_step weights k w Hpos Hwk) as (Hcum & Hbefore & Htotal & Hmono).
  assert (currentList ≠ []) as Hne by (by destruct currentList).
  pose proof (sumQ_weights_positive stats currentList Hne) as Hsum.
  fold weights in Hsum.
  set (draw := ((sumQ (take k weights) + w * (1 # 2)) / sumQ weights)%Q).
  assert (draw * sumQ weights == sumQ (take k weights) + w * (1 # 2))%Q as Hscaled.
  { unfold draw. field. lra. }
  exists draw. split.
  { split.
    - apply Qle_shift_div_l; [done|]. lra.
    - apply Qlt_shift_div_r; [done|]. lra. }
  intros rnd Hdraw. unfold selectTarget. rewrite totalWeight_weights, Hdraw.
  fold weights.
  set (randomVal := rmul draw (foldl radd (ofN 0) weights)).
  assert (randomVal == sumQ (take k weights) + w * (1 # 2))%Q as Hval.
  { unfold randomVal. cbn [rmul Q_Arith]. rewrite foldl_radd_sumQ.
    cbn [ofN Q_Arith]. change (inject_Z (Z.of_N 0)) with 0%Q.
    rewrite <- Hscaled. ring. }
  assert (reached randomVal weights k = true) as Hreach.
  { apply reached_cumulative. rewrite Hval, Hcum. lra. }
  assert (∀ j, j < k → reached randomVal weights j = false) as Hfirst.
  { intros j Hj. apply not_true_is_false. intros Hj'.
    apply reached_cumulative in Hj'. rewrite Hval in Hj'.
    specialize (Hmono j Hj). lra. }
  destruct (walk_items stats currentList randomVal (head currentList))
    as [(k' & item' & Hk' & -> & Hreach' & Hfirst') | [_ Hnone]].
  - fold weights in Hreach', Hfirst'.
    assert (k' = k) as ->.
    { destruct (Nat.lt_trichotomy k' k) as [Hlt|[?|Hgt]]; [|done|].
      - rewrite (Hfirst k' Hlt) in Hreach'. done.
      - rewrite (Hfirst' k Hgt) in Hreach. done. }
    congruence.
  - fold weights in Hnone. rewrite Hnone in Hreach; [done|].
    by eapply lookup_lt_Some.
Qed.

Lemma every_item_can_be_target_witness :
  let pool := parseInputData (text ["a:x"; "b:y"; "c:z"]) in
  pool !! 2 = Some {| id := str "word-c-2"; char := str "c"; word := str "z" |}
  ∧ ∃ draw : Q, (0 <= draw < 1)%Q
      ∧ ∀ rnd : Random Q, targetDraw rnd = draw →
          char <$> selectTarget rnd ∅ pool = Some (str "c").
Proof.
  cbn zeta.
  set (pool := parseInputData (text ["a:x"; "b:y"; "c:z"])).
  assert (pool !! 2 = Some {| id := str "word-c-2"; char := str "c";
                              word := str "z" |}) as Hk
    by (vm_compute; reflexivity).
  assert (Forall (λ w, ledgerName (char w)) pool) as Hnames.
  { assert (pool = [ {| id := str "word-a-0"; char := str "a"; word := str "x" |};
                     {| id := str "word-b-1"; char := str "b"; word := str "y" |};
                     {| id := str "word-c-2"; char := str "c"; word := str "z" |} ])
      as -> by (vm_compute; reflexivity).
    repeat (apply Forall_cons; split;
            [apply (bool_decide_unpack _); vm_compute; exact I|]).
    apply Forall_nil_2. }
  split; [exact Hk|].
  destruct (every_item_can_be_target ∅ pool 2 _ Hnames Hk) as (draw & Hrange & Hsel).
  exists draw. split; [exact Hrange|].
  intros rnd Hdraw. by rewrite (Hsel rnd Hdraw).
Defined.

(** ** The move of a mastered item, in general *)

Lemma split_snoc_line (text line : jstring) :
  existsb is_newline line = false →
  split is_newline (text ++ 10%N :: line) = split is_newline text ++ [line].
Proof.
  intros Hline. induction text as [|c text IH]; cbn [app split].
  - change (is_newline 10) with true. cbn. by rewrite split_no_sep.
  - destruct (is_newline c); rewrite IH; [done|].
    pose proof (split_nonempty is_newline text) as Hne.
    by destruct (split is_newline text).
Qed.

(** X23. [handleMastery] moves one line at most: the first line of the content
    whose text before a colon, trimmed, is the character of the item,
    whether that line is an item or not. The other lines stay in their
    order, so the pool becomes the items of the remaining lines, numbered
    anew, and other lines with the same character remain in it; the moved
    line becomes the last line of the learned text. When no line carries
    the character, nothing is moved and only the notification is set. The
    ledger, the score, the target and the options are left as they are. *)
Theorem handleMastery_moves_first_line (w : WordPair) (st : App) :
  let lines := split is_newline (inputText st) in
  let st' := handleMastery w st in
  ((∀ l, l ∈ lines → lineChar l ≠ char w) →
   st' = setMasteryNotification (Some (char w)) st)
  ∧ (∀ i line,
       lines !! i = Some line → lineChar line = char w →
       (∀ j l, j < i → lines !! j = Some l → lineChar l ≠ char w) →
       inputText st' = join 10 (delete i lines)
       ∧ wordList st' = keptItems (delete i lines)
       ∧ split is_newline (learnedText st')
         = match learnedText st with
           | [] => []
           | c :: s => split is_newline (c :: s)
           end ++ [line]
       ∧ localStorage st' !! STORAGE_KEY_INPUT = Some (inputText st')
       ∧ localStorage st' !! STORAGE_KEY_LEARNED = Some (learnedText st'))
  ∧ masteryNotification st' = Some (char w)
  ∧ wordStats st' = wordStats st
  ∧ score st' = score st
  ∧ targetWord st' = targetWord st
  ∧ currentOptions st' = currentOptions st.
Proof.
  cbn zeta. unfold handleMastery.
  change (inputText (setMasteryNotification _ st)) with (inputText st).
  change (learnedText (setMasteryNotification _ st)) with (learnedText st).
  set (lines := split is_newline (inputText st)).
  pose proof (split_parts_no_sep is_newline (inputText st)) as Hplain.
  fold lines in Hplain. rewrite Forall_forall in Hplain.
  destruct (list_find (λ l, lineChar l = char w) lines) as [[k found]|] eqn:Hfind.
  - apply list_find_Some in Hfind as (Hk & Hchar & Hfirst).
    split_and!; try done.
    + intros Hnone. exfalso. apply (Hnone found); [|done].
      by eapply list_elem_of_lookup_2.
    + intros i line Hi Hc Hbefore.
      assert (i = k) as ->.
      { destruct (Nat.lt_trichotomy i k) as [Hlt|[?|Hgt]]; [|done|].
        - by destruct (Hfirst i line Hi Hlt).
        - by destruct (Hbefore k found Hgt Hk). }
      assert (line = found) as -> by congruence.
      cbn -[parseInputData join split keptItems].
      store_lookup. split_and!; try done.
      * rewrite parseInputData_keptItems.
        destruct (delete k lines) as [|l0 ls0] eqn:Hdel; [done|].
        rewrite split_join; [done|done|]. rewrite <- Hdel.
        apply Forall_forall. intros l Hl. apply list_elem_of_delete_inv in Hl.
        by apply Hplain.
      * assert (existsb is_newline found = false) as Hline.
        { apply Hplain. by eapply list_elem_of_lookup_2. }
        destruct (learnedText st) as [|c s]; [by apply split_no_sep|].
        change ((c :: s ++ [10%N]) ++ found) with (((c :: s) ++ [10%N]) ++ found).
        rewrite <- (assoc_L (++)). by apply (split_snoc_line (c :: s)).
  - apply list_find_None in Hfind. split_and!; try done.
    intros i line Hi Hc _. rewrite Forall_forall in Hfind.
    destruct (Hfind line); [|done]. by eapply list_elem_of_lookup_2.
Qed.

(** ** A stored ledger that is not JSON *)

(** X24. A stored ledger text that [JSON.parse] rejects. The mount catches the
    error and starts with the empty ledger, and the text stays in the
    store; an export of that store throws, so no backup is made. The first
    answer that is recorded prints the ledger in memory over the text, and
    from then on the export succeeds. *)
Theorem unreadable_ledger `{Constants} `{JSON} (ls : gmap string jstring)
    (c : N) (s : jstring) (clock0 : Clock) :
  readsLedgers →
  ls !! STORAGE_KEY_STATS = Some (c :: s) →
  JSON_parse (c :: s) = None →
  let st := game (mounted clock0 ls) in
  wordStats st = ∅
  ∧ localStorage st !! STORAGE_KEY_STATS = Some (c :: s)
  ∧ (∀ clock, handleExportData clock st = None)
  ∧ ∀ clock selected target st1,
      targetWord st1 = Some target → isPlayingAudio st1 = false →
      feedback st1 ≠ FeedbackCorrect →
      let st2 := (handleOptionClick clock selected st1).1 in
      localStorage st2 !! STORAGE_KEY_STATS
        = Some (JSON_stringify (statsValue (wordStats st2)))
      ∧ ∀ clock', is_Some (handleExportData clock' st2).
Proof.
  intros Hcodec Hstored Hparse. cbn zeta.
  cbn [mounted game onGame initialScreen]. unfold mount.
  set (st1 := loadProgress clock0 (initialApp ls)).
  assert (localStorage st1 !! STORAGE_KEY_STATS = Some (c :: s)) as Hstored1.
  { unfold st1. rewrite loadProgress_storage; [done|].
    apply (bool_decide_unpack _). vm_compute. exact I. }
  destruct (loadContent_fields (loadStats st1))
    as (_ & _ & _ & Hw3 & _ & _ & _ & _ & _ & Hls3).
  destruct (loadStats_fields st1) as (Hw2 & _ & _ & _ & _ & _ & _ & _ & _ & Hls2).
  assert (wordStats st1 = ∅) as Hw1.
  { unfold st1.
    by destruct (loadProgress_content clock0 (initialApp ls)) as (_ & _ & _ & ->). }
  rewrite Hstored1, Hparse, Hw1 in Hw2.
  split_and!.
  - by rewrite Hw3, Hw2.
  - by rewrite Hls3, Hls2.
  - intros clock. unfold handleExportData. rewrite Hls3, Hls2, Hstored1.
    cbn [orElse]. by rewrite Hparse.
  - intros clock selected target st Ht Ha Hf.
    assert (∀ st2, localStorage st2 !! STORAGE_KEY_STATS
                   = Some (JSON_stringify (statsValue (wordStats st2))) →
              ∀ clock', is_Some (handleExportData clock' st2)) as Hexport.
    { intros st2 Hprinted clock'. unfold handleExportData. rewrite Hprinted.
      destruct (Hcodec (wordStats st2)) as (c' & s' & Hprint & Hread).
      rewrite Hprint. cbn [orElse]. by rewrite Hread. }
    cbn zeta. unfold handleOptionClick. rewrite Ht, Ha.
    rewrite bool_decide_eq_false_2 by done. cbn [orb].
    destruct (decide _); cbn [fst];
      (split; [cbn -[statsOnCorrect statsOnIncorrect statsValue];
               by rewrite lookup_insert_eq|]);
      apply Hexport; cbn -[statsOnCorrect statsOnIncorrect statsValue];
      by rewrite lookup_insert_eq.
Qed.

Lemma unreadable_ledger_witness :
  let ls : gmap string jstring := {[ STORAGE_KEY_STATS := str "{oops" ]} in
  wordStats (game (@mounted sampleConstants ledgerCodec mondayAtTen ls)) = ∅
  ∧ @handleExportData sampleConstants ledgerCodec mondayAtTen
      (game (@mounted sampleConstants ledgerCodec mondayAtTen ls)) = None.
Proof.
  cbn zeta.
  set (ls := {[ STORAGE_KEY_STATS := str "{oops" ]} : gmap string jstring).
  assert (ls !! STORAGE_KEY_STATS = Some (str "{oops")) as Hstored
    by (vm_compute; reflexivity).
  destruct (@unreadable_ledger sampleConstants ledgerCodec ls 123%N (str "oops")
              mondayAtTen ledgerCodec_readsLedgers Hstored eq_refl)
    as (Hempty & _ & Hexport & _).
  split; [exact Hempty|apply Hexport].
Defined.

(** ** The ledger of records and the ledger object *)

Lemma getProp_absent name props :
  name ∉ props.*1 → getProp name props = VUndefined.
Proof.
  induction props as [|[k v] props IH]; [done|].
  cbn [fmap list_fmap fst]. intros Hnot.
  apply not_elem_of_cons in Hnot as [Hne Hnot].
  cbn [getProp]. rewrite IH by done. by rewrite decide_False.
Qed.

Lemma getProp_NoDup name v props :
  NoDup props.*1 → (name, v) ∈ props → v ≠ VUndefined → getProp name props = v.
Proof.
  intros Hnd Hin Hv.
  induction props as [|[k x] props IH]; [by apply elem_of_nil in Hin|].
  cbn [fmap list_fmap fst] in Hnd. apply NoDup_cons in Hnd as [Hk Hnd].
  cbn [getProp]. apply elem_of_cons in Hin as [[= <- <-]|Hin].
  - rewrite getProp_absent by done. by rewrite decide_True.
  - rewrite IH by done. by destruct v.
Qed.

Lemma ledgerEntries_keys stats :
  (ledgerEntries stats).*1 = (map_to_list stats).*1.
Proof.
  unfold ledgerEntries. rewrite <- list_fmap_compose.
  by apply list_fmap_ext; intros ? [].
Qed.

(** [prev[char] || zero] on the object of a ledger of records is the record
    [statOf] gives, for a name that has an entry or that no object
    inherits. *)
Lemma readProperty_ledgerEntries stats c :
  ledgerName c ∨ is_Some (stats !! c) →
  orValue (readProperty (ledgerEntries stats) c) zeroStat
  = statValue (statOf stats c).
Proof.
  intros Hname. unfold readProperty, hasProp, statOf. rewrite ledgerEntries_keys.
  destruct (stats !! c) as [s|] eqn:Hc.
  - rewrite bool_decide_eq_true_2.
    2:{ apply list_elem_of_fmap. exists (c, s). split; [done|].
        by apply elem_of_map_to_list. }
    rewrite (getProp_NoDup c (statValue s)).
    + by destruct s.
    + rewrite ledgerEntries_keys. apply NoDup_fst_map_to_list.
    + unfold ledgerEntries. apply list_elem_of_fmap. exists (c, s).
      split; [done|]. by apply elem_of_map_to_list.
    + by destruct s.
  - rewrite bool_decide_eq_false_2.
    2:{ intros ((c' & s) & Heq & Hin)%list_elem_of_fmap. cbn in Heq. subst c'.
        apply elem_of_map_to_list in Hin. congruence. }
    destruct Hname as [Hname|[? ?]]; [|done].
    by rewrite bool_decide_eq_false_2.
Qed.

Lemma asWordStats_snoc props c v r :
  asWordStat v = Some r →
  asWordStats (VObj (props ++ [(c, v)])) = <[c := r]> (asWordStats (VObj props)).
Proof.
  intros Hv. unfold asWordStats. rewrite reverse_snoc.
  cbn [omap list_omap fst snd]. by rewrite Hv.
Qed.

Lemma asWordStats_ledgerEntries stats :
  asWordStats (VObj (ledgerEntries stats)) = stats.
Proof.
  change (VObj (ledgerEntries stats)) with (statsValue stats).
  rewrite <- (jsonImage_statsValue stats). apply asWordStats_statsValue.
Qed.

Lemma plusOne_count (n : N) :
  plusOne (VNum (Num (Z.of_N n))) = Some (VNum (Num (Z.of_N (n + 1)))).
Proof. cbn [plusOne nadd]. do 3 f_equal. lia. Qed.

Lemma orValue_count (n : N) :
  orValue (VNum (Num (Z.of_N n))) (VNum (Num 0)) = VNum (Num (Z.of_N n)).
Proof. by destruct n. Qed.

(** The record read from a spread record with two fields written anew. *)
Lemma asWordStat_updated (zn zi zk : Z) :
  (∀ a b, asWordStat (VObj ([(str "correct", VNum (Num zn));
            (str "incorrect", VNum (Num zi));
            (str "consecutiveCorrect", VNum (Num zk))]
            ++ [(str "correct", VNum (Num a));
                (str "consecutiveCorrect", VNum (Num b))]))
          = Some {| correct := Z.to_N a; incorrect := Z.to_N zi;
                    consecutiveCorrect := Z.to_N b |})
  ∧ (∀ a b, asWordStat (VObj ([(str "correct", VNum (Num zn));
              (str "incorrect", VNum (Num zi));
              (str "consecutiveCorrect", VNum (Num zk))]
              ++ [(str "incorrect", VNum (Num a));
                  (str "consecutiveCorrect", VNum (Num b))]))
            = Some {| correct := Z.to_N zn; incorrect := Z.to_N a;
                      consecutiveCorrect := Z.to_N b |}).
Proof. split; intros a b; vm_compute; reflexivity. Qed.

Lemma objectOnCorrect_records stats c :
  ledgerName c ∨ is_Some (stats !! c) →
  ∃ props, objectOnCorrect c (ledgerEntries stats) = Some props
    ∧ asWordStats (VObj props) = statsOnCorrect c stats.
Proof.
  intros Hname. unfold objectOnCorrect.
  rewrite (readProperty_ledgerEntries stats c Hname).
  destruct (statOf stats c) as [n i k] eqn:Hs.
  change (prop (statValue _) "consecutiveCorrect") with (VNum (Num (Z.of_N k))).
  change (prop (statValue _) "correct") with (VNum (Num (Z.of_N n))).
  rewrite orValue_count, !plusOne_count. cbn [mbind option_bind].
  eexists. split; [reflexivity|].
  rewrite (asWordStats_snoc _ _ _
             {| correct := n + 1; incorrect := i; consecutiveCorrect := k + 1 |}).
  - rewrite asWordStats_ledgerEntries. unfold statsOnCorrect. by rewrite Hs.
  - cbn [spread statValue correct incorrect consecutiveCorrect].
    destruct (asWordStat_updated (Z.of_N n) (Z.of_N i) (Z.of_N k)) as [-> _].
    by rewrite !N2Z.id.
Qed.

Lemma objectOnIncorrect_records stats c :
  ledgerName c ∨ is_Some (stats !! c) →
  ∃ props, objectOnIncorrect c (ledgerEntries stats) = Some props
    ∧ asWordStats (VObj props) = statsOnIncorrect c stats.
Proof.
  intros Hname. unfold objectOnIncorrect.
  rewrite (readProperty_ledgerEntries stats c Hname).
  destruct (statOf stats c) as [n i k] eqn:Hs.
  change (prop (statValue _) "incorrect") with (VNum (Num (Z.of_N i))).
  rewrite plusOne_count. cbn [mbind option_bind].
  eexists. split; [reflexivity|].
  rewrite (asWordStats_snoc _ _ _
             {| correct := n; incorrect := i + 1; consecutiveCorrect := 0 |}).
  - rewrite asWordStats_ledgerEntries. unfold statsOnIncorrect. by rewrite Hs.
  - cbn [spread statValue correct incorrect consecutiveCorrect].
    destruct (asWordStat_updated (Z.of_N n) (Z.of_N i) (Z.of_N k)) as [_ ->].
    by rewrite !N2Z.id.
Qed.

(** X25. The counts of a character that is not the name of an inherited
    member. Recording a correct answer adds 1 to its correct count and to
    its consecutive count; recording an incorrect answer adds 1 to its
    incorrect count and sets the consecutive count to 0; the entries of the
    other characters stay as they are. The updaters as they work on the
    ledger object (the read [prev[char]], the spread, the additions) give
    the object of these records, and these are the ledgers
    [handleOptionClick] leaves for such a target. Hence, in every sequence
    of answers for such characters, after a wrong answer for the character
    followed by answers among which those for it are all correct, the
    consecutive count is the number of those correct answers. *)
Theorem ledger_counts (c : jstring) (stats : gmap jstring WordStat) :
  ledgerName c →
  statOf (statsOnCorrect c stats) c
    = {| correct := correct (statOf stats c) + 1;
         incorrect := incorrect (statOf stats c);
         consecutiveCorrect := consecutiveCorrect (statOf stats c) + 1 |}
  ∧ statOf (statsOnIncorrect c stats) c
    = {| correct := correct (statOf stats c);
         incorrect := incorrect (statOf stats c) + 1;
         consecutiveCorrect := 0 |}
  ∧ (∀ c', c' ≠ c →
       statsOnCorrect c stats !! c' = stats !! c'
       ∧ statsOnIncorrect c stats !! c' = stats !! c')
  ∧ (∃ props, objectOnCorrect c (ledgerEntries stats) = Some props
       ∧ asWordStats (VObj props) = statsOnCorrect c stats)
  ∧ (∃ props, objectOnIncorrect c (ledgerEntries stats) = Some props
       ∧ asWordStats (VObj props) = statsOnIncorrect c stats)
  ∧ (∀ (json : JSON) clock selected st target,
       targetWord st = Some target → char target = c →
       isPlayingAudio st = false → feedback st ≠ FeedbackCorrect →
       wordStats (handleOptionClick clock selected st).1
       = recordAnswer (wordStats st)
           (c, bool_decide (id selected = id target)))
  ∧ (∀ before after,
       Forall (λ a, ledgerName a.1) (before ++ after) →
       Forall (λ a, a.1 = c → a.2 = true) after →
       consecutiveCorrect
         (statOf (recordAnswers stats (before ++ (c, false) :: after)) c)
       = N.of_nat (length (answersFor c after))).
Proof.
  intros Hname. split_and!.
  - apply statOf_correct.
  - apply statOf_incorrect.
  - intros c' Hne. split.
    + by apply (recordAnswer_other stats (c, true)).
    + by apply (recordAnswer_other stats (c, false)).
  - apply objectOnCorrect_records. by left.
  - apply objectOnIncorrect_records. by left.
  - intros json clock selected st target Ht <- Ha Hf.
    unfold handleOptionClick, recordAnswer. rewrite Ht, Ha.
    rewrite bool_decide_eq_false_2 by done. cbn [orb fst snd].
    destruct (decide (id selected = id target)) as [Heq|Hne].
    + rewrite bool_decide_eq_true_2 by done. unfold updateProgress.
      by destruct (_ && _).
    + by rewrite bool_decide_eq_false_2 by done.
  - intros pre post _ Hall. unfold recordAnswers.
    rewrite foldl_app. cbn [foldl].
    fold (recordAnswers (recordAnswer (foldl recordAnswer stats pre) (c, false)) post).
    rewrite consecutive_run by done.
    unfold recordAnswer. cbn [fst snd]. rewrite statOf_incorrect. cbn. lia.
Qed.

Lemma ledger_counts_witness :
  statOf (statsOnCorrect (str "a") ∅) (str "a")
  = {| correct := 1; incorrect := 0; consecutiveCorrect := 1 |}
  ∧ ∃ props, objectOnCorrect (str "a") [] = Some props
      ∧ asWordStats (VObj props) = statsOnCorrect (str "a") ∅.
Proof.
  assert (ledgerName (str "a")) as Hname.
  { apply (bool_decide_unpack _). vm_compute. exact I. }
  destruct (ledger_counts (str "a") ∅ Hname) as (Hcorrect & _ & _ & Hobject & _).
  split; [exact Hcorrect|exact Hobject].
Defined.
